(** * Puzzle generation engine of kidschurch: maze, word search, crossword

    A shallow embedding of the three generators: [generateMaze] of the
    component [Maze] (in [src/components/ColoringActivity.jsx]),
    [generateWordSearch] of [src/components/WordSearch.jsx], and
    [generateCrossword], [canPlaceWord], [placeWord] and [getClue] of
    [src/components/Crossword.jsx], followed by the properties of the
    specification stated and proved about them, and by further properties
    of the same code. Of the drawing code, the wall loop of [drawMaze] and
    the letter loop of [generateWordSearch] are embedded; the markers, the
    grid lines and the styling are left out. The blanking of words in the
    component [WordCompletion] (in [src/components/TicTacToe.jsx]) is
    embedded as well.

    Conventions of the embedding.
    - JavaScript numbers that hold grid coordinates and sizes are integers
      ([Z]); the subtraction [x - i] may become negative and is kept so.
    - A JavaScript array is a finite map from integer keys to values
      ([gmap Z A]): reading a missing key gives [undefined] ([None]), writing
      to any integer key (negative, or past the end) stores the value under
      that key. Its elements are the entries with a non-negative key.
    - Reading a property of [undefined] raises a [TypeError]; a computation
      is therefore an [outcome]: it returns, throws, or is cut off by the
      step budget of a [while] loop.
    - [Math.floor(Math.random() * n)] is the only use of randomness. The
      ambient random source is a stream [rng : nat -> nat] of draws, consumed
      in program order; the [k]-th draw [r] yields [r mod n] for [n > 0] and
      [0] for [n = 0], so every integer of [0 .. n-1] is a possible result. *)

From Stdlib Require Import ZArith Lia List String Ascii Bool.
From stdpp Require Import gmap strings list fin_maps.

#[local] Set Warnings "-clear-no-such-hyp".
Local Open Scope Z_scope.

(** ** JavaScript prelude *)

Module JS.

Inductive outcome (A : Type) : Type :=
| Returns (a : A)
| Throws (name : string)
| Timeout.
Arguments Returns {A} a.
Arguments Throws {A} name.
Arguments Timeout {A}.

Definition TypeError : string := "TypeError".

Definition bind {A B} (m : outcome A) (k : A -> outcome B) : outcome B :=
  match m with
  | Returns a => k a
  | Throws e => Throws e
  | Timeout => Timeout
  end.

(** The computation returns, and its value satisfies [P]. *)
Definition returned {A} (m : outcome A) (P : A -> Prop) : Prop :=
  match m with
  | Returns a => P a
  | _ => False
  end.

(** [Math.floor(Math.random() * n)] for an integer [n >= 0], [r] being the
    draw. *)
Definition floorRandom (r : nat) (n : Z) : Z :=
  if n <=? 0 then 0 else Z.of_nat r mod n.

(** [grid[y][x]] as an expression whose value is then dereferenced or
    stored: [look] is the value ([None] for [undefined], also when the row
    itself is missing). *)
Definition look {A} (g : gmap Z (gmap Z A)) (p : Z * Z) : option A :=
  match g !! p.2 with
  | Some row => row !! p.1
  | None => None
  end.

(** [grid[y][x] = v]: throws when [grid[y]] is [undefined]. *)
Definition store {A} (g : gmap Z (gmap Z A)) (p : Z * Z) (v : A)
  : outcome (gmap Z (gmap Z A)) :=
  match g !! p.2 with
  | Some row => Returns (<[p.2 := <[p.1 := v]> row]> g)
  | None => Throws TypeError
  end.

(** [grid[y][x].field] and [grid[y][x].field = ...]: the cell object must
    exist. [deref] reads it. *)
Definition deref {A} (g : gmap Z (gmap Z A)) (p : Z * Z) : outcome A :=
  match look g p with
  | Some c => Returns c
  | None => Throws TypeError
  end.

(** [update g p f] is the grid after the fields of the cell object at [p]
    were assigned as [f] tells. *)
Definition update {A} (g : gmap Z (gmap Z A)) (p : Z * Z) (f : A -> A)
  : outcome (gmap Z (gmap Z A)) :=
  match g !! p.2 with
  | Some row =>
      match row !! p.1 with
      | Some c => Returns (<[p.2 := <[p.1 := f c]> row]> g)
      | None => Throws TypeError
      end
  | None => Throws TypeError
  end.

End JS.

Import JS.

#[global] Instance outcome_ret : MRet outcome := @Returns.
#[global] Instance outcome_bind : MBind outcome := fun A B k m => JS.bind m k.

(** ** The component Maze *)

Module Maze.

Record Cell := mkCell
  { top : bool; right : bool; bottom : bool; left : bool; visited : bool }.

Inductive side := Top | Right | Bottom | Left.

#[global] Instance side_eq_dec : EqDecision side.
Proof. solve_decision. Defined.

Abbreviation Grid := (gmap Z (gmap Z Cell)).

(** [{ top: true, right: true, bottom: true, left: true, visited: false }] *)
Definition allWalls : Cell :=
  {| top := true; right := true; bottom := true; left := true;
     visited := false |}.

Definition wall (w : side) (c : Cell) : bool :=
  match w with
  | Top => top c
  | Right => right c
  | Bottom => bottom c
  | Left => left c
  end.

(** [cell.<w> = false] *)
Definition clearWall (w : side) (c : Cell) : Cell :=
  match w with
  | Top => {| top := false; right := right c; bottom := bottom c;
              left := left c; visited := visited c |}
  | Right => {| top := top c; right := false; bottom := bottom c;
                left := left c; visited := visited c |}
  | Bottom => {| top := top c; right := right c; bottom := false;
                 left := left c; visited := visited c |}
  | Left => {| top := top c; right := right c; bottom := bottom c;
               left := false; visited := visited c |}
  end.

(** [cell.visited = true] *)
Definition markVisited (c : Cell) : Cell :=
  {| top := top c; right := right c; bottom := bottom c; left := left c;
     visited := true |}.

(** The wall cleared on the neighbour's side. *)
Definition opposite (w : side) : side :=
  match w with
  | Top => Bottom
  | Right => Left
  | Bottom => Top
  | Left => Right
  end.

(** [for (let x = 0; x < cols; x++) grid[y][x] = {...}] on a fresh row. *)
Definition initRow (cols : Z) : gmap Z Cell :=
  foldl (fun row x => <[x := allWalls]> row) ∅ (seqZ 0 cols).

(** [for (let y = 0; y < rows; y++) { grid[y] = []; ... }] *)
Definition initGrid (cols rows : Z) : Grid :=
  foldl (fun g y => <[y := initRow cols]> g) ∅ (seqZ 0 rows).

(** The loop state. [draws] counts the calls to [Math.random] so far and
    [carved] the executions of the wall-removal block; both are
    bookkeeping of the embedding, the rest are the source's variables. *)
Record state := mkState
  { grid : Grid;
    stack : list (Z * Z);
    current : Z * Z;
    draws : nat;
    carved : nat }.

(** One of the four [if (guard && !grid[y][x].visited) neighbors.push(..)]. *)
Definition probe (g : Grid) (guard : bool) (p : Z * Z) (w : side)
           (acc : list (Z * Z * side)) : outcome (list (Z * Z * side)) :=
  if guard then
    c ← deref g p;
    Returns (if visited c then acc else acc ++ [(p, w)])
  else Returns acc.

(** The array [neighbors]: the unvisited cells above, right of, below and
    left of [cur], in this order, each with the wall that leads to it. *)
Definition neighbors (cols rows : Z) (g : Grid) (cur : Z * Z)
  : outcome (list (Z * Z * side)) :=
  n1 ← probe g (0 <? cur.2) (cur.1, cur.2 - 1) Top [];
  n2 ← probe g (cur.1 <? cols - 1) (cur.1 + 1, cur.2) Right n1;
  n3 ← probe g (cur.2 <? rows - 1) (cur.1, cur.2 + 1) Bottom n2;
  probe g (0 <? cur.1) (cur.1 - 1, cur.2) Left n3.

(** The body of [while (stack.length > 0)]: with no unvisited neighbour,
    backtrack to [stack.pop()]; otherwise pick one at random, remove the wall
    on both sides, mark it, push the current cell and move there. *)
Definition step (rng : nat -> nat) (cols rows : Z) (st : state)
  : outcome state :=
  ns ← neighbors cols rows (grid st) (current st);
  if decide (ns = []) then
    match stack st with
    | prev :: rest =>
        Returns {| grid := grid st; stack := rest; current := prev;
                   draws := draws st; carved := carved st |}
    | [] => Throws TypeError
    end
  else
    match ns !! Z.to_nat (floorRandom (rng (draws st))
                            (Z.of_nat (length ns))) with
    | Some (next, w) =>
        g1 ← update (grid st) (current st) (clearWall w);
        g2 ← update g1 next (clearWall (opposite w));
        g3 ← update g2 next markVisited;
        Returns {| grid := g3; stack := current st :: stack st;
                   current := next; draws := S (draws st);
                   carved := S (carved st) |}
    | None => Throws TypeError
    end.

(** [while (stack.length > 0) { ... }], cut off after [fuel] iterations. *)
Fixpoint loop (fuel : nat) (rng : nat -> nat) (cols rows : Z) (st : state)
  : outcome state :=
  match stack st with
  | [] => Returns st
  | _ :: _ =>
      match fuel with
      | O => Timeout
      | S fuel' =>
          st' ← step rng cols rows st;
          loop fuel' rng cols rows st'
      end
  end.

(** [generateMaze] up to the end of the loop. *)
Definition carveMaze (fuel : nat) (rng : nat -> nat) (cols rows : Z)
  : outcome state :=
  g0 ← update (initGrid cols rows) (0, 0) markVisited;
  loop fuel rng cols rows
    {| grid := g0; stack := [(0, 0)]; current := (0, 0);
       draws := O; carved := O |}.

(** The entrance and exit breaches. *)
Definition openEnds (cols rows : Z) (g : Grid) : outcome Grid :=
  g1 ← update g (0, 0) (clearWall Top);
  update g1 (cols - 1, rows - 1) (clearWall Bottom).

(** [generateMaze(cols, rows)]; [rng] is the random source and [fuel] the
    step budget of the loop. *)
Definition generateMaze (fuel : nat) (rng : nat -> nat) (cols rows : Z)
  : outcome Grid :=
  st ← carveMaze fuel rng cols rows;
  openEnds cols rows (grid st).

(** *** Notions used to state the maze properties *)

(** Cells of the [cols] x [rows] grid. *)
Definition inb (cols rows : Z) (p : Z * Z) : Prop :=
  0 <= p.1 < cols /\ 0 <= p.2 < rows.

Definition allCells (cols rows : Z) : list (Z * Z) :=
  y ← seqZ 0 rows; (fun x => (x, y)) <$> seqZ 0 cols.

Definition isVisited (g : Grid) (p : Z * Z) : bool :=
  match look g p with
  | Some c => visited c
  | None => false
  end.

Definition unvisited (cols rows : Z) (g : Grid) : nat :=
  length (List.filter (fun p => negb (isVisited g p)) (allCells cols rows)).

(** The cell across wall [w]. *)
Definition move (w : side) (p : Z * Z) : Z * Z :=
  match w with
  | Top => (p.1, p.2 - 1)
  | Right => (p.1 + 1, p.2)
  | Bottom => (p.1, p.2 + 1)
  | Left => (p.1 - 1, p.2)
  end.

(** Wall [w] of cell [p] is absent. *)
Definition isOpen (g : Grid) (p : Z * Z) (w : side) : bool :=
  match look g p with
  | Some c => negb (wall w c)
  | None => false
  end.

(** One can walk from [p] to the adjacent cell [q]: both are cells of the
    grid and the wall they share is absent on both sides. *)
Definition passage (cols rows : Z) (g : Grid) (p q : Z * Z) : Prop :=
  inb cols rows p /\ inb cols rows q /\
  exists w, q = move w p /\ isOpen g p w = true
            /\ isOpen g q (opposite w) = true.

(** What a flood fill started at (0,0) reaches. *)
Inductive reachable (cols rows : Z) (g : Grid) : Z * Z -> Prop :=
| reach_origin : reachable cols rows g (0, 0)
| reach_step p q :
    reachable cols rows g p -> passage cols rows g p q ->
    reachable cols rows g q.

(** The same, reached in at most [k] steps. *)
Inductive within (cols rows : Z) (g : Grid) : nat -> Z * Z -> Prop :=
| within_origin k : within cols rows g k (0, 0)
| within_step k p q :
    within cols rows g k p -> passage cols rows g p q ->
    within cols rows g (S k) q.

Definition inside (cols rows : Z) (p : Z * Z) : bool :=
  (0 <=? p.1) && (p.1 <? cols) && (0 <=? p.2) && (p.2 <? rows).

(** The flood fill, run for [n] rounds from the cells [seen]: each round
    adds the cells one passage away from a cell already seen. *)
Definition canPass (cols rows : Z) (g : Grid) (p : Z * Z) (w : side) : bool :=
  inside cols rows p && inside cols rows (move w p)
  && isOpen g p w && isOpen g (move w p) (opposite w).

Definition exits (cols rows : Z) (g : Grid) (p : Z * Z) : list (Z * Z) :=
  (fun w => move w p)
    <$> List.filter (canPass cols rows g p) [Top; Right; Bottom; Left].

Fixpoint floodFill (n : nat) (cols rows : Z) (g : Grid)
         (seen : list (Z * Z)) : list (Z * Z) :=
  match n with
  | O => seen
  | S n' => floodFill n' cols rows g (seen ++ (seen ≫= exits cols rows g))
  end.

(** The shared walls of the grid, each named once: by the cell on its left
    ([Right] wall) or above it ([Bottom] wall). The flag tells whether the
    wall is a carved one in [g]. *)
Definition sharedWalls (cols rows : Z) : list (Z * Z * side) :=
  p ← allCells cols rows; [(p, Right); (p, Bottom)].

(** The name of the wall between [p] and [move w p] in [sharedWalls]. *)
Definition wallBetween (w : side) (p : Z * Z) : Z * Z * side :=
  match w with
  | Right | Bottom => (p, w)
  | Top | Left => (move w p, opposite w)
  end.

Definition isCarved (cols rows : Z) (g : Grid) (e : Z * Z * side) : bool :=
  inside cols rows (move e.2 e.1) && isOpen g e.1 e.2
  && isOpen g (move e.2 e.1) (opposite e.2).

Definition carvedWalls (cols rows : Z) (g : Grid) : nat :=
  length (List.filter (isCarved cols rows g) (sharedWalls cols rows)).

(** Walls are only ever removed, cells only ever marked. *)
Definition carves (g g' : Grid) : Prop :=
  forall p c, look g p = Some c ->
    exists c', look g' p = Some c'
      /\ (forall w, wall w c = false -> wall w c' = false)
      /\ (visited c = true -> visited c' = true).

(** The loop invariant of the depth-first carving. *)
Record invariant (cols rows : Z) (st : state) : Prop := mkInv
  { inv_cells : forall p, inb cols rows p -> is_Some (look (grid st) p);
    inv_current : inb cols rows (current st);
    inv_stack : Forall (inb cols rows) (stack st);
    inv_stack_visited :
      Forall (fun p => isVisited (grid st) p = true) (stack st);
    inv_visited : isVisited (grid st) (current st) = true;
    inv_fresh : forall p, inb cols rows p -> isVisited (grid st) p = false ->
                look (grid st) p = Some allWalls;
    inv_facing : forall p w, inb cols rows p -> inb cols rows (move w p) ->
                isVisited (grid st) (move w p) = false ->
                isOpen (grid st) p w = false;
    inv_carved : carvedWalls cols rows (grid st) = carved st;
    inv_origin : isVisited (grid st) (0, 0) = true;
    inv_reach : forall p, inb cols rows p -> isVisited (grid st) p = true ->
                within cols rows (grid st) (carved st) p;
    inv_frontier : forall p w, inb cols rows p ->
                isVisited (grid st) p = true ->
                inb cols rows (move w p) ->
                isVisited (grid st) (move w p) = false ->
                p ∈ current st :: stack st;
    inv_shape : stack st <> [] ->
                exists pre, current st :: stack st = pre ++ [(0, 0); (0, 0)];
    inv_done : stack st = [] -> forall w, inb cols rows (move w (current st)) ->
                isVisited (grid st) (move w (current st)) = true;
    inv_count : (carved st + 1 + unvisited cols rows (grid st))%nat
                = Z.to_nat (cols * rows) }.

(** Iterations left: two per unvisited cell (enter, leave) and one per
    stack entry. *)
Definition budget (cols rows : Z) (st : state) : nat :=
  (2 * unvisited cols rows (grid st) + length (stack st))%nat.

(** *** The wall loop of [drawMaze] *)

(** One [beginPath(); moveTo(..); lineTo(..); stroke()]: the two end points,
    in the order they are given. *)
Definition Stroke : Type := (Z * Z) * (Z * Z).

(** The four [if (cell.<wall>) { ... }] of one cell, in the order [top],
    [right], [bottom], [left]. *)
Definition cellStrokes (cellSize x y : Z) (cell : Cell) : list Stroke :=
  let xPos := x * cellSize in
  let yPos := y * cellSize in
  (if top cell then [((xPos, yPos), (xPos + cellSize, yPos))] else [])
  ++ (if right cell
      then [((xPos + cellSize, yPos), (xPos + cellSize, yPos + cellSize))]
      else [])
  ++ (if bottom cell
      then [((xPos + cellSize, yPos + cellSize), (xPos, yPos + cellSize))]
      else [])
  ++ (if left cell then [((xPos, yPos + cellSize), (xPos, yPos))] else []).

(** [for (let x = 0; x < cols; x++) { const cell = grid[y][x]; ... }]:
    [cell.top] throws on a missing cell. *)
Fixpoint rowStrokes (cellSize : Z) (g : Grid) (y : Z) (xs : list Z)
         (acc : list Stroke) : outcome (list Stroke) :=
  match xs with
  | [] => Returns acc
  | x :: rest =>
      cell ← deref g (x, y);
      rowStrokes cellSize g y rest (acc ++ cellStrokes cellSize x y cell)
  end.

Fixpoint gridStrokes (cellSize cols : Z) (g : Grid) (ys : list Z)
         (acc : list Stroke) : outcome (list Stroke) :=
  match ys with
  | [] => Returns acc
  | y :: rest =>
      acc' ← rowStrokes cellSize g y (seqZ 0 cols) acc;
      gridStrokes cellSize cols g rest acc'
  end.

(** The strokes of [drawMaze(ctx, grid, cellSize, cols, rows, size)] between
    the background fill and the two markers, in drawing order. *)
Definition wallStrokes (cellSize cols rows : Z) (g : Grid)
  : outcome (list Stroke) :=
  gridStrokes cellSize cols g (seqZ 0 rows) [].

(** *** Notions used to state the wall properties *)

(** The stroke [drawMaze] makes for wall [w] of the cell at [p]: the top
    wall is drawn left to right, the right wall downwards, the bottom wall
    right to left and the left wall upwards. *)
Definition wallSegment (cellSize : Z) (p : Z * Z) (w : side) : Stroke :=
  let xPos := p.1 * cellSize in
  let yPos := p.2 * cellSize in
  match w with
  | Top => ((xPos, yPos), (xPos + cellSize, yPos))
  | Right => ((xPos + cellSize, yPos), (xPos + cellSize, yPos + cellSize))
  | Bottom => ((xPos + cellSize, yPos + cellSize), (xPos, yPos + cellSize))
  | Left => ((xPos, yPos + cellSize), (xPos, yPos))
  end.

(** The strokes for the walls of the cell at [p] that are present. *)
Definition cellWalls (cellSize : Z) (g : Grid) (p : Z * Z) : list Stroke :=
  wallSegment cellSize p
    <$> List.filter (fun w => negb (isOpen g p w)) [Top; Right; Bottom; Left].

(** The wall flags of the grid: every cell with each of its four sides. *)
Definition allFlags (cols rows : Z) : list (Z * Z * side) :=
  p ← allCells cols rows; (fun w => (p, w)) <$> [Top; Right; Bottom; Left].

(** The flags that are still set: the walls a drawing shows. *)
Definition closedFlags (cols rows : Z) (g : Grid) : nat :=
  length (List.filter (fun e => negb (isOpen g e.1 e.2)) (allFlags cols rows)).

(** What the carving keeps besides [invariant]: the grid has no other
    cells, a wall between two cells is present or absent on both sides, the
    outer walls stand, two flags are cleared per carving, and every carving
    takes one random draw. *)
Record walled (cols rows : Z) (st : state) : Prop := mkWalled
  { wl_cells : forall p, is_Some (look (grid st) p) -> inb cols rows p;
    wl_both : forall p w, inb cols rows p -> inb cols rows (move w p) ->
              isOpen (grid st) p w = isOpen (grid st) (move w p) (opposite w);
    wl_border : forall p w, inb cols rows p -> ~ inb cols rows (move w p) ->
              isOpen (grid st) p w = false;
    wl_flags : (closedFlags cols rows (grid st) + 2 * carved st)%nat
               = (4 * Z.to_nat (cols * rows))%nat;
    wl_draws : draws st = carved st }.

End Maze.

(** ** The component WordSearch *)

Module WordSearch.

Abbreviation Grid := (gmap Z (gmap Z ascii)).

Record PlacedWord := mkPlaced { word : list ascii; path : list (Z * Z) }.

(** The variables of [generateWordSearch] that outlive one attempt, and the
    number of random draws consumed so far. *)
Record state := mkState
  { grid : Grid; placedWords : list PlacedWord; draws : nat }.

(** [String.fromCharCode(65 + n)] *)
Definition fromCharCode (n : Z) : ascii := ascii_of_nat (Z.to_nat n).

(** [checkX], [checkY] (and [placeX], [placeY]) for index [i]. *)
Definition cellOf (direction x y i : Z) : Z * Z :=
  if direction =? 0 then (x + i, y)
  else if direction =? 1 then (x, y + i)
  else if direction =? 2 then (x + i, y + i)
  else if direction =? 3 then (x - i, y + i)
  else (x, y).

(** [placedWords.some(w => w.path.some(pt => pt.x === cx && pt.y === cy))] *)
Definition onPath (placed : list PlacedWord) (p : Z * Z) : bool :=
  existsb (fun pw => existsb (fun pt => bool_decide (pt = p)) (path pw)) placed.

(** The conflict check, from index [i] on; [letters] are the letters of
    [wordUpper] from that index. [Returns false] is the [break]. *)
Fixpoint canPlaceFrom (g : Grid) (placed : list PlacedWord)
         (direction x y i : Z) (letters : list ascii) : outcome bool :=
  match letters with
  | [] => Returns true
  | c :: rest =>
      let p := cellOf direction x y i in
      if onPath placed p then
        match g !! p.2 with
        | None => Throws TypeError
        | Some row =>
            if decide (row !! p.1 = Some c)
            then canPlaceFrom g placed direction x y (i + 1) rest
            else Returns false
        end
      else canPlaceFrom g placed direction x y (i + 1) rest
  end.

(** The writing loop of an accepted attempt. *)
Fixpoint writeFrom (g : Grid) (direction x y i : Z) (letters : list ascii)
         (pth : list (Z * Z)) : outcome (Grid * list (Z * Z)) :=
  match letters with
  | [] => Returns (g, pth)
  | c :: rest =>
      let p := cellOf direction x y i in
      g' ← store g p c;
      writeFrom g' direction x y (i + 1) rest (pth ++ [p])
  end.

Section Generator.
(** [word.toUpperCase().replace(/\s/g, '')], a library function of the
    host language, read as letters. *)
Variable normalize : string -> list ascii.
Variable rng : nat -> nat.
Variable gridSize : Z.

(** The three draws of an attempt: [direction], [x], [y]. *)
Definition anchor (k : nat) (len : Z) : Z * Z * Z :=
  let direction := floorRandom (rng k) 4 in
  let x := floorRandom (rng (S k))
             (gridSize - (if (direction =? 0) || (direction =? 2)
                          then len else 0)) in
  let y := floorRandom (rng (S (S k)))
             (gridSize - (if (direction =? 1) || (direction =? 2)
                             || (direction =? 3)
                          then len else 0)) in
  (direction, x, y).

(** One iteration of [while (!placed && attempts < 50)]; the boolean is
    [placed]. *)
Definition attempt (st : state) (wordUpper : list ascii)
  : outcome (state * bool) :=
  let '(direction, x, y) :=
    anchor (draws st) (Z.of_nat (length wordUpper)) in
  canPlace ← canPlaceFrom (grid st) (placedWords st) direction x y 0
               wordUpper;
  if (canPlace : bool) then
    r ← writeFrom (grid st) direction x y 0 wordUpper [];
    Returns ({| grid := r.1;
                placedWords := placedWords st
                               ++ [{| word := wordUpper; path := r.2 |}];
                draws := S (S (S (draws st))) |}, true)
  else
    Returns ({| grid := grid st; placedWords := placedWords st;
                draws := S (S (S (draws st))) |}, false).

(** The retry loop with [budget] attempts left. *)
Fixpoint retry (budget : nat) (st : state) (wordUpper : list ascii)
  : outcome state :=
  match budget with
  | O => Returns st
  | S budget' =>
      r ← attempt st wordUpper;
      if (r.2 : bool) then Returns r.1 else retry budget' r.1 wordUpper
  end.

(** The body of [for (const word of words)]. *)
Definition placeWord (st : state) (w : string) : outcome state :=
  let wordUpper := normalize w in
  if gridSize <? Z.of_nat (length wordUpper) then Returns st
  else retry 50 st wordUpper.

Fixpoint placeWords (st : state) (words : list string) : outcome state :=
  match words with
  | [] => Returns st
  | w :: rest => st' ← placeWord st w; placeWords st' rest
  end.

(** The random filler: row [y] takes the draws [k], [k+1], ... *)
Definition fillerRow (k : nat) : gmap Z ascii :=
  foldl (fun row x =>
           <[x := fromCharCode (65 + floorRandom (rng (k + Z.to_nat x)) 26)]>
             row)
        ∅ (seqZ 0 gridSize).

Definition fillerGrid : Grid :=
  foldl (fun g y => <[y := fillerRow (Z.to_nat (y * gridSize))]> g)
        ∅ (seqZ 0 gridSize).

(** [generateWordSearch] from the filling of the grid to the end of the
    placement loop, for a canvas that exists: the letter grid and the placed
    words. The drawing that follows only reads them. *)
Definition generateWordSearch (words : list string) : outcome state :=
  placeWords {| grid := fillerGrid; placedWords := [];
                draws := Z.to_nat (gridSize * gridSize) |} words.
End Generator.

(** *** The letters drawn on the canvas *)

(** [const cellSize = 18] *)
Definition cellSize : Z := 18.

(** One [ctx.fillText(text, xPos, yPos)]; the text is [undefined] ([None])
    where the grid has no letter. *)
Definition LetterDraw : Type := option ascii * Z * Z.

(** [for (let x = 0; x < gridSize; x++) { ... ctx.fillText(grid[y][x], xPos,
    yPos) }]; [cellSize / 2] is 9. *)
Fixpoint textRow (g : Grid) (y : Z) (xs : list Z) (acc : list LetterDraw)
  : outcome (list LetterDraw) :=
  match xs with
  | [] => Returns acc
  | x :: rest =>
      match g !! y with
      | None => Throws TypeError
      | Some row =>
          textRow g y rest
            (acc ++ [(row !! x, x * cellSize + cellSize / 2,
                      y * cellSize + cellSize / 2)])
      end
  end.

Fixpoint textRows (gridSize : Z) (g : Grid) (ys : list Z)
         (acc : list LetterDraw) : outcome (list LetterDraw) :=
  match ys with
  | [] => Returns acc
  | y :: rest =>
      acc' ← textRow g y (seqZ 0 gridSize) acc;
      textRows gridSize g rest acc'
  end.

(** The [fillText] calls of the drawing part of [generateWordSearch], in
    order. *)
Definition letterDraws (gridSize : Z) (g : Grid)
  : outcome (list LetterDraw) :=
  textRows gridSize g (seqZ 0 gridSize) [].

(** *** Notions used to state the word-search properties *)

(** The [fillText] call for cell [p] of grid [g]. *)
Definition drawOf (g : Grid) (p : Z * Z) : LetterDraw :=
  (look g p, p.1 * cellSize + cellSize / 2, p.2 * cellSize + cellSize / 2).

Definition inGrid (gridSize : Z) (p : Z * Z) : Prop :=
  0 <= p.1 < gridSize /\ 0 <= p.2 < gridSize.

(** The cells an attempt anchored at [(x, y)] checks and, if accepted,
    writes. *)
Definition cellsOf (direction x y len : Z) : list (Z * Z) :=
  cellOf direction x y <$> seqZ 0 len.

(** The rows of the letter grid exist. *)
Definition hasRows (gridSize : Z) (g : Grid) : Prop :=
  forall y, 0 <= y < gridSize -> is_Some (g !! y).

(** Every placed word reads off the grid along its path. *)
Definition consistent (st : state) : Prop :=
  forall pw i p, pw ∈ placedWords st -> path pw !! i = Some p ->
    exists c, word pw !! i = Some c /\ look (grid st) p = Some c.

Definition sound (gridSize : Z) (st : state) : Prop :=
  hasRows gridSize (grid st) /\ consistent st.

(** [wordUpper.length > gridSize] does not hold: the word is tried. *)
Definition fitsGrid (gridSize : Z) (w : list ascii) : bool :=
  Z.of_nat (length w) <=? gridSize.

(** A record whose path is a straight run of as many cells as the word has
    letters, in one of the four directions, within the rows of the grid and
    left of its right edge. *)
Definition straight (gridSize : Z) (pw : PlacedWord) : Prop :=
  exists d x y,
    0 <= d < 4
    /\ path pw = cellsOf d x y (Z.of_nat (length (word pw)))
    /\ Z.of_nat (length (word pw)) <= gridSize
    /\ forall p, p ∈ path pw ->
         0 <= p.2 < gridSize /\ - gridSize < p.1 < gridSize.

(** A capital letter of the Latin alphabet. *)
Definition isCapital (c : ascii) : Prop :=
  (65 <= nat_of_ascii c <= 90)%nat.

(** From [st] to [st'] the run made [k] attempts and recorded [added]: the
    records are straight runs, the cells off their paths are as before, and
    every attempt took three random draws. *)
Definition grows (gridSize : Z) (st st' : state)
           (added : list PlacedWord) (k : nat) : Prop :=
  placedWords st' = placedWords st ++ added
  /\ Forall (straight gridSize) added
  /\ (forall p, (forall pw, pw ∈ added -> p ∉ path pw) ->
        look (grid st') p = look (grid st) p)
  /\ draws st' = (draws st + 3 * k)%nat
  /\ (length added <= k)%nat.

End WordSearch.

(** ** The component Crossword *)

Module Crossword.

Abbreviation Grid := (gmap Z (gmap Z ascii)).

Record PlacedEntry := mkEntry
  { text : string; row : Z; col : Z; vertical : bool }.

Record DisplayCell := mkDisplay
  { letter : string; isBlack : bool; hasNumber : bool; number : option Z }.

(** What [clues[word] || fallback] evaluates to: a string, or the value the
    key inherits from [Object.prototype]. *)
Inductive clueValue := Str (s : string) | Inherited (key : string).

(** [{ number: clueNum, clue }]; the field [number] is [clueNumber] here. *)
Record ClueEntry := mkClue { clueNumber : Z; clue : clueValue }.

(** The object [generateCrossword] returns. *)
Record Crossword := mkCrossword
  { grid : gmap Z (gmap Z DisplayCell);
    across : list ClueEntry;
    down : list ClueEntry }.

Definition letters (w : string) : list ascii := list_ascii_of_string w.

(** The [.length] of an array: one past its largest index. *)
Definition arrayLength {A} (m : gmap Z A) : Z :=
  map_fold (fun k _ n => Z.max n (k + 1)) 0 m.

(** The elements [.map] visits: the entries at non-negative keys. *)
Definition elements {A} (m : gmap Z A) : gmap Z A :=
  filter (fun kv => 0 <= kv.1) m.

(** [Array(n).fill(null).map(() => v)] *)
Definition filled {A} (n : Z) (v : A) : gmap Z A :=
  foldl (fun m k => <[k := v]> m) ∅ (seqZ 0 n).

(** [grid[r][c]] read as a value: throws when [grid[r]] is [undefined]. *)
Definition peek (g : Grid) (r c : Z) : outcome (option ascii) :=
  match g !! r with
  | Some rw => Returns (rw !! c)
  | None => Throws TypeError
  end.

(** [guard && grid[r][c] !== '_'] *)
Definition occupied (g : Grid) (guard : bool) (r c : Z) : outcome bool :=
  if guard then
    cell ← peek g r c;
    Returns (bool_decide (cell <> Some "_"%char))
  else Returns false.

(** The [for] loop of the [vertical] branch of [canPlaceWord], from index
    [i] on; [len] is [word.length], [size] is [grid.length]. *)
Fixpoint canPlaceDown (g : Grid) (size len r c i : Z) (rest : list ascii)
  : outcome bool :=
  match rest with
  | [] => Returns true
  | ch :: rest' =>
      cell ← peek g (r + i) c;
      if bool_decide (cell <> Some "_"%char) && bool_decide (cell <> Some ch)
      then Returns false
      else if bool_decide (cell <> Some "_"%char)
      then canPlaceDown g size len r c (i + 1) rest'
      else
        b1 ← occupied g (0 <? c) (r + i) (c - 1);
        if (b1 : bool) then Returns false else
        b2 ← occupied g (c <? size - 1) (r + i) (c + 1);
        if (b2 : bool) then Returns false else
        b3 ← occupied g ((i =? 0) && (0 <? r)) (r - 1) c;
        if (b3 : bool) then Returns false else
        b4 ← occupied g ((i =? len - 1) && (r + len <? size)) (r + len) c;
        if (b4 : bool) then Returns false else
        canPlaceDown g size len r c (i + 1) rest'
  end.

(** The [for] loop of the horizontal branch. *)
Fixpoint canPlaceAcross (g : Grid) (size len r c i : Z) (rest : list ascii)
  : outcome bool :=
  match rest with
  | [] => Returns true
  | ch :: rest' =>
      cell ← peek g r (c + i);
      if bool_decide (cell <> Some "_"%char) && bool_decide (cell <> Some ch)
      then Returns false
      else if bool_decide (cell <> Some "_"%char)
      then canPlaceAcross g size len r c (i + 1) rest'
      else
        b1 ← occupied g (0 <? r) (r - 1) (c + i);
        if (b1 : bool) then Returns false else
        b2 ← occupied g (r <? size - 1) (r + 1) (c + i);
        if (b2 : bool) then Returns false else
        b3 ← occupied g ((i =? 0) && (0 <? c)) r (c - 1);
        if (b3 : bool) then Returns false else
        b4 ← occupied g ((i =? len - 1) && (c + len <? size)) r (c + len);
        if (b4 : bool) then Returns false else
        canPlaceAcross g size len r c (i + 1) rest'
  end.

Definition canPlaceWord (g : Grid) (w : string) (r c : Z) (vert : bool)
  : outcome bool :=
  let size := arrayLength g in
  let len := Z.of_nat (length (letters w)) in
  if vert then
    if (r <? 0) || (size <? r + len) then Returns false
    else canPlaceDown g size len r c 0 (letters w)
  else
    if (c <? 0) || (size <? c + len) then Returns false
    else canPlaceAcross g size len r c 0 (letters w).

(** Row and column of the [i]-th letter of a word anchored at [(r, c)]. *)
Definition cellAt (r c : Z) (vert : bool) (i : Z) : Z * Z :=
  if vert then (r + i, c) else (r, c + i).

(** The loops of [placeWord] (and of the seed placement), from index [i]. *)
Fixpoint writeLetters (g : Grid) (r c : Z) (vert : bool) (i : Z)
         (rest : list ascii) : outcome Grid :=
  match rest with
  | [] => Returns g
  | ch :: rest' =>
      let rc := cellAt r c vert i in
      g' ← store g (rc.2, rc.1) ch;
      writeLetters g' r c vert (i + 1) rest'
  end.

Definition placeWord (g : Grid) (w : string) (r c : Z) (vert : bool)
  : outcome Grid :=
  writeLetters g r c vert 0 (letters w).

(** [for (let j = 0; j < placedWord.text.length; j++)], from index [j];
    the result is the entry pushed when a fit is found. *)
Fixpoint scanLetters (g : Grid) (w : string) (i : Z) (ltr : ascii)
         (pw : PlacedEntry) (j : Z) (rest : list ascii)
  : outcome (option PlacedEntry) :=
  match rest with
  | [] => Returns None
  | ch :: rest' =>
      if decide (ch = ltr) then
        let newRow := if vertical pw then row pw + j else row pw - i in
        let newCol := if vertical pw then col pw - i else col pw + j in
        ok ← canPlaceWord g w newRow newCol (negb (vertical pw));
        if (ok : bool) then
          Returns (Some {| text := w; row := newRow; col := newCol;
                           vertical := negb (vertical pw) |})
        else scanLetters g w i ltr pw (j + 1) rest'
      else scanLetters g w i ltr pw (j + 1) rest'
  end.

(** [for (const placedWord of placedWords)] *)
Fixpoint scanPlaced (g : Grid) (w : string) (i : Z) (ltr : ascii)
         (pws : list PlacedEntry) : outcome (option PlacedEntry) :=
  match pws with
  | [] => Returns None
  | pw :: pws' =>
      found ← scanLetters g w i ltr pw 0 (letters (text pw));
      match found with
      | Some e => Returns (Some e)
      | None => scanPlaced g w i ltr pws'
      end
  end.

(** [for (let i = 0; i < word.length && !placed; i++)], from index [i]. *)
Fixpoint scanWord (g : Grid) (w : string) (placed : list PlacedEntry)
         (i : Z) (rest : list ascii) : outcome (option PlacedEntry) :=
  match rest with
  | [] => Returns None
  | ltr :: rest' =>
      found ← scanPlaced g w i ltr placed;
      match found with
      | Some e => Returns (Some e)
      | None => scanWord g w placed (i + 1) rest'
      end
  end.

(** The body of [for (let wordIdx = 1; ...)]: the grid and the placed
    words after trying [w]. *)
Definition tryPlace (gp : Grid * list PlacedEntry) (w : string)
  : outcome (Grid * list PlacedEntry) :=
  found ← scanWord gp.1 w gp.2 0 (letters w);
  match found with
  | Some e =>
      g' ← placeWord gp.1 w (row e) (col e) (vertical e);
      Returns (g', gp.2 ++ [e])
  | None => Returns gp
  end.

Fixpoint tryPlaceAll (gp : Grid * list PlacedEntry) (ws : list string)
  : outcome (Grid * list PlacedEntry) :=
  match ws with
  | [] => Returns gp
  | w :: ws' => gp' ← tryPlace gp w; tryPlaceAll gp' ws'
  end.

Definition gridSize : Z := 15.

Definition emptyGrid : Grid := filled gridSize (filled gridSize "_"%char).

(** The seed: the first word, horizontally, in the middle row. *)
Definition seed (firstWord : string) : outcome (Grid * list PlacedEntry) :=
  let startRow := gridSize / 2 in
  let startCol := (gridSize - Z.of_nat (length (letters firstWord))) / 2 in
  g ← writeLetters emptyGrid startRow startCol false 0 (letters firstWord);
  Returns (g, [{| text := firstWord; row := startRow; col := startCol;
                  vertical := false |}]).

(** The words the loop [wordIdx = 1 .. min(words.length, 8) - 1] visits. *)
Definition candidates (words : list string) : list string :=
  take 7 (drop 1 words).

(** Grid and placed words after the seed and the first [n] candidates. *)
Definition layoutAfter (n : nat) (words : list string)
  : outcome (Grid * list PlacedEntry) :=
  match words with
  | [] => Returns (emptyGrid, [])
  | firstWord :: _ =>
      gp ← seed firstWord;
      tryPlaceAll gp (take n (candidates words))
  end.

Definition layout (words : list string)
  : outcome (Grid * list PlacedEntry) :=
  layoutAfter 7 words.

(** The own properties of [clues]. *)
Definition clues : gmap string string :=
  list_to_map
    [ ("NOAH", "Built the big boat"); ("ARK", "Big floating boat");
      ("RAINBOW", "Colors in the sky"); ("ANIMALS", "In the big boat");
      ("WATER", "Falls from sky"); ("DOVE", "White bird");
      ("PROMISE", "God said yes"); ("FLOOD", "Lots of rain");
      ("RAIN", "Falls from clouds"); ("BOAT", "Floats on water");
      ("SAVE", "Help others"); ("PAIR", "Two together");
      ("GOD", "Made everything"); ("LOVE", "Big hug feeling");
      ("JESUS", "God's son"); ("PRAY", "Talk to God");
      ("BIBLE", "God's book"); ("FAITH", "Believe in God") ]%string.

(** The keys every object literal inherits. *)
Definition inheritedKeys : list string :=
  [ "constructor"; "hasOwnProperty"; "isPrototypeOf";
    "propertyIsEnumerable"; "toLocaleString"; "toString"; "valueOf";
    "__defineGetter__"; "__defineSetter__"; "__lookupGetter__";
    "__lookupSetter__"; "__proto__" ]%string.

(** [word.charAt(0)] *)
Definition charAt0 (w : string) : string :=
  match w with
  | EmptyString => EmptyString
  | String ch _ => String ch EmptyString
  end.

Definition getClue (w : string) : clueValue :=
  match clues !! w with
  | Some c => Str c
  | None =>
      if bool_decide (w ∈ inheritedKeys) then Inherited w
      else Str (w ++ " (starts with " ++ charAt0 w ++ ")")%string
  end.

(** [grid.map(row => row.map(cell => ({...})))] *)
Definition display (cell : ascii) : DisplayCell :=
  {| letter := if decide (cell = "_"%char) then EmptyString
               else String cell EmptyString;
     isBlack := bool_decide (cell = "_"%char);
     hasNumber := false;
     number := None |}.

Definition toDisplay (g : Grid) : gmap Z (gmap Z DisplayCell) :=
  (fun rw => display <$> elements rw) <$> elements g.

(** [cell.hasNumber = true; cell.number = clueNum] *)
Definition setNumber (n : Z) (cell : DisplayCell) : DisplayCell :=
  {| letter := letter cell; isBlack := isBlack cell; hasNumber := true;
     number := Some n |}.

(** [for (const word of placedWords)] of the numbering pass; the field
    [grid] of [cw] is the variable [displayGrid]. *)
Fixpoint numberWords (cw : Crossword) (clueNum : Z)
         (pws : list PlacedEntry) : outcome Crossword :=
  match pws with
  | [] => Returns cw
  | pw :: pws' =>
      dg ← update (grid cw) (col pw, row pw) (setNumber clueNum);
      let entry := {| clueNumber := clueNum; clue := getClue (text pw) |} in
      numberWords
        (if vertical pw
         then {| grid := dg; across := across cw;
                 down := down cw ++ [entry] |}
         else {| grid := dg; across := across cw ++ [entry];
                 down := down cw |})
        (clueNum + 1) pws'
  end.

Definition generateCrossword (words : list string) : outcome Crossword :=
  match words with
  | [] => Returns {| grid := ∅; across := []; down := [] |}
  | _ :: _ =>
      gp ← layout words;
      numberWords {| grid := toDisplay gp.1; across := [];
                     down := [] |} 1 gp.2
  end.

(** *** Notions used to state the crossword properties *)

(** The grid has its fifteen rows. *)
Definition hasRows (g : Grid) : Prop :=
  forall r, is_Some (g !! r) <-> 0 <= r < gridSize.

(** The entry pushed for the seed. *)
Definition seedEntry (firstWord : string) : PlacedEntry :=
  {| text := firstWord; row := 7;
     col := (15 - Z.of_nat (length (letters firstWord))) / 2;
     vertical := false |}.

(** What the grid holds at (row, column) [rc]. *)
Definition cellValue (g : Grid) (rc : Z * Z) : option ascii :=
  look g (rc.2, rc.1).

(** Row and column of the [i]-th letter of entry [e]. *)
Definition cellOfEntry (e : PlacedEntry) (i : Z) : Z * Z :=
  cellAt (row e) (col e) (vertical e) i.

(** Entry [e] has a letter at row [r], column [c]. *)
Definition covers (e : PlacedEntry) (r c : Z) : Prop :=
  exists i, 0 <= i < Z.of_nat (length (letters (text e)))
            /\ cellOfEntry e i = (r, c).

(** Row and column [rc] of [g] holds a letter. *)
Definition holdsLetter (g : Grid) (rc : Z * Z) : bool :=
  match cellValue g rc with
  | Some ch => bool_decide (ch <> "_"%char)
  | None => false
  end.

(** How many cells of the span of [w], anchored at [(r, c)], already hold
    a letter in [g]. *)
Definition sharedCells (g : Grid) (w : string) (r c : Z) (vert : bool)
  : nat :=
  length (List.filter (fun i => holdsLetter g (cellAt r c vert i))
                      (seqZ 0 (Z.of_nat (length (letters w))))).

(** Entry [e] is what the scan returns for candidate [w]: it crosses an
    entry [pw] placed earlier, perpendicular to it, letter [i] of [w] on
    letter [j] of [pw], the two letters being equal, and [canPlaceWord]
    accepts it. *)
Definition fits (g : Grid) (placed : list PlacedEntry) (w : string)
           (e : PlacedEntry) : Prop :=
  text e = w
  /\ canPlaceWord g w (row e) (col e) (vertical e) = Returns true
  /\ exists pw i j ltr,
       pw ∈ placed /\ letters w !! i = Some ltr
       /\ letters (text pw) !! j = Some ltr
       /\ vertical e = negb (vertical pw)
       /\ cellOfEntry e (Z.of_nat i) = cellOfEntry pw (Z.of_nat j).

(** Entry [e] puts letter [i] of [w] on letter [j] of [pw]. *)
Definition crosses (g : Grid) (w : string) (i : Z) (pw : PlacedEntry)
           (j : Z) (e : PlacedEntry) : Prop :=
  text e = w /\ vertical e = negb (vertical pw)
  /\ row e = (if vertical pw then row pw + j else row pw - i)
  /\ col e = (if vertical pw then col pw - i else col pw + j)
  /\ canPlaceWord g w (row e) (col e) (vertical e) = Returns true.

(** Numbering a cell keeps its letter and colour. *)
Definition sameFace (d d' : DisplayCell) : Prop :=
  letter d' = letter d /\ isBlack d' = isBlack d.

(** The grid as text, one string per row: the letter of a white cell,
    a dot for a black one, a question mark where a cell is missing. *)
Definition render (dg : gmap Z (gmap Z DisplayCell)) : list string :=
  (fun r =>
     String.concat ""
       ((fun c => match look dg (c, r) with
                  | Some d => if isBlack d then "."%string else letter d
                  | None => "?"%string
                  end) <$> seqZ 0 gridSize)) <$> seqZ 0 gridSize.

(** What holds of the grid and the placed words throughout the placement
    loop, for any input. *)
Record wellFormed (gp : Grid * list PlacedEntry) : Prop := mkWf
  { wf_rows : hasRows gp.1;
    wf_down : forall e, e ∈ gp.2 -> vertical e = true ->
              0 <= row e
              /\ row e + Z.of_nat (length (letters (text e))) <= gridSize;
    wf_across : forall e, e ∈ gp.2 -> vertical e = false ->
              0 <= row e < gridSize;
    wf_letters : forall e i ch, e ∈ gp.2 ->
              letters (text e) !! i = Some ch -> ch <> "_"%char ->
              cellValue gp.1 (cellOfEntry e (Z.of_nat i)) = Some ch }.

(** What holds in addition when the seed fits the grid and no word uses
    the blank marker. *)
Record tidy (gp : Grid * list PlacedEntry) : Prop := mkTidy
  { tidy_cells : forall r c, 0 <= r < gridSize ->
              is_Some (cellValue gp.1 (r, c)) <-> 0 <= c < gridSize;
    tidy_inside : forall e i, e ∈ gp.2 ->
              0 <= i < Z.of_nat (length (letters (text e))) ->
              0 <= (cellOfEntry e i).1 < gridSize
              /\ 0 <= (cellOfEntry e i).2 < gridSize;
    tidy_anchor : forall e, e ∈ gp.2 ->
              0 <= row e < gridSize /\ 0 <= col e < gridSize;
    tidy_covered : forall r c ch, cellValue gp.1 (r, c) = Some ch ->
              ch <> "_"%char -> exists e, e ∈ gp.2 /\ covers e r c;
    tidy_letters : forall e, e ∈ gp.2 -> "_"%char ∉ letters (text e) }.

(** What holds throughout the placement loop as soon as the seed fits the
    grid, whatever letters the words use: the rows keep their fifteen
    cells and every entry lies inside the grid. *)
Record roomy (gp : Grid * list PlacedEntry) : Prop := mkRoomy
  { roomy_cells : forall r c, 0 <= r < gridSize ->
              is_Some (cellValue gp.1 (r, c)) <-> 0 <= c < gridSize;
    roomy_inside : forall e i, e ∈ gp.2 ->
              0 <= i < Z.of_nat (length (letters (text e))) ->
              0 <= (cellOfEntry e i).1 < gridSize
              /\ 0 <= (cellOfEntry e i).2 < gridSize;
    roomy_anchor : forall e, e ∈ gp.2 ->
              0 <= row e < gridSize /\ 0 <= col e < gridSize }.

(** The placed entries with the values [clueNum] takes for them, the first
    being [n]. *)
Definition numbered (n : Z) (pws : list PlacedEntry)
  : list (Z * PlacedEntry) :=
  zip (seqZ n (Z.of_nat (length pws))) pws.

(** The clue entries of the entries of direction [vert], in placement
    order. *)
Definition cluesOf (vert : bool) (n : Z) (pws : list PlacedEntry)
  : list ClueEntry :=
  (fun ke => {| clueNumber := ke.1; clue := getClue (text ke.2) |})
    <$> List.filter (fun ke => bool_decide (vertical ke.2 = vert))
                    (numbered n pws).

(** The number of the last entry anchored at row and column [rc], if any. *)
Definition lastNumber (n : Z) (pws : list PlacedEntry) (rc : Z * Z)
  : option Z :=
  last (fst <$> List.filter (fun ke => bool_decide ((row ke.2, col ke.2) = rc))
                            (numbered n pws)).

End Crossword.

(** ** The component WordCompletion *)

Module WordCompletion.

(** ['_'.repeat(n)] *)
Fixpoint underscores (n : nat) : string :=
  match n with
  | O => EmptyString
  | S n' => String "_" (underscores n')
  end.

(** [Math.min(2, Math.floor(words.length / 3))] *)
Definition blanksCount (words : list string) : nat :=
  Nat.min 2 (length words / 3).

(** The callback of [words.map((word, index) => ...)]. The quotient
    [index / 3] is only evaluated when [index % 3 === 0], where it is the
    integer quotient. *)
Definition displayWord (count index : nat) (word : string) : string :=
  if ((0 <? index) && (index mod 3 =? 0) && (index / 3 <=? count))%nat
  then underscores (String.length word)
  else word.

Definition displayWords (words : list string) : list string :=
  imap (displayWord (blanksCount words)) words.

(** [word.startsWith('_')], which selects the class [blank-word]. *)
Definition startsWithBlank (word : string) : bool :=
  match word with
  | String c _ => Ascii.eqb c "_"
  | EmptyString => false
  end.

Section Phrase.
(** [phrase.split(' ')], a library function of the host language. *)
Variable split : string -> list string.

(** The spans the component renders: the text of each and whether it
    carries the class [blank-word]. *)
Definition wordCompletion (phrase : string) : list (string * bool) :=
  (fun word => (word, startsWithBlank word)) <$> displayWords (split phrase).
End Phrase.

End WordCompletion.

(** * Properties *)

(** ** Arrays of arrays *)

Module JSFacts.

Lemma bind_Returns {A B} (m : outcome A) (k : A -> outcome B) b :
  (m ≫= k) = Returns b <-> exists a, m = Returns a /\ k a = Returns b.
Proof.
  destruct m; cbn; split; try discriminate; eauto.
  all: intros [? [[=] ?]]; by subst.
Qed.

Lemma floorRandom_range r n : 0 < n -> 0 <= floorRandom r n < n.
Proof.
  intros Hn. unfold floorRandom. destruct (Z.leb_spec n 0); [lia|].
  apply Z.mod_pos_bound. lia.
Qed.

Lemma returned_exists {A} (m : outcome A) (P : A -> Prop) :
  returned m P -> exists a, m = Returns a /\ P a.
Proof. destruct m; cbn; [eauto|done..]. Qed.

Section Grid.
Context {A : Type}.
Implicit Types (g : gmap Z (gmap Z A)) (p q : Z * Z).

Lemma update_look g p f c :
  look g p = Some c ->
  exists g', update g p f = Returns g'.
Proof.
  unfold look, update. destruct (g !! p.2) as [row|]; [|done].
  intros ->. eauto.
Qed.

Lemma look_update g p f g' q :
  update g p f = Returns g' ->
  look g' q = if decide (q = p) then f <$> look g p else look g q.
Proof.
  unfold update, look. destruct p as [x y], q as [x' y']; cbn.
  destruct (g !! y) as [row|] eqn:Hr; [|done].
  destruct (row !! x) as [c|] eqn:Hc; [|done].
  intros [= <-]. destruct (decide (y' = y)) as [->|Hy].
  - rewrite lookup_insert_eq. destruct (decide (x' = x)) as [->|Hx].
    + rewrite lookup_insert_eq, decide_True by done. done.
    + rewrite lookup_insert_ne, decide_False by congruence. by rewrite Hr.
  - rewrite lookup_insert_ne, decide_False by congruence. done.
Qed.

Lemma update_undefined g p f :
  look g p = None -> update g p f = Throws TypeError.
Proof.
  unfold look, update. destruct (g !! p.2) as [row|]; [|done].
  by intros ->.
Qed.

Lemma update_rows g p f g' y :
  update g p f = Returns g' -> is_Some (g' !! y) <-> is_Some (g !! y).
Proof.
  unfold update. destruct (g !! p.2) as [row|] eqn:Hr; [|done].
  destruct (row !! p.1); [|done].
  intros [= <-]. destruct (decide (y = p.2)) as [->|Hy].
  - rewrite lookup_insert_eq, Hr. split; eauto.
  - by rewrite lookup_insert_ne.
Qed.

Lemma store_look g p v :
  is_Some (g !! p.2) -> exists g', store g p v = Returns g'.
Proof. unfold store. intros [row ->]. eauto. Qed.

Lemma look_store g p v g' q :
  store g p v = Returns g' ->
  look g' q = if decide (q = p) then Some v else look g q.
Proof.
  unfold store, look. destruct p as [x y], q as [x' y']; cbn.
  destruct (g !! y) as [row|] eqn:Hr; [|done].
  intros [= <-]. destruct (decide (y' = y)) as [->|Hy].
  - rewrite lookup_insert_eq. destruct (decide (x' = x)) as [->|Hx].
    + by rewrite lookup_insert_eq, decide_True.
    + rewrite lookup_insert_ne, decide_False by congruence. by rewrite Hr.
  - rewrite lookup_insert_ne, decide_False by congruence. done.
Qed.

Lemma store_rows g p v g' y :
  store g p v = Returns g' -> is_Some (g' !! y) <-> is_Some (g !! y).
Proof.
  unfold store. destruct (g !! p.2) as [row|] eqn:Hr; [|done].
  intros [= <-]. destruct (decide (y = p.2)) as [->|Hy].
  - rewrite lookup_insert_eq, Hr. split; eauto.
  - by rewrite lookup_insert_ne.
Qed.
End Grid.

End JSFacts.

(** ** The maze *)

Module MazeFacts.
Import Maze JSFacts.

Lemma elem_of_allCells cols rows p :
  p ∈ allCells cols rows <-> inb cols rows p.
Proof.
  unfold allCells, inb. rewrite list_elem_of_bind. split.
  - intros (y & Hp & Hy). apply list_elem_of_fmap in Hp as (x & -> & Hx).
    apply elem_of_seqZ in Hx, Hy. cbn. lia.
  - intros [Hx Hy]. exists p.2. split.
    + apply list_elem_of_fmap. exists p.1. split; [by destruct p|].
      apply elem_of_seqZ. lia.
    + apply elem_of_seqZ. lia.
Qed.

Lemma NoDup_allCells cols rows : NoDup (allCells cols rows).
Proof.
  unfold allCells. apply NoDup_bind.
  - intros y1 y2 p _ _ H1 H2.
    apply list_elem_of_fmap in H1 as (x1 & -> & _).
    apply list_elem_of_fmap in H2 as (x2 & [= _ ->] & _). done.
  - intros y _. apply NoDup_fmap_2; [|apply NoDup_seqZ].
    intros x1 x2 [= ->]. done.
  - apply NoDup_seqZ.
Qed.

Lemma length_allCells cols rows :
  0 <= cols -> 0 <= rows ->
  length (allCells cols rows) = Z.to_nat (cols * rows).
Proof.
  intros Hc Hr. unfold allCells.
  assert (forall l : list Z,
    length (l ≫= fun y => (fun x => (x, y)) <$> seqZ 0 cols)
    = (length l * Z.to_nat cols)%nat) as H.
  { induction l as [|y l IH]; [done|]. cbn.
    rewrite length_app, length_fmap, length_seqZ, IH. lia. }
  rewrite H, length_seqZ. nia.
Qed.

(** *** The fresh grid *)

Lemma lookup_fill {A} (v : A) (l : list Z) (m : gmap Z A) k :
  foldl (fun row x => <[x := v]> row) m l !! k
  = if decide (k ∈ l) then Some v else m !! k.
Proof.
  revert m. induction l as [|x l IH]; intros m; cbn.
  - rewrite decide_False; [done|]. apply not_elem_of_nil.
  - rewrite IH. destruct (decide (k ∈ l)) as [Hin|Hin].
    + rewrite decide_True; [done|]. by right.
    + destruct (decide (k = x)) as [->|Hne].
      * rewrite lookup_insert_eq, decide_True; [done|]. by left.
      * rewrite lookup_insert_ne, decide_False; [done| |done].
        intros Hk. apply elem_of_cons in Hk as [?|?]; done.
Qed.

Lemma look_initGrid cols rows p :
  look (initGrid cols rows) p
  = if decide (inb cols rows p) then Some allWalls else None.
Proof.
  unfold look, initGrid, initRow, inb. rewrite lookup_fill.
  destruct (decide (p.2 ∈ seqZ 0 rows)) as [Hy|Hy].
  - rewrite lookup_fill. apply elem_of_seqZ in Hy.
    destruct (decide (p.1 ∈ seqZ 0 cols)) as [Hx|Hx].
    + apply elem_of_seqZ in Hx. rewrite decide_True; [done|lia].
    + rewrite lookup_empty, decide_False; [done|].
      intros [? ?]. apply Hx, elem_of_seqZ. lia.
  - rewrite lookup_empty, decide_False; [done|].
    intros [? ?]. apply Hy, elem_of_seqZ. lia.
Qed.

(** *** Counting unvisited cells *)

Lemma filter_length_ext {A} (P Q : A -> bool) (l : list A) :
  (forall a, a ∈ l -> P a = Q a) ->
  length (List.filter P l) = length (List.filter Q l).
Proof.
  induction l as [|a l IH]; intros H; [done|]. cbn.
  rewrite (H a) by (by left). destruct (Q a); cbn; rewrite IH; auto.
  all: intros b Hb; apply H; by right.
Qed.

Lemma filter_length_drop {A} (P Q : A -> bool) (l : list A) (a : A) :
  NoDup l -> a ∈ l -> P a = true -> Q a = false ->
  (forall b, b ∈ l -> b <> a -> P b = Q b) ->
  length (List.filter P l) = S (length (List.filter Q l)).
Proof.
  induction l as [|b l IH]; intros Hnd Hin HP HQ Hext.
  - by apply elem_of_nil in Hin.
  - apply NoDup_cons in Hnd as [Hb Hnd]. cbn.
    apply elem_of_cons in Hin as [->|Hin].
    + rewrite HP, HQ. cbn. f_equal. apply filter_length_ext.
      intros c Hc. apply Hext; [by right|]. intros ->. done.
    + assert (b <> a) as Hne by (intros ->; done).
      rewrite (Hext b) by (done || by left).
      destruct (Q b); cbn; rewrite IH; auto.
      all: intros c Hc; apply Hext; by right.
Qed.

Lemma unvisited_ext cols rows g g' :
  (forall p, inb cols rows p -> isVisited g' p = isVisited g p) ->
  unvisited cols rows g' = unvisited cols rows g.
Proof.
  intros H. apply filter_length_ext. intros p Hp.
  apply elem_of_allCells in Hp. by rewrite H.
Qed.

Lemma unvisited_mark cols rows g g' q :
  inb cols rows q -> isVisited g q = false -> isVisited g' q = true ->
  (forall p, p <> q -> isVisited g' p = isVisited g p) ->
  unvisited cols rows g = S (unvisited cols rows g').
Proof.
  intros Hq Hu Hv Hext. apply (filter_length_drop _ _ _ q).
  - apply NoDup_allCells.
  - by apply elem_of_allCells.
  - by rewrite Hu.
  - by rewrite Hv.
  - intros p _ Hp. by rewrite Hext.
Qed.

Lemma unvisited_none cols rows g :
  (forall p, inb cols rows p -> isVisited g p = true) ->
  unvisited cols rows g = O.
Proof.
  intros H. unfold unvisited.
  rewrite (filter_length_ext _ (fun _ => false)).
  - induction (allCells cols rows); auto.
  - intros p Hp. apply elem_of_allCells in Hp. by rewrite H.
Qed.

Lemma unvisited_all cols rows g :
  0 <= cols -> 0 <= rows ->
  (forall p, inb cols rows p -> isVisited g p = false) ->
  unvisited cols rows g = Z.to_nat (cols * rows).
Proof.
  intros Hc Hr H. unfold unvisited.
  rewrite (filter_length_ext _ (fun _ => true)).
  - rewrite <- length_allCells by done.
    induction (allCells cols rows); cbn; auto.
  - intros p Hp. apply elem_of_allCells in Hp. by rewrite H.
Qed.

(** *** The neighbour scan *)

Lemma probe_spec g guard p w acc :
  (guard = true -> is_Some (look g p)) ->
  probe g guard p w acc
  = Returns (acc ++ if guard && negb (isVisited g p) then [(p, w)] else []).
Proof.
  unfold probe, deref, isVisited. destruct guard; cbn.
  - intros H. destruct (H eq_refl) as [c ->]. cbn.
    destruct (visited c); cbn; by rewrite ?app_nil_r.
  - by rewrite app_nil_r.
Qed.

Lemma elem_of_piece (b : bool) (e e' : Z * Z * side) :
  e' ∈ (if b then [e] else []) <-> b = true /\ e' = e.
Proof.
  destruct b.
  - rewrite list_elem_of_singleton. split; [by intros ->|by intros [_ ->]].
  - split; [by intros ?%elem_of_nil|by intros [? _]].
Qed.

Lemma inside_inb cols rows p : inside cols rows p = true <-> inb cols rows p.
Proof. unfold inside, inb. rewrite !andb_true_iff. lia. Qed.

Lemma neighbors_spec cols rows g cur :
  (forall p, inb cols rows p -> is_Some (look g p)) ->
  inb cols rows cur ->
  exists ns, neighbors cols rows g cur = Returns ns
    /\ forall q w, (q, w) ∈ ns <->
          q = move w cur /\ inb cols rows q /\ isVisited g q = false.
Proof.
  intros Hcells Hcur. destruct cur as [cx cy]. unfold inb in Hcur. cbn in Hcur.
  unfold neighbors. cbn [fst snd].
  rewrite (probe_spec _ _ _ Top); cycle 1.
  { intros ?%Z.ltb_lt. apply Hcells. unfold inb; cbn; lia. }
  cbn [mbind outcome_bind JS.bind].
  rewrite (probe_spec _ _ _ Right); cycle 1.
  { intros ?%Z.ltb_lt. apply Hcells. unfold inb; cbn; lia. }
  cbn [mbind outcome_bind JS.bind].
  rewrite (probe_spec _ _ _ Bottom); cycle 1.
  { intros ?%Z.ltb_lt. apply Hcells. unfold inb; cbn; lia. }
  cbn [mbind outcome_bind JS.bind].
  rewrite (probe_spec _ _ _ Left); cycle 1.
  { intros ?%Z.ltb_lt. apply Hcells. unfold inb; cbn; lia. }
  eexists; split; [reflexivity|]. intros q w.
  rewrite !elem_of_app, !elem_of_piece, !andb_true_iff, !negb_true_iff,
    !Z.ltb_lt, elem_of_nil.
  unfold inb. split.
  - intros [[[[[]|[[? ?] [= -> ->]]]|[[? ?] [= -> ->]]]
             |[[? ?] [= -> ->]]]|[[? ?] [= -> ->]]]; cbn; repeat split;
      try done; lia.
  - intros (-> & Hq & Hv). destruct w; cbn in *.
    + left; left; left; right. repeat split; try done; lia.
    + left; left; right. repeat split; try done; lia.
    + left; right. repeat split; try done; lia.
    + right. repeat split; try done; lia.
Qed.

(** *** Cells and walls *)

Lemma wall_clearWall w w0 c :
  wall w (clearWall w0 c) = if decide (w = w0) then false else wall w c.
Proof. by destruct w, w0, c. Qed.

Lemma visited_clearWall w c : visited (clearWall w c) = visited c.
Proof. by destruct w. Qed.

Lemma wall_markVisited w c : wall w (markVisited c) = wall w c.
Proof. by destruct w. Qed.

Lemma opposite_opposite w : opposite (opposite w) = w.
Proof. by destruct w. Qed.

Lemma move_opposite w p : move (opposite w) (move w p) = p.
Proof. destruct w, p as [x y]; cbn; f_equal; lia. Qed.

Lemma move_neq w p : move w p <> p.
Proof. destruct w, p as [x y]; cbn; intros [=]; lia. Qed.

Lemma move_inj w p q : move w p = move w q -> p = q.
Proof.
  destruct w, p as [x y], q as [x' y']; cbn; intros [=]; f_equal; lia.
Qed.

Lemma isVisited_true g p :
  isVisited g p = true <-> exists c, look g p = Some c /\ visited c = true.
Proof.
  unfold isVisited. destruct (look g p) as [c|]; split; eauto.
  - by intros (? & [= <-] & ?).
  - done.
  - by intros (? & ? & _).
Qed.

(** *** Carving only removes walls *)

Lemma carves_refl g : carves g g.
Proof. intros p c Hc. eauto. Qed.

Lemma carves_trans g1 g2 g3 : carves g1 g2 -> carves g2 g3 -> carves g1 g3.
Proof.
  intros H12 H23 p c Hc. destruct (H12 p c Hc) as (c2 & Hc2 & Hw2 & Hv2).
  destruct (H23 p c2 Hc2) as (c3 & Hc3 & Hw3 & Hv3). eauto 10.
Qed.

Lemma carves_update g p f g' :
  update g p f = Returns g' ->
  (forall c w, wall w c = false -> wall w (f c) = false) ->
  (forall c, visited c = true -> visited (f c) = true) ->
  carves g g'.
Proof.
  intros Hup Hw Hv q c Hc. rewrite (look_update _ _ _ _ q Hup).
  destruct (decide (q = p)) as [->|Hne]; [|eauto].
  rewrite Hc. cbn. exists (f c). auto.
Qed.

Lemma carves_clearWall g p w g' :
  update g p (clearWall w) = Returns g' -> carves g g'.
Proof.
  intros Hup. apply (carves_update _ _ _ _ Hup).
  - intros c w' Hw. rewrite wall_clearWall, Hw. by case_decide.
  - intros c. by rewrite visited_clearWall.
Qed.

Lemma carves_markVisited g p g' :
  update g p markVisited = Returns g' -> carves g g'.
Proof.
  intros Hup. apply (carves_update _ _ _ _ Hup).
  - intros c w' Hw. by rewrite wall_markVisited.
  - done.
Qed.

Lemma isOpen_clearWall g p w g' q w' :
  update g p (clearWall w) = Returns g' ->
  isOpen g' q w' = if decide (q = p /\ w' = w) then true else isOpen g q w'.
Proof.
  intros Hup. unfold isOpen. rewrite (look_update _ _ _ _ q Hup).
  destruct (decide (q = p)) as [->|Hq].
  - unfold update in Hup. unfold look.
    destruct (g !! p.2) as [row|]; [|done].
    destruct (row !! p.1) as [c|]; [|done]. cbn. rewrite wall_clearWall.
    destruct (decide (w' = w)) as [->|Hw].
    + by rewrite decide_True.
    + by rewrite decide_False by naive_solver.
  - by rewrite decide_False by naive_solver.
Qed.

Lemma carves_isOpen g g' p w :
  carves g g' -> isOpen g p w = true -> isOpen g' p w = true.
Proof.
  unfold isOpen. intros H. destruct (look g p) as [c|] eqn:Hc; [|done].
  destruct (H p c Hc) as (c' & -> & Hw & _). rewrite !negb_true_iff. auto.
Qed.

Lemma carves_isVisited g g' p :
  carves g g' -> isVisited g p = true -> isVisited g' p = true.
Proof.
  unfold isVisited. intros H. destruct (look g p) as [c|] eqn:Hc; [|done].
  destruct (H p c Hc) as (c' & -> & _ & Hv). auto.
Qed.

Lemma carves_passage cols rows g g' p q :
  carves g g' -> passage cols rows g p q -> passage cols rows g' p q.
Proof.
  intros H (Hp & Hq & w & -> & H1 & H2). split; [done|]. split; [done|].
  exists w. eauto using carves_isOpen.
Qed.

Lemma carves_within cols rows g g' k p :
  carves g g' -> within cols rows g k p -> within cols rows g' k p.
Proof.
  intros H. induction 1 as [|k p q _ IH Hpq].
  - constructor.
  - eapply within_step; eauto using carves_passage.
Qed.

Lemma within_S cols rows g k p :
  within cols rows g k p -> within cols rows g (S k) p.
Proof.
  induction 1 as [|k p q _ IH Hpq]; [constructor|].
  eapply within_step; eauto.
Qed.

Lemma within_reachable cols rows g k p :
  within cols rows g k p -> reachable cols rows g p.
Proof.
  induction 1 as [|k p q _ IH Hpq]; [constructor|].
  eapply reach_step; eauto.
Qed.

Lemma reachable_inb cols rows g p :
  inb cols rows (0, 0) -> reachable cols rows g p -> inb cols rows p.
Proof. intros H0. induction 1 as [|p q _ _ (_ & Hq & _)]; done. Qed.

(** *** The flood fill *)

Lemma elem_of_exits cols rows g p q :
  q ∈ exits cols rows g p <-> passage cols rows g p q.
Proof.
  unfold exits, passage, canPass. rewrite list_elem_of_fmap. split.
  - intros (w & -> & Hw). apply list_elem_of_In, filter_In in Hw as [_ Hw].
    rewrite !andb_true_iff, !inside_inb in Hw. naive_solver.
  - intros (Hp & Hq & w & -> & H1 & H2). exists w. split; [done|].
    apply list_elem_of_In, filter_In. split.
    + destruct w; cbn; auto.
    + rewrite !andb_true_iff, !inside_inb. done.
Qed.

Lemma floodFill_seen n cols rows g seen p :
  p ∈ seen -> p ∈ floodFill n cols rows g seen.
Proof.
  revert seen. induction n as [|n IH]; intros seen Hp; cbn; [done|].
  apply IH, elem_of_app. by left.
Qed.

Lemma floodFill_passage n cols rows g seen p q :
  p ∈ floodFill n cols rows g seen -> passage cols rows g p q ->
  q ∈ floodFill (S n) cols rows g seen.
Proof.
  revert seen. induction n as [|n IH]; intros seen Hp Hpq.
  - cbn in *. apply elem_of_app. right. apply list_elem_of_bind.
    exists p. split; [|done]. by apply elem_of_exits.
  - by apply (IH (seen ++ (seen ≫= exits cols rows g))).
Qed.

Lemma within_floodFill cols rows g k p :
  within cols rows g k p -> p ∈ floodFill k cols rows g [(0, 0)].
Proof.
  induction 1 as [k|k p q _ IH Hpq].
  - apply floodFill_seen. by left.
  - by eapply floodFill_passage.
Qed.

Lemma floodFill_reachable n cols rows g seen p :
  Forall (reachable cols rows g) seen ->
  p ∈ floodFill n cols rows g seen -> reachable cols rows g p.
Proof.
  revert seen. induction n as [|n IH]; intros seen Hseen; cbn.
  - rewrite Forall_forall in Hseen. auto.
  - apply IH. apply Forall_app. split; [done|].
    apply Forall_forall. intros q (r & Hq & Hr)%list_elem_of_bind.
    rewrite Forall_forall in Hseen.
    eapply reach_step; [by apply Hseen|]. by apply elem_of_exits.
Qed.

(** *** The wall-removal block *)

Section Carve.
Context (cols rows : Z) (g g1 g2 g3 : Grid) (cur next : Z * Z) (w : side).
Context (ccur cnext : Cell).
Hypothesis Hcur : look g cur = Some ccur.
Hypothesis Hnext : look g next = Some cnext.
Hypothesis Hmove : next = move w cur.
Hypothesis Hup1 : update g cur (clearWall w) = Returns g1.
Hypothesis Hup2 : update g1 next (clearWall (opposite w)) = Returns g2.
Hypothesis Hup3 : update g2 next markVisited = Returns g3.

Lemma carve_look q :
  look g3 q =
    if decide (q = next)
    then Some (markVisited (clearWall (opposite w) cnext))
    else if decide (q = cur) then Some (clearWall w ccur) else look g q.
Proof using Hcur Hnext Hmove Hup1 Hup2 Hup3.
  assert (next <> cur) as Hne by (rewrite Hmove; apply move_neq).
  rewrite (look_update _ _ _ _ q Hup3). destruct (decide (q = next)) as [->|Hq].
  - rewrite (look_update _ _ _ _ next Hup2), decide_True by done.
    rewrite (look_update _ _ _ _ next Hup1), decide_False by done.
    by rewrite Hnext.
  - rewrite (look_update _ _ _ _ q Hup2), decide_False by done.
    rewrite (look_update _ _ _ _ q Hup1).
    destruct (decide (q = cur)) as [->|]; [by rewrite Hcur|done].
Qed.

Lemma carve_carves : carves g g3.
Proof using Hup1 Hup2 Hup3.
  eapply carves_trans; [eapply carves_clearWall, Hup1|].
  eapply carves_trans; [eapply carves_clearWall, Hup2|].
  eapply carves_markVisited, Hup3.
Qed.

Lemma carve_isVisited q :
  visited ccur = true ->
  isVisited g3 q = if decide (q = next) then true else isVisited g q.
Proof using Hcur Hnext Hmove Hup1 Hup2 Hup3.
  intros Hv. unfold isVisited. rewrite carve_look.
  destruct (decide (q = next)); [done|].
  destruct (decide (q = cur)) as [->|]; [|done].
  by rewrite Hcur, visited_clearWall.
Qed.

Lemma carve_isOpen q w' :
  isOpen g3 q w' =
    if decide (q = next /\ w' = opposite w) then true
    else if decide (q = cur /\ w' = w) then true else isOpen g q w'.
Proof using Hcur Hnext Hmove Hup1 Hup2 Hup3.
  assert (next <> cur) as Hne by (rewrite Hmove; apply move_neq).
  unfold isOpen. rewrite carve_look.
  destruct (decide (q = next)) as [->|Hq].
  - rewrite wall_markVisited, wall_clearWall, Hnext.
    destruct (decide (w' = opposite w)) as [->|Hw].
    + by rewrite decide_True.
    + rewrite !decide_False by naive_solver. done.
  - rewrite (decide_False (P := q = next /\ _)) by naive_solver.
    destruct (decide (q = cur)) as [->|Hc].
    + rewrite wall_clearWall, Hcur. destruct (decide (w' = w)) as [->|Hw].
      * by rewrite decide_True.
      * by rewrite decide_False by naive_solver.
    + by rewrite decide_False by naive_solver.
Qed.
End Carve.

(** *** Counting carved walls *)

Lemma elem_of_sharedWalls cols rows p w :
  (p, w) ∈ sharedWalls cols rows
  <-> inb cols rows p /\ (w = Right \/ w = Bottom).
Proof.
  unfold sharedWalls. rewrite list_elem_of_bind. split.
  - intros (q & Hin & Hq). apply elem_of_allCells in Hq.
    apply elem_of_cons in Hin as [[= -> ->]|Hin]; [auto|].
    apply list_elem_of_singleton in Hin as [= -> ->]. auto.
  - intros [Hp Hw]. exists p. rewrite elem_of_allCells. split; [|done].
    destruct Hw as [->| ->]; [by left|by right; left].
Qed.

Lemma NoDup_sharedWalls cols rows : NoDup (sharedWalls cols rows).
Proof.
  unfold sharedWalls. apply NoDup_bind.
  - intros p1 p2 [q w] _ _ H1 H2.
    assert (forall p, (q, w) ∈ [(p, Right); (p, Bottom)] -> q = p) as H.
    { intros p Hin. apply elem_of_cons in Hin as [[= -> ->]|Hin]; [done|].
      by apply list_elem_of_singleton in Hin as [= -> ->]. }
    by rewrite <- (H _ H1), <- (H _ H2).
  - intros p _. apply NoDup_cons. split; [|apply NoDup_singleton].
    intros [=]%list_elem_of_singleton.
  - apply NoDup_allCells.
Qed.

Lemma carvedWalls_ext cols rows g g' :
  (forall p w, isOpen g' p w = isOpen g p w) ->
  carvedWalls cols rows g' = carvedWalls cols rows g.
Proof.
  intros H. apply filter_length_ext. intros [p w] _. unfold isCarved.
  by rewrite !H.
Qed.

Lemma carvedWalls_carve cols rows g g' cur w :
  inb cols rows cur -> inb cols rows (move w cur) ->
  isOpen g cur w = false ->
  (forall q w',
    isOpen g' q w' =
      if decide (q = move w cur /\ w' = opposite w) then true
      else if decide (q = cur /\ w' = w) then true else isOpen g q w') ->
  carvedWalls cols rows g' = S (carvedWalls cols rows g).
Proof.
  intros Hcur Hnext Hclosed Hopen.
  assert (isOpen g' cur w = true) as Ho1.
  { rewrite Hopen. case_decide; [done|]. by rewrite decide_True. }
  assert (isOpen g' (move w cur) (opposite w) = true) as Ho2.
  { by rewrite Hopen, decide_True. }
  apply inside_inb in Hcur as HinC. apply inside_inb in Hnext as HinN.
  apply (filter_length_drop _ _ _ (wallBetween w cur)).
  - apply NoDup_sharedWalls.
  - destruct w; cbn; apply elem_of_sharedWalls; auto.
  - unfold isCarved.
    destruct w; cbn [wallBetween fst snd];
      by rewrite ?move_opposite, ?opposite_opposite, ?Ho1, ?Ho2, ?HinN, ?HinC.
  - unfold isCarved.
    destruct w; cbn [wallBetween fst snd];
      rewrite ?move_opposite, ?opposite_opposite, Hclosed;
      by rewrite ?andb_false_r.
  - intros [p w'] Hin Hne. apply elem_of_sharedWalls in Hin as [Hp Hw'].
    unfold isCarved. cbn [fst snd]. rewrite !Hopen.
    assert (~ (p = move w cur /\ w' = opposite w)) as H1.
    { intros [-> ->]. destruct w; cbn in *; naive_solver. }
    assert (~ (p = cur /\ w' = w)) as H2.
    { intros [-> ->]. destruct w; cbn in *; naive_solver. }
    assert (~ (move w' p = move w cur /\ opposite w' = opposite w)) as H3.
    { intros [Hm Ho]. apply H2. assert (w' = w) as -> by (by destruct w, w').
      split; [by eapply move_inj|done]. }
    assert (~ (move w' p = cur /\ opposite w' = w)) as H4.
    { intros [Hm <-]. apply H1. rewrite <- Hm, move_opposite.
      by rewrite opposite_opposite. }
    by rewrite !decide_False.
Qed.

(** *** One iteration preserves the invariant *)

Lemma pop_invariant cols rows st prev rest :
  invariant cols rows st ->
  stack st = prev :: rest ->
  (forall w, inb cols rows (move w (current st)) ->
             isVisited (grid st) (move w (current st)) = true) ->
  invariant cols rows
    {| grid := grid st; stack := rest; current := prev;
       draws := draws st; carved := carved st |}.
Proof.
  intros [] Hst Hdead. rewrite Hst in *.
  apply Forall_cons in inv_stack0 as [Hprev Hrest].
  apply Forall_cons in inv_stack_visited0 as [Hvprev Hvrest].
  destruct (inv_shape0 ltac:(done)) as [pre Hpre].
  split; cbn; try done.
  - intros p w Hp Hv Hm Hu.
    specialize (inv_frontier0 p w Hp Hv Hm Hu).
    apply elem_of_cons in inv_frontier0 as [->|Hin]; [|done].
    rewrite Hdead in Hu; done.
  - intros Hne. destruct pre as [|c pre].
    + destruct rest; [done|]. by destruct rest.
    + exists pre. by injection Hpre.
  - intros -> w Hm. destruct pre as [|c [|c' pre]].
    + injection Hpre as Hc Hp. rewrite Hp, <- Hc in Hm |- *. auto.
    + by injection Hpre.
    + injection Hpre as _ _ Hnil. by destruct pre.
Qed.

Lemma carve_invariant cols rows st next w g1 g2 g3 :
  invariant cols rows st ->
  stack st <> [] ->
  next = move w (current st) ->
  inb cols rows next ->
  isVisited (grid st) next = false ->
  update (grid st) (current st) (clearWall w) = Returns g1 ->
  update g1 next (clearWall (opposite w)) = Returns g2 ->
  update g2 next markVisited = Returns g3 ->
  invariant cols rows
    {| grid := g3; stack := current st :: stack st; current := next;
       draws := S (draws st); carved := S (carved st) |}
  /\ unvisited cols rows (grid st) = S (unvisited cols rows g3).
Proof.
  intros [] Hne Hmove Hnext Hun Hup1 Hup2 Hup3.
  destruct (proj1 (isVisited_true _ _) inv_visited0) as (ccur & Hcur & Hvcur).
  pose proof (inv_fresh0 next Hnext Hun) as Hcn.
  pose proof (carve_look _ _ _ _ _ _ _ _ _ Hcur Hcn Hmove Hup1 Hup2 Hup3)
    as Hlook.
  pose proof (fun q => carve_isVisited _ _ _ _ _ _ _ _ _ Hcur Hcn Hmove
                        Hup1 Hup2 Hup3 q Hvcur) as Hvis.
  pose proof (carve_isOpen _ _ _ _ _ _ _ _ _ Hcur Hcn Hmove Hup1 Hup2 Hup3)
    as Hopen.
  pose proof (carve_carves _ _ _ _ _ _ _ Hup1 Hup2 Hup3) as Hcarves.
  assert (next <> current st) as Hnc by (rewrite Hmove; apply move_neq).
  assert (unvisited cols rows (grid st) = S (unvisited cols rows g3)) as Hcnt.
  { apply (unvisited_mark _ _ _ _ next); try done.
    - by rewrite Hvis, decide_True.
    - intros p Hp. by rewrite Hvis, decide_False. }
  split; [|done]. split; cbn.
  - intros p Hp. rewrite Hlook. repeat case_decide; eauto.
  - done.
  - by constructor.
  - constructor.
    + by rewrite Hvis, decide_False.
    + eapply Forall_impl; [done|]. intros p Hp. cbn in *.
      eauto using carves_isVisited.
  - by rewrite Hvis, decide_True.
  - intros p Hp. rewrite Hvis, Hlook. case_decide; [done|].
    intros Hu. rewrite decide_False; [auto|]. intros ->. congruence.
  - intros p w' Hp Hm. rewrite Hvis, Hopen. case_decide; [done|].
    intros Hu. rewrite !decide_False; [auto| |].
    + intros [-> ->]. congruence.
    + intros [-> ->]. rewrite Hmove, move_opposite in Hu. congruence.
  - rewrite <- inv_carved0. subst next.
    by apply (carvedWalls_carve _ _ _ _ (current st) w); auto.
  - eauto using carves_isVisited.
  - intros p Hp. rewrite Hvis. case_decide as Hpn.
    + intros _. subst p. apply (within_step _ _ _ _ (current st)).
      * eapply carves_within; [done|]. by apply inv_reach0.
      * split; [done|]. split; [done|]. exists w. rewrite !Hopen.
        split; [done|]. rewrite (decide_True (P := next = next /\ _)) by done.
        split; [|done]. case_decide; [done|]. by rewrite decide_True.
    + intros Hv. apply within_S. eapply carves_within; eauto.
  - intros p w' Hp. rewrite !Hvis. case_decide as Hpn.
    + intros _ _ _. subst p. by left.
    + intros Hv Hm. case_decide; [done|]. intros Hu. right. eauto.
  - intros _. destruct (inv_shape0 Hne) as [pre Hpre].
    exists (next :: pre). cbn. by rewrite Hpre.
  - done.
  - lia.
Qed.

Lemma step_spec rng cols rows st :
  invariant cols rows st -> stack st <> [] ->
  exists st', step rng cols rows st = Returns st'
    /\ invariant cols rows st'
    /\ budget cols rows st = S (budget cols rows st').
Proof.
  intros Hinv Hne. pose proof Hinv as [].
  destruct (neighbors_spec cols rows (grid st) (current st))
    as (ns & Hns & Hmem); [done..|].
  unfold step. rewrite Hns. cbn [mbind outcome_bind JS.bind].
  destruct (decide (ns = [])) as [->|Hnil].
  - destruct (stack st) as [|prev rest] eqn:Hst; [done|].
    eexists. split; [done|]. split.
    + apply (pop_invariant _ _ _ _ _ Hinv Hst). intros w Hm.
      destruct (isVisited (grid st) (move w (current st))) eqn:Hv; [done|].
      exfalso. eapply (not_elem_of_nil (A := Z * Z * side)).
      apply (Hmem (move w (current st)) w). done.
    + unfold budget. rewrite Hst. cbn. lia.
  - assert (0 < Z.of_nat (length ns)) as Hlen by (destruct ns; [done|cbn; lia]).
    pose proof (floorRandom_range (rng (draws st)) _ Hlen) as Hk.
    destruct (lookup_lt_is_Some_2 ns
                (Z.to_nat (floorRandom (rng (draws st)) (Z.of_nat (length ns)))))
      as [[next w] Hnw]; [lia|].
    rewrite Hnw. apply list_elem_of_lookup_2, Hmem in Hnw as (Hmv & Hin & Hu).
    destruct (proj1 (isVisited_true _ _) inv_visited0)
      as (ccur & Hcur & Hvcur).
    destruct (update_look _ _ (clearWall w) _ Hcur) as [g1 Hup1].
    rewrite Hup1. cbn [mbind outcome_bind JS.bind].
    destruct (inv_cells0 next Hin) as [cn Hcn].
    assert (is_Some (look g1 next)) as [cn1 Hcn1].
    { rewrite (look_update _ _ _ _ next Hup1). case_decide; [|eauto].
      rewrite Hcur. cbn. eauto. }
    destruct (update_look _ _ (clearWall (opposite w)) _ Hcn1) as [g2 Hup2].
    rewrite Hup2. cbn [mbind outcome_bind JS.bind].
    assert (is_Some (look g2 next)) as [cn2 Hcn2].
    { rewrite (look_update _ _ _ _ next Hup2), decide_True, Hcn1 by done.
      cbn. eauto. }
    destruct (update_look _ _ markVisited _ Hcn2) as [g3 Hup3].
    rewrite Hup3. cbn [mbind outcome_bind JS.bind].
    destruct (carve_invariant _ _ _ _ _ _ _ _ Hinv Hne Hmv Hin Hu
                Hup1 Hup2 Hup3) as [Hinv' Hcnt].
    eexists. split; [done|]. split; [done|].
    unfold budget. cbn. rewrite Hcnt. lia.
Qed.

(** *** The loop runs to an empty stack *)

Lemma loop_spec rng cols rows fuel st :
  invariant cols rows st -> (budget cols rows st <= fuel)%nat ->
  exists st', loop fuel rng cols rows st = Returns st'
    /\ invariant cols rows st' /\ stack st' = [].
Proof.
  revert st. induction fuel as [|fuel IH]; intros st Hinv Hfuel.
  - unfold budget in Hfuel. destruct (stack st) eqn:Hst; [|cbn in Hfuel; lia].
    exists st. cbn. by rewrite Hst.
  - cbn. destruct (stack st) as [|top rest] eqn:Hst; [by exists st|].
    destruct (step_spec rng cols rows st Hinv) as (st1 & -> & Hinv1 & Hb);
      [by rewrite Hst|].
    cbn [mbind outcome_bind JS.bind]. apply IH; [done|lia].
Qed.

Lemma loop_more_fuel rng cols rows fuel fuel' st st' :
  loop fuel rng cols rows st = Returns st' -> (fuel <= fuel')%nat ->
  loop fuel' rng cols rows st = Returns st'.
Proof.
  revert fuel' st. induction fuel as [|fuel IH]; intros fuel' st Hl Hle.
  - destruct fuel'; cbn in *; destruct (stack st); done.
  - destruct fuel' as [|fuel']; [lia|]. cbn in *. destruct (stack st); [done|].
    destruct (step rng cols rows st) as [st1| |]; cbn in *; try done.
    apply IH; [done|lia].
Qed.

(** *** The state before the loop *)

Lemma carvedWalls_closed cols rows g :
  (forall p w, inb cols rows p -> isOpen g p w = false) ->
  carvedWalls cols rows g = O.
Proof.
  intros H. unfold carvedWalls.
  rewrite (filter_length_ext _ (fun _ => false)).
  - induction (sharedWalls cols rows); auto.
  - intros [p w] [Hp _]%elem_of_sharedWalls. unfold isCarved. cbn.
    by rewrite H, andb_false_r.
Qed.

Lemma init_invariant cols rows :
  1 <= cols -> 1 <= rows ->
  exists g0, update (initGrid cols rows) (0, 0) markVisited = Returns g0
    /\ invariant cols rows
         {| grid := g0; stack := [(0, 0)]; current := (0, 0);
            draws := O; carved := O |}
    /\ S (unvisited cols rows g0) = Z.to_nat (cols * rows).
Proof.
  intros Hc Hr. assert (inb cols rows (0, 0)) as H00 by (unfold inb; cbn; lia).
  assert (look (initGrid cols rows) (0, 0) = Some allWalls) as Hl0.
  { by rewrite look_initGrid, decide_True. }
  destruct (update_look _ _ markVisited _ Hl0) as [g0 Hup]. exists g0.
  assert (forall p, look g0 p =
            if decide (p = (0, 0)) then Some (markVisited allWalls)
            else if decide (inb cols rows p) then Some allWalls else None)
    as Hlook.
  { intros p. rewrite (look_update _ _ _ _ p Hup), !look_initGrid.
    case_decide; [|done]. by rewrite decide_True. }
  assert (forall p, isVisited g0 p = bool_decide (p = (0, 0))) as Hvis.
  { intros p. unfold isVisited. rewrite Hlook. case_bool_decide.
    - by rewrite decide_True.
    - rewrite decide_False by done. by case_decide. }
  assert (forall p w, isOpen g0 p w = false) as Hopen.
  { intros p w. unfold isOpen. rewrite Hlook. repeat case_decide; by destruct w. }
  assert (S (unvisited cols rows g0) = Z.to_nat (cols * rows)) as Hcnt.
  { rewrite <- (unvisited_all cols rows (initGrid cols rows)) by
      (lia || intros p Hp; unfold isVisited;
       by rewrite look_initGrid, decide_True).
    symmetry. apply (unvisited_mark _ _ _ _ (0, 0)).
    - done.
    - unfold isVisited. by rewrite Hl0.
    - by rewrite Hvis, bool_decide_eq_true.
    - intros p Hp. rewrite Hvis, bool_decide_eq_false_2 by done.
      unfold isVisited. rewrite look_initGrid. by case_decide. }
  split; [done|]. split; [|done]. split; cbn.
  - intros p Hp. rewrite Hlook. repeat case_decide; eauto. done.
  - done.
  - by constructor.
  - constructor; [|done]. by rewrite Hvis, bool_decide_eq_true.
  - by rewrite Hvis, bool_decide_eq_true.
  - intros p Hp. rewrite Hvis, Hlook. intros Hf%bool_decide_eq_false.
    by rewrite decide_False, decide_True.
  - intros. apply Hopen.
  - by apply carvedWalls_closed.
  - by rewrite Hvis, bool_decide_eq_true.
  - intros p _. rewrite Hvis. intros ->%bool_decide_eq_true. constructor.
  - intros p w _. rewrite Hvis. intros ->%bool_decide_eq_true _ _. by left.
  - intros _. by exists [].
  - done.
  - lia.
Qed.

(** *** The state after the loop *)

Lemma all_visited cols rows st :
  invariant cols rows st -> stack st = [] ->
  forall p, inb cols rows p -> isVisited (grid st) p = true.
Proof.
  intros [] Hst.
  assert (forall p w, inb cols rows p -> isVisited (grid st) p = true ->
            inb cols rows (move w p) ->
            isVisited (grid st) (move w p) = true) as Hclosed.
  { intros p w Hp Hv Hm.
    destruct (isVisited (grid st) (move w p)) eqn:Hu; [done|].
    pose proof (inv_frontier0 p w Hp Hv Hm Hu) as Hin. rewrite Hst in Hin.
    apply list_elem_of_singleton in Hin as ->.
    rewrite inv_done0 in Hu; done. }
  assert (forall x, 0 <= x -> x < cols -> 0 < rows ->
            isVisited (grid st) (x, 0) = true) as Hrow.
  { intros x Hx. pattern x. apply natlike_ind; [done| |done].
    intros x' Hx' IH Hlt Hr.
    apply (Hclosed (x', 0) Right); unfold inb; cbn; try lia. apply IH; lia. }
  intros [x y] [Hx Hy]. cbn in Hx, Hy. destruct Hy as [Hy0 Hy].
  revert Hy. pattern y. apply natlike_ind; [|auto..|done].
  - intros Hr. apply Hrow; lia.
  - intros y' Hy' IH Hlt.
    apply (Hclosed (x, y') Bottom); unfold inb; cbn; try lia. apply IH; lia.
Qed.

Lemma carveMaze_spec rng cols rows fuel :
  1 <= cols -> 1 <= rows ->
  (2 * Z.to_nat (cols * rows) - 1 <= fuel)%nat ->
  exists st, carveMaze fuel rng cols rows = Returns st
    /\ invariant cols rows st /\ stack st = [].
Proof.
  intros Hc Hr Hfuel.
  destruct (init_invariant cols rows Hc Hr) as (g0 & Hup & Hinv & Hcnt).
  unfold carveMaze. rewrite Hup. cbn [mbind outcome_bind JS.bind].
  apply loop_spec; [done|]. unfold budget. cbn. lia.
Qed.

Lemma openEnds_spec cols rows g :
  1 <= cols -> 1 <= rows ->
  (forall p, inb cols rows p -> is_Some (look g p)) ->
  exists g', openEnds cols rows g = Returns g'
    /\ carves g g'
    /\ carvedWalls cols rows g' = carvedWalls cols rows g.
Proof.
  intros Hc Hr Hcells.
  destruct (Hcells (0, 0)) as [c0 Hc0]; [unfold inb; cbn; lia|].
  destruct (update_look _ _ (clearWall Top) _ Hc0) as [g1 Hup1].
  assert (is_Some (look g1 (cols - 1, rows - 1))) as [c1 Hc1].
  { rewrite (look_update _ _ _ _ _ Hup1). case_decide as Heq.
    - rewrite Hc0. cbn. eauto.
    - apply Hcells. unfold inb; cbn; lia. }
  destruct (update_look _ _ (clearWall Bottom) _ Hc1) as [g2 Hup2].
  exists g2. unfold openEnds. rewrite Hup1. cbn [mbind outcome_bind JS.bind].
  split; [done|]. split.
  - eapply carves_trans; eapply carves_clearWall; eauto.
  - apply filter_length_ext. intros [p w] [Hp Hw]%elem_of_sharedWalls.
    assert (forall q w', isOpen g2 q w' =
              if decide (q = (cols - 1, rows - 1) /\ w' = Bottom) then true
              else if decide (q = (0, 0) /\ w' = Top) then true
                   else isOpen g q w')
      as Hopen.
    { intros q w'. rewrite (isOpen_clearWall _ _ _ _ _ _ Hup2).
      by rewrite (isOpen_clearWall _ _ _ _ _ _ Hup1). }
    unfold isCarved. cbn [fst snd]. rewrite !Hopen.
    destruct (inside cols rows (move w p)) eqn:Hin; [|done].
    apply inside_inb in Hin. cbn.
    rewrite (decide_False (P := p = _ /\ w = Bottom)).
    2:{ intros [-> ->]. revert Hin. unfold inb. cbn. lia. }
    rewrite (decide_False (P := p = _ /\ w = Top)) by naive_solver.
    rewrite (decide_False (P := move w p = _ /\ _ = Bottom))
      by (destruct w; naive_solver).
    rewrite (decide_False (P := move w p = _ /\ _ = Top)); [done|].
    intros [Hm Ho]. destruct Hw as [-> | ->]; [done|].
    revert Hp Hm. unfold inb. destruct p; cbn. intros ? [=]. lia.
Qed.

(** *** Results about the whole generator *)

Lemma generateMaze_spec rng cols rows fuel :
  1 <= cols -> 1 <= rows ->
  (2 * Z.to_nat (cols * rows) - 1 <= fuel)%nat ->
  exists st g, carveMaze fuel rng cols rows = Returns st
    /\ generateMaze fuel rng cols rows = Returns g
    /\ stack st = []
    /\ (forall p, inb cols rows p -> within cols rows g (carved st) p)
    /\ Z.of_nat (carved st) = cols * rows - 1
    /\ carvedWalls cols rows g = carved st.
Proof.
  intros Hc Hr Hfuel.
  destruct (carveMaze_spec rng cols rows fuel Hc Hr Hfuel)
    as (st & Hrun & Hinv & Hst).
  destruct (openEnds_spec cols rows (grid st) Hc Hr (inv_cells _ _ _ Hinv))
    as (g & Hopen & Hcarves & Hcount).
  exists st, g. unfold generateMaze. rewrite Hrun.
  cbn [mbind outcome_bind JS.bind].
  pose proof (all_visited _ _ _ Hinv Hst) as Hall.
  repeat split; try done.
  - intros p Hp. eapply carves_within; [done|].
    apply (inv_reach _ _ _ Hinv); auto.
  - pose proof (inv_count _ _ _ Hinv) as Hcnt.
    rewrite (unvisited_none _ _ _ Hall) in Hcnt. nia.
  - rewrite Hcount. apply (inv_carved _ _ _ Hinv).
Qed.

(** A flood fill of [n] rounds that reaches every cell reaches exactly the
    cells of the grid, each counted once. *)
Lemma floodFill_all n cols rows g :
  1 <= cols -> 1 <= rows ->
  (forall p, inb cols rows p -> p ∈ floodFill n cols rows g [(0, 0)]) ->
  (forall p, p ∈ floodFill n cols rows g [(0, 0)] <-> inb cols rows p)
  /\ length (remove_dups (floodFill n cols rows g [(0, 0)]))
     = Z.to_nat (cols * rows).
Proof.
  intros Hc Hr Hall.
  assert (inb cols rows (0, 0)) as H0 by (unfold inb; cbn; lia).
  assert (forall p, p ∈ floodFill n cols rows g [(0, 0)] <-> inb cols rows p)
    as Hiff.
  { intros p. split; [|auto]. intros Hp. apply (reachable_inb _ _ g); [done|].
    eapply floodFill_reachable; [|done]. repeat constructor. }
  split; [done|]. rewrite <- length_allCells by lia.
  apply Permutation_length, NoDup_Permutation.
  - apply NoDup_remove_dups.
  - apply NoDup_allCells.
  - intros p. by rewrite elem_of_remove_dups, Hiff, elem_of_allCells.
Qed.

Lemma carveMaze_more_fuel rng cols rows fuel fuel' st :
  carveMaze fuel rng cols rows = Returns st -> (fuel <= fuel')%nat ->
  carveMaze fuel' rng cols rows = Returns st.
Proof.
  unfold carveMaze.
  destruct (update (initGrid cols rows) (0, 0) markVisited); try done.
  cbn [mbind outcome_bind JS.bind]. apply loop_more_fuel.
Qed.

Lemma generateMaze_invalid rng cols rows fuel :
  cols <= 0 \/ rows <= 0 ->
  generateMaze fuel rng cols rows = Throws TypeError.
Proof.
  intros Hdim. unfold generateMaze, carveMaze.
  rewrite update_undefined; [done|].
  rewrite look_initGrid, decide_False; [done|]. unfold inb. cbn. lia.
Qed.

End MazeFacts.

(** ** The word search *)

Module WordSearchFacts.
Import WordSearch JSFacts.

Lemma onPath_true placed p :
  onPath placed p = true <-> exists pw, pw ∈ placed /\ p ∈ path pw.
Proof.
  unfold onPath. rewrite existsb_exists. split.
  - intros (pw & Hpw & Hex). apply existsb_exists in Hex as (pt & Hpt & Heq).
    apply bool_decide_eq_true in Heq as ->.
    exists pw. by rewrite !list_elem_of_In.
  - intros (pw & Hpw & Hp). exists pw. rewrite <- list_elem_of_In.
    split; [done|]. apply existsb_exists. exists p.
    rewrite <- list_elem_of_In. split; [done|]. by apply bool_decide_eq_true.
Qed.

Lemma cellOf_cases d x y i :
  0 <= d < 4 ->
  cellOf d x y i =
    (if d =? 0 then x + i else if d =? 1 then x
     else if d =? 2 then x + i else x - i,
     if d =? 0 then y else y + i).
Proof.
  intros Hd. unfold cellOf.
  destruct (Z.eqb_spec d 0); [done|]. destruct (Z.eqb_spec d 1); [done|].
  destruct (Z.eqb_spec d 2); [done|]. destruct (Z.eqb_spec d 3); [done|lia].
Qed.

Lemma cellOf_inj d x y i j :
  0 <= d < 4 -> cellOf d x y i = cellOf d x y j -> i = j.
Proof.
  intros Hd. rewrite !cellOf_cases by done.
  destruct (Z.eqb_spec d 0); [intros [=]; lia|].
  intros [= _ ?]. lia.
Qed.

Section Generator.
Context (normalize : string -> list ascii) (rng : nat -> nat) (gridSize : Z).

(** Where an anchor can lie. *)
Lemma anchor_spec k len :
  0 <= len <= gridSize ->
  exists d x y, anchor rng gridSize k len = (d, x, y) /\ 0 <= d < 4
    /\ (forall i, 0 <= i < len -> 0 <= (cellOf d x y i).2 < gridSize)
    /\ (forall i, 0 <= i < len -> (cellOf d x y i).1 < gridSize)
    /\ (d <> 3 -> forall i, 0 <= i < len -> 0 <= (cellOf d x y i).1).
Proof.
  intros Hlen. unfold anchor.
  pose proof (floorRandom_range (rng k) 4 ltac:(lia)) as Hd.
  set (d := floorRandom (rng k) 4) in *.
  eexists d, _, _. split; [reflexivity|]. split; [done|].
  assert (forall r n, 0 <= n -> 0 <= floorRandom r n /\
            (floorRandom r n < n \/ n = 0 /\ floorRandom r n = 0)) as Hfr.
  { intros r n Hn. unfold floorRandom. destruct (Z.leb_spec n 0); [lia|].
    pose proof (Z.mod_pos_bound (Z.of_nat r) n). lia. }
  assert (forall b : bool, (if b then len else 0) = 0 \/ (if b then len else 0) = len)
    as Hb by (intros []; auto).
  split; [|split].
  all: intros; rewrite cellOf_cases by done; cbn [fst snd].
  all: repeat match goal with
         | |- context [floorRandom ?r (gridSize - (if ?b then _ else _))] =>
             let H := fresh in
             let E := fresh in
             pose proof (Hfr r (gridSize - (if b then len else 0))) as H;
             destruct b eqn:E
         end.
  all: repeat match goal with
         | H : _ || _ = _ |- _ =>
             rewrite ?orb_true_iff, ?orb_false_iff, ?Z.eqb_eq, ?Z.eqb_neq in H
         end.
  all: repeat match goal with
         | |- context [?a =? ?b] => destruct (Z.eqb_spec a b)
         end; lia.
Qed.
End Generator.

(** *** The conflict check and the writing loop *)

Lemma canPlaceFrom_spec g placed d x y letters i :
  (forall j, (j < length letters)%nat ->
             is_Some (g !! (cellOf d x y (i + Z.of_nat j)).2)) ->
  exists b, canPlaceFrom g placed d x y i letters = Returns b
    /\ (b = true ->
        forall j c, letters !! j = Some c ->
          onPath placed (cellOf d x y (i + Z.of_nat j)) = true ->
          look g (cellOf d x y (i + Z.of_nat j)) = Some c).
Proof.
  revert i. induction letters as [|c rest IH]; intros i Hrows; cbn.
  - exists true. split; [done|]. intros _ j c' Hj. by destruct j.
  - destruct (IH (i + 1)) as (b & Hb & Hall).
    { intros j Hj. replace (i + 1 + Z.of_nat j) with (i + Z.of_nat (S j))
        by lia. apply Hrows. cbn. lia. }
    assert (forall j c', (c :: rest) !! j = Some c' ->
              look g (cellOf d x y i) = Some c \/
              onPath placed (cellOf d x y i) = false ->
              b = true ->
              onPath placed (cellOf d x y (i + Z.of_nat j)) = true ->
              look g (cellOf d x y (i + Z.of_nat j)) = Some c') as Hstep.
    { intros [|j] c' Hj Hhead Hbt Hon; cbn in Hj.
      - injection Hj as <-. rewrite Z.add_0_r in *.
        destruct Hhead; congruence.
      - replace (i + Z.of_nat (S j)) with (i + 1 + Z.of_nat j) in * by lia.
        by apply Hall. }
    destruct (onPath placed (cellOf d x y i)) eqn:Hon.
    + destruct (Hrows O) as [rw Hrw]; [cbn; lia|].
      rewrite Z.add_0_r in Hrw. rewrite Hrw. case_decide as Hc.
      * exists b. split; [done|]. intros Hbt j c' Hj. apply Hstep; auto.
        left. unfold look. by rewrite Hrw.
      * exists false. split; done.
    + exists b. split; [done|]. intros Hbt j c' Hj. apply Hstep; auto.
Qed.

Lemma writeFrom_spec gridSize g d x y letters i pth :
  0 <= d < 4 ->
  hasRows gridSize g ->
  (forall j, (j < length letters)%nat ->
             0 <= (cellOf d x y (i + Z.of_nat j)).2 < gridSize) ->
  exists g', writeFrom g d x y i letters pth
             = Returns (g', pth ++ (cellOf d x y <$>
                                      seqZ i (Z.of_nat (length letters))))
    /\ hasRows gridSize g'
    /\ (forall j c, letters !! j = Some c ->
          look g' (cellOf d x y (i + Z.of_nat j)) = Some c)
    /\ (forall p, (forall j, (j < length letters)%nat ->
                             p <> cellOf d x y (i + Z.of_nat j)) ->
          look g' p = look g p).
Proof.
  intros Hd. revert g i pth.
  induction letters as [|c rest IH]; intros g i pth Hrows Hys; cbn.
  - exists g. rewrite app_nil_r. repeat split; done.
  - destruct (store_look g (cellOf d x y i) c) as [g1 Hg1].
    { apply Hrows. specialize (Hys O). rewrite Z.add_0_r in Hys.
      apply Hys. cbn. lia. }
    rewrite Hg1. cbn [mbind outcome_bind JS.bind].
    destruct (IH g1 (i + 1) (pth ++ [cellOf d x y i])) as (g' & Hw & Hr & Hin & Hout).
    { intros r Hr. apply (store_rows _ _ _ _ r Hg1). by apply Hrows. }
    { intros j Hj. replace (i + 1 + Z.of_nat j) with (i + Z.of_nat (S j))
        by lia. apply Hys. cbn. lia. }
    exists g'. split; [|split; [done|split]].
    + rewrite Hw. do 2 f_equal. rewrite <- app_assoc. f_equal.
      rewrite (seqZ_cons i) by lia. cbn. do 3 f_equal; lia.
    + intros [|j] c' Hj; cbn in Hj.
      * injection Hj as <-. rewrite Z.add_0_r. rewrite Hout.
        -- by rewrite (look_store _ _ _ _ _ Hg1), decide_True.
        -- intros j Hj Heq. apply cellOf_inj in Heq; [lia|done].
      * replace (i + Z.of_nat (S j)) with (i + 1 + Z.of_nat j) by lia. auto.
    + intros p Hp. rewrite Hout.
      * rewrite (look_store _ _ _ _ _ Hg1), decide_False; [done|].
        specialize (Hp O). rewrite Z.add_0_r in Hp. apply Hp. cbn. lia.
      * intros j Hj. replace (i + 1 + Z.of_nat j) with (i + Z.of_nat (S j))
          by lia. apply Hp. cbn. lia.
Qed.

(** *** Attempts *)

Lemma lookup_cells d x y len i p :
  (cellOf d x y <$> seqZ 0 len) !! i = Some p
  <-> p = cellOf d x y (0 + Z.of_nat i) /\ Z.of_nat i < len.
Proof.
  rewrite list_lookup_fmap, fmap_Some. split.
  - intros (k & Hk & ->). apply lookup_seqZ in Hk as [-> ?]. done.
  - intros [-> Hi]. exists (0 + Z.of_nat i). split; [|done].
    by apply lookup_seqZ.
Qed.

Section Attempt.
Context (rng : nat -> nat) (gridSize : Z).

(** A rejected attempt changes neither the grid nor the placed words;
    an accepted one writes the word along the cells of its anchor. *)
Lemma attempt_unfold st w d x y :
  anchor rng gridSize (draws st) (Z.of_nat (length w)) = (d, x, y) ->
  attempt rng gridSize st w =
    (canPlace ← canPlaceFrom (grid st) (placedWords st) d x y 0 w;
     if (canPlace : bool) then
       r ← writeFrom (grid st) d x y 0 w [];
       Returns ({| grid := r.1;
                   placedWords := placedWords st
                                  ++ [{| word := w; path := r.2 |}];
                   draws := S (S (S (draws st))) |}, true)
     else
       Returns ({| grid := grid st; placedWords := placedWords st;
                   draws := S (S (S (draws st))) |}, false)).
Proof. intros Ha. unfold attempt. by rewrite Ha. Qed.

Lemma attempt_spec st w :
  Z.of_nat (length w) <= gridSize -> sound gridSize st ->
  exists st' b, attempt rng gridSize st w = Returns (st', b)
    /\ sound gridSize st'
    /\ (b = false ->
          grid st' = grid st /\ placedWords st' = placedWords st)
    /\ (b = true -> exists pth,
          placedWords st' = placedWords st ++ [{| word := w; path := pth |}]).
Proof.
  intros Hlen [Hrows Hcons].
  destruct (anchor_spec rng gridSize (draws st) (Z.of_nat (length w)))
    as (d & x & y & Ha & Hd & Hys & _); [lia|].
  rewrite (attempt_unfold _ _ _ _ _ Ha).
  destruct (canPlaceFrom_spec (grid st) (placedWords st) d x y w 0)
    as (b & -> & Hb).
  { intros j Hj. apply Hrows, Hys. lia. }
  cbn [mbind outcome_bind JS.bind]. destruct b; cycle 1.
  { eexists _, false. split; [done|]. repeat split; try done. }
  destruct (writeFrom_spec gridSize (grid st) d x y w 0 [] Hd Hrows)
    as (g' & -> & Hrows' & Hin & Hout).
  { intros j Hj. apply Hys. lia. }
  cbn [mbind outcome_bind JS.bind fst snd app].
  eexists _, true. split; [done|]. split; [|split; [done|eauto]].
  split; [done|]. intros pw i p Hpw Hp. cbn in *.
  apply elem_of_app in Hpw as [Hpw|Hpw].
  - destruct (Hcons pw i p Hpw Hp) as (c & Hc & Hl). exists c.
    split; [done|].
    destruct (decide (p ∈ cellOf d x y <$> seqZ 0 (Z.of_nat (length w))))
      as [Hmem|Hmem].
    + apply list_elem_of_lookup in Hmem as [j Hj].
      apply lookup_cells in Hj as [-> Hj].
      destruct (lookup_lt_is_Some_2 w j) as [c' Hc']; [lia|].
      rewrite (Hin j c' Hc'). rewrite (Hb eq_refl j c' Hc') in Hl; [done|].
      apply onPath_true. exists pw. split; [done|].
      by eapply list_elem_of_lookup_2.
    + rewrite Hout; [done|]. intros j Hj ->. apply Hmem.
      apply list_elem_of_lookup. exists j. apply lookup_cells.
      split; [done|lia].
  - apply list_elem_of_singleton in Hpw as ->. cbn in *.
    apply lookup_cells in Hp as [-> Hi].
    destruct (lookup_lt_is_Some_2 w i) as [c Hc]; [lia|]. eauto.
Qed.

Lemma retry_spec budget st w :
  Z.of_nat (length w) <= gridSize -> sound gridSize st ->
  exists st', retry rng gridSize budget st w = Returns st'
    /\ sound gridSize st'.
Proof.
  intros Hlen. revert st. induction budget as [|budget IH]; intros st Hst.
  - by exists st.
  - cbn [retry]. destruct (attempt_spec st w Hlen Hst)
      as (st1 & b & -> & Hst1 & _).
    cbn [mbind outcome_bind JS.bind snd fst]. destruct b; eauto.
Qed.
End Attempt.

Section Words.
Context (normalize : string -> list ascii) (rng : nat -> nat) (gridSize : Z).

Lemma placeWords_spec words st :
  sound gridSize st ->
  exists st', placeWords normalize rng gridSize st words = Returns st'
    /\ sound gridSize st'.
Proof.
  revert st. induction words as [|w words IH]; intros st Hst; cbn.
  - by exists st.
  - unfold placeWord.
    destruct (Z.ltb_spec gridSize (Z.of_nat (length (normalize w)))).
    + cbn [mbind outcome_bind JS.bind]. auto.
    + destruct (retry_spec rng gridSize 50 st (normalize w))
        as (st1 & -> & Hst1); [done..|].
      cbn [mbind outcome_bind JS.bind]. auto.
Qed.

Lemma fillerGrid_rows : hasRows gridSize (fillerGrid rng gridSize).
Proof.
  intros y Hy. unfold fillerGrid.
  assert (forall (l : list Z) (m : Grid),
    y ∈ l ->
    is_Some (foldl (fun g y =>
               <[y := fillerRow rng gridSize (Z.to_nat (y * gridSize))]> g)
               m l !! y)) as H.
  { induction l as [|k l IH]; intros m Hin; [by apply elem_of_nil in Hin|].
    cbn. destruct (decide (y ∈ l)) as [Hl|Hl]; [by apply IH|].
    apply elem_of_cons in Hin as [->|?]; [|done].
    clear IH. revert m. induction l as [|k' l IH]; intros m; cbn.
    - rewrite lookup_insert_eq. eauto.
    - apply not_elem_of_cons in Hl as [Hne Hl].
      rewrite insert_insert_ne by done. by apply IH. }
  apply H, elem_of_seqZ. lia.
Qed.

Lemma generateWordSearch_spec words :
  exists st, generateWordSearch normalize rng gridSize words = Returns st
    /\ sound gridSize st.
Proof.
  apply placeWords_spec. split; [apply fillerGrid_rows|].
  intros pw i p Hpw. by apply elem_of_nil in Hpw.
Qed.
End Words.

End WordSearchFacts.

(** ** The crossword *)

Module CrosswordFacts.
Import Crossword JSFacts.

(** *** Arrays *)

Lemma arrayLength_dense {A} (m : gmap Z A) n :
  0 <= n -> (forall k, is_Some (m !! k) <-> 0 <= k < n) ->
  arrayLength m = n.
Proof.
  intros Hn Hdom.
  assert (0 <= arrayLength m
          /\ (forall k, is_Some (m !! k) -> k + 1 <= arrayLength m)
          /\ (arrayLength m = 0
              \/ exists k, is_Some (m !! k) /\ arrayLength m = k + 1)) as H.
  { unfold arrayLength.
    apply (map_fold_weak_ind (fun r (m : gmap Z A) =>
      0 <= r /\ (forall k, is_Some (m !! k) -> k + 1 <= r)
      /\ (r = 0 \/ exists k, is_Some (m !! k) /\ r = k + 1))).
    - split; [done|]. split; [|by left].
      intros k. rewrite lookup_empty. by intros [? ?].
    - intros i x m' r Hi (Hr & Hub & Hmax). split; [lia|]. split.
      + intros k. destruct (decide (k = i)) as [->|Hne].
        * lia.
        * rewrite lookup_insert_ne by done. intros Hk%Hub. lia.
      + destruct (Z.max_spec r (i + 1)) as [[Hlt ->]|[Hge ->]].
        * right. exists i. by rewrite lookup_insert_eq.
        * destruct Hmax as [->|(k & Hk & ->)]; [by left|].
          right. exists k. split; [|done].
          rewrite lookup_insert_ne; [done|]. intros <-.
          rewrite Hi in Hk. by destruct Hk. }
  destruct H as (H0 & Hub & Hmax).
  destruct (decide (n = 0)) as [->|Hpos].
  - destruct Hmax as [|(k & Hk%Hdom & _)]; [done|lia].
  - assert (n <= arrayLength m).
    { specialize (Hub (n - 1)). rewrite Hdom in Hub. lia. }
    destruct Hmax as [?|(k & Hk%Hdom & ?)]; lia.
Qed.

Lemma lookup_filled {A} n (v : A) k :
  filled n v !! k = if decide (0 <= k < n) then Some v else None.
Proof.
  unfold filled.
  assert (forall (l : list Z) (m : gmap Z A),
    foldl (fun m k => <[k := v]> m) m l !! k
    = if decide (k ∈ l) then Some v else m !! k) as H.
  { induction l as [|x l IH]; intros m; cbn.
    - rewrite decide_False; [done|]. apply not_elem_of_nil.
    - rewrite IH. destruct (decide (k ∈ l)) as [Hin|Hin].
      + rewrite decide_True; [done|]. by right.
      + destruct (decide (k = x)) as [->|Hne].
        * rewrite lookup_insert_eq, decide_True; [done|]. by left.
        * rewrite lookup_insert_ne, decide_False; [done| |done].
          intros Hk. apply elem_of_cons in Hk as [?|?]; done. }
  rewrite H, lookup_empty.
  destruct (decide (k ∈ seqZ 0 n)) as [Hin|Hin]; rewrite elem_of_seqZ in Hin.
  - rewrite decide_True; [done|lia].
  - rewrite decide_False; [done|lia].
Qed.

Lemma lookup_emptyGrid r :
  emptyGrid !! r
  = if decide (0 <= r < 15) then Some (filled 15 "_"%char) else None.
Proof. unfold emptyGrid, gridSize. apply lookup_filled. Qed.

Lemma look_emptyGrid c r :
  look emptyGrid (c, r)
  = if decide (0 <= r < 15 /\ 0 <= c < 15) then Some "_"%char else None.
Proof.
  unfold look. cbn. rewrite lookup_emptyGrid.
  destruct (decide (0 <= r < 15)).
  - rewrite lookup_filled. destruct (decide (0 <= c < 15)).
    + by rewrite decide_True.
    + rewrite decide_False; [done|]. tauto.
  - rewrite decide_False; [done|]. tauto.
Qed.

Lemma lookup_elements {A} (m : gmap Z A) k :
  elements m !! k = if decide (0 <= k) then m !! k else None.
Proof.
  unfold elements. rewrite map_lookup_filter.
  destruct (m !! k) as [x|]; cbn; [|by case_decide].
  rewrite option_guard_decide. by case_decide.
Qed.

Lemma look_toDisplay g c r :
  look (toDisplay g) (c, r)
  = if decide (0 <= r /\ 0 <= c) then display <$> look g (c, r) else None.
Proof.
  unfold look, toDisplay. cbn. rewrite lookup_fmap, lookup_elements.
  destruct (decide (0 <= r)) as [Hr|Hr]; cycle 1.
  { cbn. rewrite decide_False; [done|]. tauto. }
  destruct (g !! r) as [rw|]; cbn; [|by case_decide].
  rewrite lookup_fmap, lookup_elements.
  destruct (decide (0 <= c)).
  - by rewrite decide_True.
  - rewrite decide_False; [done|]. tauto.
Qed.

Lemma lookup_toDisplay_is_Some g r :
  is_Some (toDisplay g !! r) <-> 0 <= r /\ is_Some (g !! r).
Proof.
  unfold toDisplay. rewrite lookup_fmap, lookup_elements.
  destruct (decide (0 <= r)); cbn.
  - rewrite fmap_is_Some. tauto.
  - split; [by intros [? ?]|tauto].
Qed.

(** *** [canPlaceWord] *)

Lemma bind_reject (m : outcome bool) (k : outcome bool) :
  (b ← m; if (b : bool) then Returns false else k) = Returns true ->
  m = Returns false /\ k = Returns true.
Proof. destruct m as [[]| |]; cbn; try done. Qed.

Lemma peek_look g r c cell :
  peek g r c = Returns cell -> look g (c, r) = cell.
Proof.
  unfold peek, look. cbn. destruct (g !! r); [|done]. by intros [= <-].
Qed.

Lemma head_cell_ok (cell : option ascii) ch :
  bool_decide (cell <> Some "_"%char) && bool_decide (cell <> Some ch) = false ->
  cell = Some "_"%char \/ cell = Some ch.
Proof.
  intros H. apply andb_false_iff in H as [H|H];
    apply bool_decide_eq_false in H;
    [left|right]; by destruct (decide (cell = Some "_"%char));
    destruct (decide (cell = Some ch)).
Qed.

Ltac canPlace_sound IH Hrun :=
  match type of Hrun with
  | (_ ← ?m; _) = _ =>
      let cell := fresh "cell" in
      let Hpeek := fresh "Hpeek" in
      destruct m as [cell| |] eqn:Hpeek; try done;
      cbn [mbind outcome_bind JS.bind] in Hrun;
      apply peek_look in Hpeek
  end;
  match type of Hrun with
  | (if ?b1 then _ else if ?b2 then _ else _) = _ =>
      let H1 := fresh "H1" in
      let H2 := fresh "H2" in
      destruct b1 eqn:H1; [done|];
      apply head_cell_ok in H1;
      destruct b2 eqn:H2;
      [|repeat (apply bind_reject in Hrun as [_ Hrun])]
  end.

Lemma canPlaceDown_sound g size len r c rest i :
  canPlaceDown g size len r c i rest = Returns true ->
  forall j ch, rest !! j = Some ch ->
    look g (c, r + i + Z.of_nat j) = Some "_"%char
    \/ look g (c, r + i + Z.of_nat j) = Some ch.
Proof.
  revert i. induction rest as [|ch0 rest IH]; intros i Hrun j ch Hj;
    [done|]. cbn [canPlaceDown] in Hrun. canPlace_sound IH Hrun.
  all: destruct j as [|j]; cbn in Hj;
    [injection Hj as <-; by rewrite Z.add_0_r, Hpeek|].
  all: replace (r + i + Z.of_nat (S j)) with (r + (i + 1) + Z.of_nat j) by lia;
    by eapply IH.
Qed.

Lemma canPlaceAcross_sound g size len r c rest i :
  canPlaceAcross g size len r c i rest = Returns true ->
  forall j ch, rest !! j = Some ch ->
    look g (c + i + Z.of_nat j, r) = Some "_"%char
    \/ look g (c + i + Z.of_nat j, r) = Some ch.
Proof.
  revert i. induction rest as [|ch0 rest IH]; intros i Hrun j ch Hj;
    [done|]. cbn [canPlaceAcross] in Hrun. canPlace_sound IH Hrun.
  all: destruct j as [|j]; cbn in Hj;
    [injection Hj as <-; by rewrite Z.add_0_r, Hpeek|].
  all: replace (c + i + Z.of_nat (S j)) with (c + (i + 1) + Z.of_nat j) by lia;
    by eapply IH.
Qed.

(** An accepted candidate lies inside the grid along its own direction,
    and each of its cells is blank or already holds the letter it would
    receive. *)
Lemma canPlaceWord_true g w r c vert :
  canPlaceWord g w r c vert = Returns true ->
  (if vert then 0 <= r /\ r + Z.of_nat (length (letters w)) <= arrayLength g
   else 0 <= c /\ c + Z.of_nat (length (letters w)) <= arrayLength g)
  /\ forall i ch, letters w !! i = Some ch ->
       let rc := cellAt r c vert (Z.of_nat i) in
       look g (rc.2, rc.1) = Some "_"%char \/ look g (rc.2, rc.1) = Some ch.
Proof.
  unfold canPlaceWord, cellAt. destruct vert.
  - destruct (Z.ltb_spec r 0); [done|].
    destruct (Z.ltb_spec (arrayLength g) (r + Z.of_nat (length (letters w))));
      [done|]. cbn [orb]. intros Hrun. split; [lia|]. intros i ch Hi. cbn.
    pose proof (canPlaceDown_sound _ _ _ _ _ _ _ Hrun i ch Hi) as H'.
    by rewrite Z.add_0_r in H'.
  - destruct (Z.ltb_spec c 0); [done|].
    destruct (Z.ltb_spec (arrayLength g) (c + Z.of_nat (length (letters w))));
      [done|]. cbn [orb]. intros Hrun. split; [lia|]. intros i ch Hi. cbn.
    pose proof (canPlaceAcross_sound _ _ _ _ _ _ _ Hrun i ch Hi) as H'.
    by rewrite Z.add_0_r in H'.
Qed.

Lemma occupied_total g guard r c :
  (guard = true -> is_Some (g !! r)) ->
  exists b, occupied g guard r c = Returns b.
Proof.
  unfold occupied, peek. destruct guard; [|eauto].
  intros H. destruct (H eq_refl) as [rw ->]. cbn. eauto.
Qed.

Ltac occupied_step Hrows :=
  match goal with
  | |- exists _, (_ ← occupied ?g ?guard ?r ?c; _) = _ =>
      let b := fresh "b" in
      let Hb := fresh "Hb" in
      destruct (occupied_total g guard r c) as [b Hb];
      [ rewrite ?andb_true_iff, ?Z.ltb_lt, ?Z.eqb_eq; intros;
        apply Hrows; lia
      | rewrite Hb; cbn [mbind outcome_bind JS.bind];
        destruct b; [eauto|] ]
  end.

Lemma canPlaceDown_total g size len r c rest i :
  (forall k, 0 <= k < size -> is_Some (g !! k)) ->
  0 <= r -> 0 <= i -> 0 <= len ->
  r + i + Z.of_nat (length rest) <= size ->
  exists b, canPlaceDown g size len r c i rest = Returns b.
Proof.
  intros Hrows Hr. revert i.
  induction rest as [|ch rest IH]; intros i Hi Hlen Hfit; cbn [canPlaceDown].
  - eauto.
  - cbn [length] in Hfit. unfold peek at 1.
    destruct (Hrows (r + i)) as [rw ->]; [lia|].
    cbn [mbind outcome_bind JS.bind].
    destruct (_ && _); [eauto|].
    destruct (bool_decide _); [apply IH; lia|].
    do 4 occupied_step Hrows. apply IH; lia.
Qed.

Lemma canPlaceAcross_total g size len r c rest i :
  (forall k, 0 <= k < size -> is_Some (g !! k)) ->
  0 <= r < size ->
  exists b, canPlaceAcross g size len r c i rest = Returns b.
Proof.
  intros Hrows Hr. revert i.
  induction rest as [|ch rest IH]; intros i; cbn [canPlaceAcross].
  - eauto.
  - unfold peek at 1. destruct (Hrows r) as [rw ->]; [lia|].
    cbn [mbind outcome_bind JS.bind].
    destruct (_ && _); [eauto|].
    destruct (bool_decide _); [apply IH; lia|].
    do 4 occupied_step Hrows. apply IH; lia.
Qed.

Lemma arrayLength_rows g : hasRows g -> arrayLength g = 15.
Proof. intros H. by apply arrayLength_dense. Qed.

Lemma canPlaceWord_total g w r c vert :
  hasRows g -> (vert = false -> 0 <= r < 15) ->
  exists b, canPlaceWord g w r c vert = Returns b.
Proof.
  intros Hrows Hr. unfold canPlaceWord. rewrite (arrayLength_rows g Hrows).
  destruct vert.
  - destruct (Z.ltb_spec r 0); [eauto|].
    destruct (Z.ltb_spec 15 (r + Z.of_nat (length (letters w)))); [eauto|].
    cbn [orb]. apply canPlaceDown_total; try lia. intros k Hk. by apply Hrows.
  - destruct (_ || _); [eauto|].
    apply canPlaceAcross_total; [|auto]. intros k Hk. by apply Hrows.
Qed.

(** *** Writing a word *)

Lemma cellAt_inj r c vert i j : cellAt r c vert i = cellAt r c vert j -> i = j.
Proof. unfold cellAt. destruct vert; intros [=]; lia. Qed.

Lemma writeLetters_spec g r c vert rest i :
  (forall j, (j < length rest)%nat ->
             is_Some (g !! (cellAt r c vert (i + Z.of_nat j)).1)) ->
  exists g', writeLetters g r c vert i rest = Returns g'
    /\ (forall k, is_Some (g' !! k) <-> is_Some (g !! k))
    /\ (forall j ch, rest !! j = Some ch ->
          cellValue g' (cellAt r c vert (i + Z.of_nat j)) = Some ch)
    /\ (forall rc, (forall j, (j < length rest)%nat ->
                            rc <> cellAt r c vert (i + Z.of_nat j)) ->
          cellValue g' rc = cellValue g rc).
Proof.
  revert g i. induction rest as [|ch rest IH]; intros g i Hrows;
    cbn [writeLetters].
  - exists g. repeat split; done.
  - set (rc0 := cellAt r c vert i).
    destruct (store_look g (rc0.2, rc0.1) ch) as [g1 Hg1].
    { specialize (Hrows O). rewrite Z.add_0_r in Hrows. apply Hrows.
      cbn. lia. }
    rewrite Hg1. cbn [mbind outcome_bind JS.bind].
    destruct (IH g1 (i + 1)) as (g' & -> & Hr & Hin & Hout).
    { intros j Hj. apply (store_rows _ _ _ _ _ Hg1).
      replace (i + 1 + Z.of_nat j) with (i + Z.of_nat (S j)) by lia.
      apply Hrows. cbn. lia. }
    exists g'. split; [done|]. split; [|split].
    + intros k. rewrite Hr. apply (store_rows _ _ _ _ _ Hg1).
    + intros [|j] ch' Hj; cbn in Hj.
      * injection Hj as <-. rewrite Z.add_0_r. rewrite Hout.
        -- unfold cellValue. fold rc0.
           by rewrite (look_store _ _ _ _ _ Hg1), decide_True.
        -- intros j Hj Heq%cellAt_inj. lia.
      * replace (i + Z.of_nat (S j)) with (i + 1 + Z.of_nat j) by lia. auto.
    + intros rc Hrc. rewrite Hout.
      * unfold cellValue. rewrite (look_store _ _ _ _ _ Hg1), decide_False;
          [done|].
        specialize (Hrc O ltac:(cbn; lia)). rewrite Z.add_0_r in Hrc.
        fold rc0 in Hrc. intros [= ? ?]. apply Hrc. by destruct rc, rc0; cbn in *; subst.
      * intros j Hj. replace (i + 1 + Z.of_nat j) with (i + Z.of_nat (S j))
          by lia. apply Hrc. cbn. lia.
Qed.

(** *** The scan for an intersection *)

Lemma scanLetters_spec g w i ltr pw rest j0 :
  hasRows g ->
  (vertical pw = true -> forall j, (j < length rest)%nat ->
     0 <= row pw + (j0 + Z.of_nat j) < 15) ->
  exists r, scanLetters g w i ltr pw j0 rest = Returns r
    /\ forall e, r = Some e ->
         exists j, rest !! j = Some ltr
                   /\ crosses g w i pw (j0 + Z.of_nat j) e.
Proof.
  intros Hrows. revert j0.
  induction rest as [|ch rest IH]; intros j0 Hpw; cbn [scanLetters].
  - exists None. split; [done|]. by intros e [=].
  - assert (exists r, scanLetters g w i ltr pw (j0 + 1) rest = Returns r
              /\ forall e, r = Some e ->
                   exists j, (ch :: rest) !! j = Some ltr
                             /\ crosses g w i pw (j0 + Z.of_nat j) e)
      as Hnext.
    { destruct (IH (j0 + 1)) as (r & Hr & Hspec).
      { intros Hv j Hj. replace (j0 + 1 + Z.of_nat j)
          with (j0 + Z.of_nat (S j)) by lia. apply Hpw; [done|cbn; lia]. }
      exists r. split; [done|]. intros e He.
      destruct (Hspec e He) as (j & Hj & Hc). exists (S j). split; [done|].
      by replace (j0 + Z.of_nat (S j)) with (j0 + 1 + Z.of_nat j) by lia. }
    case_decide as Hch; [|done]. subst ch.
    set (newRow := if vertical pw then row pw + j0 else row pw - i).
    set (newCol := if vertical pw then col pw - i else col pw + j0).
    destruct (canPlaceWord_total g w newRow newCol (negb (vertical pw)) Hrows)
      as [ok Hok].
    { unfold newRow. destruct (vertical pw); [|done]. intros _.
      specialize (Hpw eq_refl O ltac:(cbn; lia)). lia. }
    rewrite Hok. cbn [mbind outcome_bind JS.bind]. destruct ok; [|done].
    eexists. split; [done|]. intros e [= <-]. exists O. split; [done|].
    rewrite Z.add_0_r. by repeat split.
Qed.

Lemma scanPlaced_spec g w i ltr pws :
  hasRows g ->
  (forall pw, pw ∈ pws -> vertical pw = true ->
     0 <= row pw /\ row pw + Z.of_nat (length (letters (text pw))) <= 15) ->
  exists r, scanPlaced g w i ltr pws = Returns r
    /\ forall e, r = Some e ->
         exists pw j, pw ∈ pws /\ letters (text pw) !! j = Some ltr
                      /\ crosses g w i pw (Z.of_nat j) e.
Proof.
  intros Hrows. induction pws as [|pw pws IH]; intros Hdown; cbn [scanPlaced].
  - exists None. split; [done|]. by intros e [=].
  - destruct (scanLetters_spec g w i ltr pw (letters (text pw)) 0 Hrows)
      as (r & -> & Hspec).
    { intros Hv j Hj. destruct (Hdown pw) as [? ?]; [by left|done|]. lia. }
    cbn [mbind outcome_bind JS.bind]. destruct r as [e|].
    + eexists. split; [done|]. intros e' [= <-].
      destruct (Hspec e eq_refl) as (j & Hj & Hc).
      exists pw, j. split; [by left|]. by rewrite Z.add_0_l in Hc.
    + destruct IH as (r & -> & Hspec').
      { intros pw' Hpw'. apply Hdown. by right. }
      exists r. split; [done|]. intros e He.
      destruct (Hspec' e He) as (pw' & j & Hpw' & Hj & Hc).
      exists pw', j. split; [by right|done].
Qed.

Lemma scanWord_spec g w placed rest i0 :
  hasRows g ->
  (forall pw, pw ∈ placed -> vertical pw = true ->
     0 <= row pw /\ row pw + Z.of_nat (length (letters (text pw))) <= 15) ->
  exists r, scanWord g w placed i0 rest = Returns r
    /\ forall e, r = Some e ->
         exists k ltr pw j,
           rest !! k = Some ltr /\ pw ∈ placed
           /\ letters (text pw) !! j = Some ltr
           /\ crosses g w (i0 + Z.of_nat k) pw (Z.of_nat j) e.
Proof.
  intros Hrows Hdown. revert i0.
  induction rest as [|ltr rest IH]; intros i0; cbn [scanWord].
  - exists None. split; [done|]. by intros e [=].
  - destruct (scanPlaced_spec g w i0 ltr placed Hrows Hdown)
      as (r & -> & Hspec).
    cbn [mbind outcome_bind JS.bind]. destruct r as [e|].
    + eexists. split; [done|]. intros e' [= <-].
      destruct (Hspec e eq_refl) as (pw & j & Hpw & Hj & Hc).
      exists O, ltr, pw, j. rewrite Z.add_0_r. by split_and!.
    + destruct (IH (i0 + 1)) as (r & -> & Hspec').
      exists r. split; [done|]. intros e He.
      destruct (Hspec' e He) as (k & ltr' & pw & j & Hk & Hpw & Hj & Hc).
      exists (S k), ltr', pw, j.
      replace (i0 + Z.of_nat (S k)) with (i0 + 1 + Z.of_nat k) by lia.
      by split_and!.
Qed.

Lemma crosses_fits g placed w i ltr pw j e :
  letters w !! i = Some ltr -> pw ∈ placed ->
  letters (text pw) !! j = Some ltr ->
  crosses g w (Z.of_nat i) pw (Z.of_nat j) e ->
  fits g placed w e.
Proof.
  intros Hi Hpw Hj (Ht & Hv & Hr & Hc & Hok). split; [done|]. split; [done|].
  exists pw, i, j, ltr. repeat split; try done.
  unfold cellOfEntry, cellAt. rewrite Hv, Hr, Hc.
  destruct (vertical pw); cbn; f_equal; lia.
Qed.

(** *** Placing one candidate *)

Lemma written_or_kept g g' r c vert (ls : list ascii) :
  (forall j ch, ls !! j = Some ch ->
     cellValue g' (cellAt r c vert (0 + Z.of_nat j)) = Some ch) ->
  (forall rc, (forall j, (j < length ls)%nat ->
                         rc <> cellAt r c vert (0 + Z.of_nat j)) ->
     cellValue g' rc = cellValue g rc) ->
  forall rc,
    (exists j ch, ls !! j = Some ch /\ rc = cellAt r c vert (Z.of_nat j)
                  /\ cellValue g' rc = Some ch)
    \/ (cellValue g' rc = cellValue g rc
        /\ forall j, (j < length ls)%nat -> rc <> cellAt r c vert (Z.of_nat j)).
Proof.
  intros Hin Hout rc.
  destruct (decide (rc ∈ (fun j => cellAt r c vert (Z.of_nat j))
                          <$> seq 0 (length ls))) as [Hmem|Hmem].
  - left. apply list_elem_of_fmap in Hmem as (j & -> & Hj).
    apply elem_of_seq in Hj.
    destruct (lookup_lt_is_Some_2 ls j) as [ch Hch]; [lia|].
    exists j, ch. split; [done|]. split; [done|].
    by rewrite <- (Hin j ch Hch), Z.add_0_l.
  - assert (forall j, (j < length ls)%nat ->
                      rc <> cellAt r c vert (Z.of_nat j)) as Hne.
    { intros j Hj ->. apply Hmem, list_elem_of_fmap. exists j.
      split; [done|]. apply elem_of_seq. lia. }
    right. split; [|done]. apply Hout. intros j Hj.
    rewrite Z.add_0_l. auto.
Qed.

Lemma tryPlace_spec gp w :
  wellFormed gp ->
  exists gp', tryPlace gp w = Returns gp' /\ wellFormed gp'
    /\ (gp' = gp
        \/ exists e, gp'.2 = gp.2 ++ [e] /\ fits gp.1 gp.2 w e
             /\ (forall i ch, letters w !! i = Some ch ->
                   cellValue gp'.1 (cellOfEntry e (Z.of_nat i)) = Some ch)
             /\ (forall rc,
                   (forall i, (i < length (letters w))%nat ->
                              rc <> cellOfEntry e (Z.of_nat i)) ->
                   cellValue gp'.1 rc = cellValue gp.1 rc)).
Proof.
  intros Hwf. pose proof Hwf as [Hrows Hdown Hacross Hletters].
  destruct gp as [g placed]. cbn [fst snd] in *. unfold tryPlace. cbn [fst snd].
  destruct (scanWord_spec g w placed (letters w) 0 Hrows Hdown)
    as (r & -> & Hspec).
  cbn [mbind outcome_bind JS.bind]. destruct r as [e|]; cycle 1.
  { exists (g, placed). split; [done|]. split; [done|]. by left. }
  destruct (Hspec e eq_refl) as (k & ltr & pw & j & Hk & Hpw & Hj & Hc).
  rewrite Z.add_0_l in Hc.
  pose proof (crosses_fits g placed w k ltr pw j e Hk Hpw Hj Hc) as Hfits.
  destruct Hc as (Ht & Hv & Hr & Hcol & Hok).
  destruct (canPlaceWord_true _ _ _ _ _ Hok) as [Hrange Hcells].
  rewrite (arrayLength_rows g Hrows) in Hrange.
  apply lookup_lt_Some in Hj as Hjlt.
  assert (vertical e = false -> 0 <= row e < 15) as Hrow.
  { intros He. rewrite He in Hv. rewrite Hr.
    destruct (vertical pw) eqn:Hvp; [|done].
    destruct (Hdown pw Hpw Hvp). unfold gridSize in *. lia. }
  unfold placeWord.
  destruct (writeLetters_spec g (row e) (col e) (vertical e) (letters w) 0)
    as (g' & -> & Hr' & Hin & Hout).
  { intros i Hi. apply Hrows. unfold cellAt, gridSize.
    destruct (vertical e); cbn; [lia|auto]. }
  cbn [mbind outcome_bind JS.bind].
  pose proof (written_or_kept g g' _ _ _ _ Hin Hout) as Hwk.
  exists (g', placed ++ [e]). split; [done|]. split; [|right; exists e].
  - split; cbn [fst snd].
    + intros r. rewrite Hr'. apply Hrows.
    + intros e' [He'| ->%list_elem_of_singleton]%elem_of_app Hve'; [auto|].
      rewrite Hve' in Hrange. rewrite Ht. unfold gridSize. lia.
    + intros e' [He'| ->%list_elem_of_singleton]%elem_of_app Hve'; auto.
    + intros e' i ch [He'| ->%list_elem_of_singleton]%elem_of_app Hi Hch.
      * specialize (Hletters e' i ch He' Hi Hch).
        destruct (Hwk (cellOfEntry e' (Z.of_nat i)))
          as [(i' & ch' & Hi' & Heq & Hval)|[-> _]]; [|done].
        rewrite Hval. rewrite Heq in Hletters.
        destruct (Hcells i' ch' Hi') as [Hblank|Hsame];
          unfold cellValue in Hletters; congruence.
      * rewrite Ht in Hi. rewrite <- (Hin i ch Hi), Z.add_0_l. done.
  - cbn [fst snd]. split; [done|]. split; [done|]. split.
    + intros i ch Hi. rewrite <- (Hin i ch Hi), Z.add_0_l. done.
    + intros rc Hrc. apply Hout. intros i Hi. rewrite Z.add_0_l.
      by apply Hrc.
Qed.

Lemma tryPlace_tidy gp w gp' :
  wellFormed gp -> tidy gp -> "_"%char ∉ letters w ->
  tryPlace gp w = Returns gp' -> tidy gp'.
Proof.
  intros Hwf Htidy Hw Hrun.
  destruct (tryPlace_spec gp w Hwf) as (gp'' & Hrun' & _ & Hcase).
  rewrite Hrun in Hrun'. injection Hrun' as <-.
  destruct Hcase as [->|(e & Hplaced & Hfits & Hin & Hout)]; [done|].
  destruct Htidy as [Hcells Hinside Hanchor Hcovered Hletters].
  destruct Hfits as (Ht & Hok & pw & i & j & ltr & Hpw & Hi & Hj & Hv & Hx).
  destruct (canPlaceWord_true _ _ _ _ _ Hok) as [Hrange _].
  rewrite (arrayLength_rows _ (wf_rows _ Hwf)) in Hrange.
  apply lookup_lt_Some in Hi as Hilt. apply lookup_lt_Some in Hj as Hjlt.
  destruct (Hinside pw (Z.of_nat j) Hpw ltac:(lia)) as [Hpr Hpc].
  rewrite <- Hx in Hpr, Hpc.
  assert (forall k, 0 <= k < Z.of_nat (length (letters w)) ->
            0 <= (cellOfEntry e k).1 < gridSize
            /\ 0 <= (cellOfEntry e k).2 < gridSize) as Hein.
  { intros k Hk. unfold cellOfEntry, cellAt, gridSize in *.
    destruct (vertical e); cbn in *; lia. }
  assert (forall rc,
    (exists k ch, letters w !! k = Some ch /\ rc = cellOfEntry e (Z.of_nat k)
                  /\ cellValue gp'.1 rc = Some ch)
    \/ (cellValue gp'.1 rc = cellValue gp.1 rc)) as Hwk.
  { intros rc.
    destruct (written_or_kept gp.1 gp'.1 (row e) (col e) (vertical e)
                (letters w)) with (rc := rc) as [?|[? _]]; auto. }
  split.
  - intros r c Hr. destruct (Hwk (r, c)) as [(k & ch & Hk & Heq & ->)| ->];
      [|by apply Hcells].
    apply lookup_lt_Some in Hk. destruct (Hein (Z.of_nat k)) as [_ Hc]; [lia|].
    rewrite <- Heq in Hc. cbn in Hc. split; [done|eauto].
  - intros e' k. rewrite Hplaced.
    intros [He'| ->%list_elem_of_singleton]%elem_of_app Hk; [auto|].
    apply Hein. by rewrite <- Ht.
  - intros e'. rewrite Hplaced.
    intros [He'| ->%list_elem_of_singleton]%elem_of_app; [auto|].
    destruct (Hein 0) as [Hr0 Hc0]; [lia|].
    unfold cellOfEntry, cellAt in Hr0, Hc0.
    destruct (vertical e); cbn in *; rewrite ?Z.add_0_r in *; done.
  - intros r c ch Hval Hch.
    destruct (Hwk (r, c)) as [(k & ch' & Hk & Heq & Hval')|Hkept].
    + exists e. rewrite Hplaced. split; [apply elem_of_app; right; by left|].
      exists (Z.of_nat k). apply lookup_lt_Some in Hk. rewrite Ht.
      split; [lia|done].
    + rewrite Hkept in Hval. destruct (Hcovered r c ch Hval Hch) as (e' & ? & ?).
      exists e'. rewrite Hplaced. split; [|done]. apply elem_of_app. by left.
  - intros e'. rewrite Hplaced.
    intros [He'| ->%list_elem_of_singleton]%elem_of_app; [auto|].
    by rewrite Ht.
Qed.

(** *** The seed *)

Lemma seed_spec firstWord :
  exists g, seed firstWord = Returns (g, [seedEntry firstWord])
    /\ wellFormed (g, [seedEntry firstWord])
    /\ (Z.of_nat (length (letters firstWord)) <= 15 ->
        "_"%char ∉ letters firstWord -> tidy (g, [seedEntry firstWord])).
Proof.
  set (entry := seedEntry firstWord). unfold seed.
  change (gridSize / 2) with 7.
  change ((gridSize - Z.of_nat (length (letters firstWord))) / 2) with (col entry).
  destruct (writeLetters_spec emptyGrid 7 (col entry) false
              (letters firstWord) 0) as (g & -> & Hr & Hin & Hout).
  { intros j Hj. cbn. by rewrite lookup_emptyGrid, decide_True. }
  cbn [mbind outcome_bind JS.bind]. exists g. split; [done|].
  pose proof (written_or_kept emptyGrid g _ _ _ _ Hin Hout) as Hwk.
  split; [split; cbn [fst snd]|].
  - intros r. rewrite Hr, lookup_emptyGrid. unfold gridSize.
    case_decide; split; eauto; try done.
  - intros e ->%list_elem_of_singleton. done.
  - intros e ->%list_elem_of_singleton. done.
  - intros e i ch ->%list_elem_of_singleton Hi _. cbn in Hi.
    rewrite <- (Hin i ch Hi), Z.add_0_l. done.
  - intros Hlen Hno.
    assert (0 <= col entry < 15
            /\ col entry + Z.of_nat (length (letters firstWord)) <= 15)
      as Hcol.
    { cbn. split; [split; [apply Z.div_pos; lia|]|].
      - apply Z.div_lt_upper_bound; lia.
      - pose proof (Z.mul_div_le (15 - Z.of_nat (length (letters firstWord))) 2).
        lia. }
    assert (forall k, (k < length (letters firstWord))%nat ->
              0 <= (cellAt 7 (col entry) false (Z.of_nat k)).2 < 15) as Hspan.
    { intros k Hk. cbn [cellAt snd]. lia. }
    split; cbn [fst snd]; unfold gridSize.
    + intros r c Hr'. destruct (Hwk (r, c)) as [(k & ch & Hk & Heq & ->)|[-> _]].
      * apply lookup_lt_Some, Hspan in Hk. rewrite <- Heq in Hk. cbn in Hk.
        split; [done|eauto].
      * unfold cellValue. cbn. rewrite look_emptyGrid.
        case_decide; split; eauto; try tauto. by intros [? ?].
    + intros e i ->%list_elem_of_singleton Hi. unfold cellOfEntry.
      subst entry. cbn [seedEntry row col vertical text cellAt fst snd] in *.
      lia.
    + intros e ->%list_elem_of_singleton. subst entry.
      cbn [seedEntry row col] in *. lia.
    + intros r c ch Hval Hch. exists entry. split; [by left|].
      destruct (Hwk (r, c)) as [(k & ch' & Hk & Heq & _)|[Hkept _]].
      * exists (Z.of_nat k). apply lookup_lt_Some in Hk. subst entry.
        split; [cbn [seedEntry text]; lia|done].
      * rewrite Hkept in Hval. unfold cellValue in Hval. cbn in Hval.
        rewrite look_emptyGrid in Hval. case_decide; congruence.
    + intros e ->%list_elem_of_singleton. done.
Qed.

(** *** The placement loop *)

Lemma tryPlaceAll_spec ws gp :
  wellFormed gp ->
  exists gp', tryPlaceAll gp ws = Returns gp' /\ wellFormed gp'
    /\ (exists more, gp'.2 = gp.2 ++ more)
    /\ (tidy gp -> Forall (fun w => "_"%char ∉ letters w) ws -> tidy gp').
Proof.
  revert gp. induction ws as [|w ws IH]; intros gp Hwf; cbn [tryPlaceAll].
  - exists gp. split; [done|]. split; [done|]. split; [|done].
    exists []. by rewrite app_nil_r.
  - destruct (tryPlace_spec gp w Hwf) as (gp1 & Hrun & Hwf1 & Hcase).
    rewrite Hrun. cbn [mbind outcome_bind JS.bind].
    destruct (IH gp1 Hwf1) as (gp' & -> & Hwf' & [more Hmore] & Htidy).
    exists gp'. split; [done|]. split; [done|]. split.
    + destruct Hcase as [->|(e & He & _)]; [eauto|].
      rewrite Hmore, He, <- app_assoc. eauto.
    + intros Ht [Hw Hws]%Forall_cons. apply Htidy; [|done].
      by apply (tryPlace_tidy gp w).
Qed.

Lemma tryPlaceAll_snoc ws w gp :
  tryPlaceAll gp (ws ++ [w]) = (gp' ← tryPlaceAll gp ws; tryPlace gp' w).
Proof.
  revert gp. induction ws as [|w' ws IH]; intros gp; cbn.
  - by destruct (tryPlace gp w).
  - destruct (tryPlace gp w'); cbn; auto.
Qed.

Lemma layoutAfter_S n words w :
  candidates words !! n = Some w ->
  layoutAfter (S n) words = (gp ← layoutAfter n words; tryPlace gp w).
Proof.
  intros Hw. unfold layoutAfter. destruct words as [|firstWord rest].
  { unfold candidates in Hw. by rewrite drop_nil, take_nil in Hw. }
  rewrite (take_S_r _ _ _ Hw).
  destruct (seed firstWord); cbn [mbind outcome_bind JS.bind]; [|done..].
  apply tryPlaceAll_snoc.
Qed.

Lemma layoutAfter_all n words :
  (length (candidates words) <= n)%nat -> layoutAfter n words = layout words.
Proof.
  intros Hn. unfold layout, layoutAfter. destruct words as [|w ws]; [done|].
  rewrite (take_ge _ n) by done. rewrite (take_ge _ 7); [done|].
  unfold candidates. rewrite length_take. lia.
Qed.

Lemma layoutAfter_spec n firstWord rest :
  exists gp, layoutAfter n (firstWord :: rest) = Returns gp
    /\ wellFormed gp
    /\ (exists more, gp.2 = seedEntry firstWord :: more)
    /\ (Z.of_nat (length (letters firstWord)) <= 15 ->
        Forall (fun w => "_"%char ∉ letters w) (firstWord :: rest) ->
        tidy gp).
Proof.
  unfold layoutAfter.
  destruct (seed_spec firstWord) as (g & -> & Hwf & Htidy).
  cbn [mbind outcome_bind JS.bind].
  destruct (tryPlaceAll_spec (take n (candidates (firstWord :: rest)))
              (g, [seedEntry firstWord]) Hwf)
    as (gp & -> & Hwf' & [more Hmore] & Htidy').
  exists gp. split; [done|]. split; [done|]. split; [by exists more|].
  intros Hlen [Hfirst Hrest]%Forall_cons. apply Htidy'; [auto|].
  unfold candidates. cbn [drop]. by do 2 apply Forall_take.
Qed.

(** *** Numbering *)

Lemma numberWords_spec pws cw n :
  (forall e, e ∈ pws -> is_Some (look (grid cw) (col e, row e))) ->
  exists cw', numberWords cw n pws = Returns cw'
    /\ (forall r, is_Some (grid cw' !! r)
                  <-> is_Some (grid cw !! r))
    /\ (forall p, match look (grid cw) p with
                  | Some d => exists d', look (grid cw') p = Some d'
                                         /\ sameFace d d'
                  | None => look (grid cw') p = None
                  end).
Proof.
  revert cw n. induction pws as [|pw pws IH]; intros cw n Hcells;
    cbn [numberWords].
  - exists cw. split; [done|]. split; [done|]. intros p.
    destruct (look (grid cw) p) as [d|]; [|done]. by exists d.
  - destruct (Hcells pw) as [d0 Hd0]; [by left|].
    destruct (update_look _ _ (setNumber n) _ Hd0) as [dg Hdg].
    rewrite Hdg. cbn [mbind outcome_bind JS.bind].
    set (cw1 := if vertical pw then _ else _).
    assert (grid cw1 = dg) as Hcw1 by (unfold cw1; by destruct (vertical pw)).
    destruct (IH cw1 (n + 1)) as (cw' & -> & Hrows & Hfaces).
    { intros e He. rewrite Hcw1, (look_update _ _ _ _ _ Hdg).
      case_decide; [rewrite Hd0; cbn; eauto|]. apply Hcells. by right. }
    exists cw'. split; [done|]. split.
    + intros r. rewrite Hrows, Hcw1. apply (update_rows _ _ _ _ _ Hdg).
    + intros p. specialize (Hfaces p).
      rewrite Hcw1, (look_update _ _ _ _ _ Hdg) in Hfaces.
      destruct (decide (p = (col pw, row pw))) as [->|Hne].
      * rewrite Hd0 in *. cbn in Hfaces.
        destruct Hfaces as (d' & Hd' & Hl & Hb). by exists d'.
      * done.
Qed.

Lemma numberWords_undefined pw pws cw n :
  look (grid cw) (col pw, row pw) = None ->
  numberWords cw n (pw :: pws) = Throws TypeError.
Proof. intros H. cbn [numberWords]. by rewrite update_undefined. Qed.

(** *** Results about the whole generator *)

Lemma generateCrossword_too_long firstWord rest :
  15 < Z.of_nat (length (letters firstWord)) ->
  generateCrossword (firstWord :: rest) = Throws TypeError.
Proof.
  intros Hlen. unfold generateCrossword, layout.
  destruct (layoutAfter_spec 7 firstWord rest)
    as ([g placed] & -> & _ & [more Hmore] & _).
  cbn [mbind outcome_bind JS.bind fst snd] in *. subst placed.
  apply numberWords_undefined. cbn [grid seedEntry row col].
  rewrite look_toDisplay, decide_False; [done|].
  intros [_ Hcol]. revert Hcol. apply Z.lt_nge.
  apply Z.div_lt_upper_bound; lia.
Qed.

Lemma generateCrossword_tidy firstWord rest :
  Z.of_nat (length (letters firstWord)) <= 15 ->
  Forall (fun w => "_"%char ∉ letters w) (firstWord :: rest) ->
  exists g placed cw,
    layout (firstWord :: rest) = Returns (g, placed)
    /\ generateCrossword (firstWord :: rest) = Returns cw
    /\ wellFormed (g, placed) /\ tidy (g, placed)
    /\ (forall r, is_Some (grid cw !! r) <-> 0 <= r < 15)
    /\ (forall r c, 0 <= r < 15 ->
          match cellValue g (r, c) with
          | Some ch => exists d, look (grid cw) (c, r) = Some d
                                 /\ sameFace (display ch) d
          | None => look (grid cw) (c, r) = None
          end).
Proof.
  intros Hlen Hwords. unfold generateCrossword, layout.
  destruct (layoutAfter_spec 7 firstWord rest)
    as ([g placed] & Hrun & Hwf & _ & Htidy).
  specialize (Htidy Hlen Hwords). rewrite Hrun.
  cbn [mbind outcome_bind JS.bind fst snd].
  pose proof Htidy as [Hcells Hinside Hanchor Hcovered Hletters].
  cbn [fst snd] in *. unfold gridSize in *.
  destruct (numberWords_spec placed
              {| grid := toDisplay g; across := []; down := [] |} 1)
    as (cw & Hnum & Hrows & Hfaces).
  { intros e He. cbn [grid]. destruct (Hanchor e He) as [Hr Hc].
    rewrite look_toDisplay, decide_True by lia.
    apply fmap_is_Some, (Hcells (row e) (col e)); lia. }
  exists g, placed, cw. split; [done|]. split; [done|].
  split; [done|]. split; [done|]. cbn [grid] in *. split.
  - intros r. rewrite Hrows, lookup_toDisplay_is_Some.
    rewrite (wf_rows _ Hwf r). unfold gridSize. cbn. lia.
  - intros r c Hr. specialize (Hfaces (c, r)).
    rewrite look_toDisplay in Hfaces. unfold cellValue. cbn [fst snd].
    destruct (decide (0 <= r /\ 0 <= c)) as [Hrc|Hrc].
    + destruct (look g (c, r)) as [ch|]; cbn in Hfaces; [|done].
      destruct Hfaces as (d & ? & ?). by exists d.
    + destruct (look g (c, r)) as [ch|] eqn:Hl; [|done].
      assert (is_Some (cellValue g (r, c))) as Hs by (unfold cellValue; cbn; eauto).
      apply Hcells in Hs; [lia|done].
Qed.

End CrosswordFacts.

(** * The claims *)

Import JSFacts Maze MazeFacts.

(** C1. For every [cols >= 1] and [rows >= 1], whatever the random draws,
    [generateMaze cols rows] returns a perfect maze. A flood fill from cell
    (0,0) through carved shared walls reaches all the [cols * rows] cells:
    every cell of the grid is reachable, and the fill, run for
    [cols * rows] rounds, returns exactly the cells of the grid. The number
    of wall carvings performed during the generation, which is also the
    number of carved shared walls of the returned grid, is exactly
    [cols * rows - 1]: the passages form a spanning tree of the grid. *)
Theorem generateMaze_perfect (rng : nat -> nat) (cols rows : Z) (fuel : nat) :
  1 <= cols -> 1 <= rows -> (2 * Z.to_nat (cols * rows) <= fuel)%nat ->
  exists st g,
    carveMaze fuel rng cols rows = Returns st
    /\ generateMaze fuel rng cols rows = Returns g
    /\ (forall p, inb cols rows p -> reachable cols rows g p)
    /\ (forall p, p ∈ floodFill (Z.to_nat (cols * rows)) cols rows g [(0, 0)]
                  <-> inb cols rows p)
    /\ length (remove_dups
                 (floodFill (Z.to_nat (cols * rows)) cols rows g [(0, 0)]))
       = Z.to_nat (cols * rows)
    /\ Z.of_nat (carved st) = cols * rows - 1
    /\ Z.of_nat (carvedWalls cols rows g) = cols * rows - 1.
Proof.
  intros Hc Hr Hfuel.
  assert (2 * Z.to_nat (cols * rows) - 1 <= fuel)%nat as Hfuel'.
  { revert Hfuel. generalize (Z.to_nat (cols * rows)). lia. }
  destruct (generateMaze_spec rng cols rows fuel Hc Hr Hfuel')
    as (st & g & Hrun & Hgen & _ & Hreach & Hcarved & Hwalls).
  assert (forall p, inb cols rows p ->
            p ∈ floodFill (Z.to_nat (cols * rows)) cols rows g [(0, 0)])
    as Hfill.
  { intros p Hp. apply within_floodFill.
    replace (Z.to_nat (cols * rows)) with (S (carved st)) by lia.
    by apply within_S, Hreach. }
  destruct (floodFill_all _ cols rows g Hc Hr Hfill) as [Hiff Hlen].
  exists st, g. split_and!; try done.
  - intros p Hp. eapply within_reachable. by apply Hreach.
  - by rewrite Hwalls.
Qed.

Lemma generateMaze_perfect_witness :
  exists st g,
    carveMaze 18 (fun k => k) 3 3 = Returns st
    /\ generateMaze 18 (fun k => k) 3 3 = Returns g
    /\ (forall p, inb 3 3 p -> reachable 3 3 g p)
    /\ (forall p, p ∈ floodFill (Z.to_nat (3 * 3)) 3 3 g [(0, 0)]
                  <-> inb 3 3 p)
    /\ length (remove_dups (floodFill (Z.to_nat (3 * 3)) 3 3 g [(0, 0)]))
       = Z.to_nat (3 * 3)
    /\ Z.of_nat (carved st) = 3 * 3 - 1
    /\ Z.of_nat (carvedWalls 3 3 g) = 3 * 3 - 1.
Proof.
  apply (generateMaze_perfect (fun k => k) 3 3 18); [lia|lia|vm_compute; lia].
Defined.

(** C5. [generateMaze cols rows] terminates for every [cols >= 1] and
    [rows >= 1], whatever the random draws: after at most
    [2 * cols * rows - 1] iterations the stack is empty and the function
    returns a grid; it neither throws nor runs on, and a larger step budget
    gives the same result. *)
Theorem generateMaze_terminates (rng : nat -> nat) (cols rows : Z) :
  1 <= cols -> 1 <= rows ->
  exists st g,
    stack st = []
    /\ forall fuel, (2 * Z.to_nat (cols * rows) - 1 <= fuel)%nat ->
         carveMaze fuel rng cols rows = Returns st
         /\ generateMaze fuel rng cols rows = Returns g.
Proof.
  intros Hc Hr.
  destruct (generateMaze_spec rng cols rows (2 * Z.to_nat (cols * rows) - 1)
              Hc Hr (Nat.le_refl _))
    as (st & g & Hrun & Hgen & Hst & _).
  exists st, g. split; [done|]. intros fuel Hfuel.
  pose proof (carveMaze_more_fuel _ _ _ _ fuel _ Hrun Hfuel) as Hrun'.
  split; [done|]. unfold generateMaze in *. by rewrite Hrun, Hrun' in *.
Qed.

Lemma generateMaze_terminates_witness :
  exists st g,
    stack st = []
    /\ forall fuel, (2 * Z.to_nat (2 * 3) - 1 <= fuel)%nat ->
         carveMaze fuel (fun k => 7 * k)%nat 2 3 = Returns st
         /\ generateMaze fuel (fun k => 7 * k)%nat 2 3 = Returns g.
Proof. apply (generateMaze_terminates (fun k => 7 * k)%nat 2 3); lia. Defined.

Import Crossword CrosswordFacts.

(** C8, as stated, fails: with [cols = 0] the maze generator throws a
    [TypeError], not an [InvalidArgument] condition; and a hard error also
    occurs elsewhere in the engine, [generateCrossword] throwing on a seed of
    sixteen letters. *)
Lemma invalid_dimensions_counterexample :
  generateMaze 10 (fun k => k) 0 3 = Throws "TypeError"
  /\ generateMaze 10 (fun k => k) 0 3 <> Throws "InvalidArgument"
  /\ generateCrossword ["ABCDEFGHIJKLMNOP"%string] = Throws "TypeError".
Proof. split_and!; [by vm_compute|by vm_compute|by vm_compute]. Qed.

(** C8, amended. Calling the maze generator with [cols <= 0] or [rows <= 0]
    fails, whatever the random draws and the step budget, with the
    [TypeError] raised when cell (0,0) of the grid, which does not exist, is
    marked visited; the arguments are not checked and no [InvalidArgument]
    condition is raised. *)
Theorem invalid_dimensions_throw
        (rng : nat -> nat) (cols rows : Z) (fuel : nat) :
  cols <= 0 \/ rows <= 0 ->
  generateMaze fuel rng cols rows = Throws TypeError.
Proof. apply generateMaze_invalid. Qed.

Lemma invalid_dimensions_throw_witness :
  generateMaze 10 (fun k => k) 3 (-1) = Throws TypeError.
Proof. apply (invalid_dimensions_throw (fun k => k) 3 (-1) 10). lia. Defined.

(** C4. [generateCrossword] applied to the empty word list returns exactly
    [{grid: [], across: [], down: []}]; it does not throw. *)
Theorem generateCrossword_empty :
  generateCrossword [] = Returns {| grid := ∅; across := []; down := [] |}.
Proof. reflexivity. Qed.

(** C7. [generateCrossword(["NOAH"])] places NOAH horizontally, anchored at
    row [floor(15/2) = 7] and column [floor((15 - 4)/2) = 5]: the returned
    grid reads NOAH in row 7 from column 5 to column 8, every other cell
    being black, and the cell of the N carries the number 1; there is
    exactly one across clue, numbered 1, and no down clue. *)
Theorem generateCrossword_NOAH :
  returned (layout ["NOAH"%string]) (fun gp =>
    gp.2 = [ {| text := "NOAH"; row := 15 / 2; col := (15 - 4) / 2;
                vertical := false |} ]
    /\ gp.2 = [ {| text := "NOAH"; row := 7; col := 5; vertical := false |} ])
  /\ exists cw,
    generateCrossword ["NOAH"%string] = Returns cw
    /\ render (grid cw)
       = [ "..............."; "..............."; "...............";
           "..............."; "..............."; "...............";
           "..............."; ".....NOAH......"; "...............";
           "..............."; "..............."; "...............";
           "..............."; "..............."; "..............." ]%string
    /\ look (grid cw) (5, 7)
       = Some {| letter := "N"; isBlack := false; hasNumber := true;
                 number := Some 1 |}
    /\ across cw = [ {| clueNumber := 1; clue := Str "Built the big boat" |} ]
    /\ down cw = [].
Proof.
  split; [vm_compute; by split|].
  apply returned_exists. vm_compute. by split_and!.
Qed.

(** C9. For every non-empty word list whose first word has at most fifteen
    letters and whose words contain no ['_'], [generateCrossword] returns
    a grid of exactly fifteen rows of exactly fifteen cells each, and each
    cell has [isBlack = true] if and only if its [letter] is the empty
    string, which holds exactly when no placed word covers the position. *)
Theorem generateCrossword_grid (firstWord : string) (rest : list string) :
  Z.of_nat (length (letters firstWord)) <= 15 ->
  Forall (fun w => "_"%char ∉ letters w) (firstWord :: rest) ->
  exists g placed cw,
    layout (firstWord :: rest) = Returns (g, placed)
    /\ generateCrossword (firstWord :: rest) = Returns cw
    /\ (forall r, is_Some (grid cw !! r) <-> 0 <= r < 15)
    /\ (forall r rw, grid cw !! r = Some rw ->
          forall c, is_Some (rw !! c) <-> 0 <= c < 15)
    /\ (forall r c d, look (grid cw) (c, r) = Some d ->
          (isBlack d = true <-> letter d = ""%string)
          /\ (letter d = ""%string <->
              ~ exists e, e ∈ placed /\ covers e r c)).
Proof.
  intros Hlen Hwords.
  destruct (generateCrossword_tidy firstWord rest Hlen Hwords)
    as (g & placed & cw & Hlay & Hrun & Hwf & Htidy & Hrows & Hcells).
  exists g, placed, cw. split; [done|]. split; [done|]. split; [done|].
  assert (forall r c, is_Some (look (grid cw) (c, r)) ->
            0 <= r < 15) as Hrow.
  { intros r c [d Hd]. apply Hrows. unfold look in Hd. cbn in Hd.
    destruct (grid cw !! r); [eauto|done]. }
  split.
  - intros r rw Hrw c.
    assert (0 <= r < 15) as Hr by (apply Hrows; eauto).
    specialize (Hcells r c Hr).
    pose proof (tidy_cells _ Htidy r c Hr) as Hdom. cbn [fst] in Hdom.
    assert (look (grid cw) (c, r) = rw !! c) as Hlk
      by (unfold look; cbn; by rewrite Hrw).
    rewrite <- Hlk, <- Hdom.
    destruct (cellValue g (r, c)) as [ch|].
    + destruct Hcells as (d & -> & _). split; eauto.
    + rewrite Hcells. split; by intros [? ?].
  - intros r c d Hd.
    assert (0 <= r < 15) as Hr by (eapply Hrow; eauto).
    specialize (Hcells r c Hr).
    destruct (cellValue g (r, c)) as [ch|] eqn:Hval; [|congruence].
    destruct Hcells as (d' & Hd' & Hl & Hb). rewrite Hd in Hd'.
    injection Hd' as <-. rewrite Hl, Hb. cbn [display letter isBlack].
    destruct (decide (ch = "_"%char)) as [->|Hch].
    + rewrite bool_decide_eq_true_2 by done. split; [done|]. split; [|done].
      intros _ (e & He & i & Hi & Hcell).
      destruct (lookup_lt_is_Some_2 (letters (text e)) (Z.to_nat i))
        as [ch Hch]; [lia|].
      assert (ch <> "_"%char) as Hne.
      { intros ->. eapply (tidy_letters _ Htidy e He).
        by eapply list_elem_of_lookup_2. }
      pose proof (wf_letters _ Hwf e _ ch He Hch Hne) as Hg.
      rewrite Z2Nat.id in Hg by lia. cbn [fst] in Hg.
      rewrite Hcell, Hval in Hg. congruence.
    + rewrite bool_decide_eq_false_2 by done. split; [done|]. split; [done|].
      intros Hno. exfalso. apply Hno. by eapply (tidy_covered _ Htidy).
Qed.

Lemma generateCrossword_grid_witness :
  exists g placed cw,
    layout ["NOAH"; "ARK"; "DOVE"]%string = Returns (g, placed)
    /\ generateCrossword ["NOAH"; "ARK"; "DOVE"]%string = Returns cw
    /\ (forall r, is_Some (grid cw !! r) <-> 0 <= r < 15)
    /\ (forall r rw, grid cw !! r = Some rw ->
          forall c, is_Some (rw !! c) <-> 0 <= c < 15)
    /\ (forall r c d, look (grid cw) (c, r) = Some d ->
          (isBlack d = true <-> letter d = ""%string)
          /\ (letter d = ""%string <->
              ~ exists e, e ∈ placed /\ covers e r c)).
Proof.
  apply (generateCrossword_grid "NOAH" ["ARK"; "DOVE"]%string).
  - vm_compute. discriminate.
  - repeat constructor; vm_compute; intros H;
      repeat (apply elem_of_cons in H as [H|H]; [discriminate H|]);
      by apply elem_of_nil in H.
Defined.

(** C3, as stated, fails: after NOAH (the seed), NET (down, from the N) and
    TEAM (across, from the T), the candidate AHA is accepted by
    [canPlaceWord] down column 7, where it crosses NOAH and TEAM: two cells
    of the accepted placement already hold a letter. *)
Lemma shared_cells_counterexample :
  returned (layoutAfter 2 ["NOAH"; "NET"; "TEAM"; "AHA"]%string) (fun gp =>
    candidates ["NOAH"; "NET"; "TEAM"; "AHA"]%string !! 2%nat
    = Some "AHA"%string
    /\ canPlaceWord gp.1 "AHA" 7 7 true = Returns true
    /\ holdsLetter gp.1 (7, 7) = true /\ holdsLetter gp.1 (9, 7) = true
    /\ sharedCells gp.1 "AHA" 7 7 true = 2%nat
    /\ returned (tryPlace gp "AHA") (fun gp' =>
         gp'.2 = gp.2 ++ [ {| text := "AHA"; row := 7; col := 7;
                              vertical := true |} ])).
Proof. vm_compute. by split_and!. Qed.

(** C3, amended. For every word that [generateCrossword] places after the
    first, the accepted placement crosses an earlier entry, perpendicular
    to it, on a letter the two words have in common, and that cell holds
    this letter; every cell of the accepted placement that already holds a
    letter (there may be several) holds the letter the new word puts there.
    [canPlaceWord] rejects any candidate that would put a letter on a cell
    holding a different letter; it does not bound the number of shared
    cells. *)
Theorem placement_shares_equal_letters
        (words : list string) (n : nat) (g : Grid)
        (placed : list PlacedEntry) (w : string) :
  layoutAfter n words = Returns (g, placed) ->
  candidates words !! n = Some w ->
  (exists gp',
     tryPlace (g, placed) w = Returns gp'
     /\ layoutAfter (S n) words = Returns gp'
     /\ (gp' = (g, placed)
         \/ exists e pw i j ltr,
              gp'.2 = placed ++ [e] /\ text e = w /\ pw ∈ placed
              /\ vertical e = negb (vertical pw)
              /\ letters w !! i = Some ltr
              /\ letters (text pw) !! j = Some ltr
              /\ cellOfEntry e (Z.of_nat i) = cellOfEntry pw (Z.of_nat j)
              /\ (ltr <> "_"%char ->
                  cellValue g (cellOfEntry e (Z.of_nat i)) = Some ltr)
              /\ canPlaceWord g w (row e) (col e) (vertical e) = Returns true
              /\ (forall k ch, letters w !! k = Some ch ->
                    holdsLetter g (cellOfEntry e (Z.of_nat k)) = true ->
                    cellValue g (cellOfEntry e (Z.of_nat k)) = Some ch)
              /\ (forall k ch, letters w !! k = Some ch ->
                    cellValue gp'.1 (cellOfEntry e (Z.of_nat k)) = Some ch)))
  /\ (forall (g0 : Grid) w0 r c vert k ch,
        letters w0 !! k = Some ch ->
        holdsLetter g0 (cellAt r c vert (Z.of_nat k)) = true ->
        cellValue g0 (cellAt r c vert (Z.of_nat k)) <> Some ch ->
        canPlaceWord g0 w0 r c vert <> Returns true).
Proof.
  intros Hlay Hw.
  assert (forall (g0 : Grid) w0 r c vert k ch,
            canPlaceWord g0 w0 r c vert = Returns true ->
            letters w0 !! k = Some ch ->
            holdsLetter g0 (cellAt r c vert (Z.of_nat k)) = true ->
            cellValue g0 (cellAt r c vert (Z.of_nat k)) = Some ch) as Hagree.
  { intros g0 w0 r c vert k ch Hok Hk Hholds.
    destruct (canPlaceWord_true _ _ _ _ _ Hok) as [_ Hcells].
    unfold holdsLetter, cellValue in *.
    destruct (Hcells k ch Hk) as [Hblank|Hsame]; [|done].
    cbn zeta in Hblank. rewrite Hblank in Hholds.
    by apply bool_decide_eq_true in Hholds. }
  split; [|intros g0 w0 r c vert k ch Hk Hholds Hne Hok;
           apply Hne; by apply (Hagree g0 w0)].
  destruct words as [|firstWord rest].
  { unfold candidates in Hw. by rewrite drop_nil, take_nil in Hw. }
  destruct (layoutAfter_spec n firstWord rest) as (gp & Hlay' & Hwf & _).
  rewrite Hlay in Hlay'. injection Hlay' as <-.
  destruct (tryPlace_spec (g, placed) w Hwf) as (gp' & Hrun & Hwf' & Hcase).
  exists gp'. split; [done|]. split.
  { rewrite (layoutAfter_S _ _ _ Hw), Hlay. done. }
  destruct Hcase as [->|(e & Hplaced & Hfits & Hin & _)]; [by left|]. right.
  destruct Hfits as (Ht & Hok & pw & i & j & ltr & Hpw & Hi & Hj & Hv & Hx).
  exists e, pw, i, j, ltr. cbn [fst snd] in *. split_and!; try done.
  - intros Hltr. rewrite Hx. by apply (wf_letters _ Hwf pw j ltr).
  - intros k ch Hk. rewrite <- Ht in Hk, Hok. by apply (Hagree g (text e)).
Qed.

Lemma placement_shares_equal_letters_witness :
  let g : Grid :=
    <[7 := <[5 := "N"%char]> (<[6 := "O"%char]> (<[7 := "A"%char]>
             (<[8 := "H"%char]> (filled 15 "_"%char))))]> emptyGrid in
  let placed := [seedEntry "NOAH"] in
  (exists gp',
     tryPlace (g, placed) "ARK" = Returns gp'
     /\ layoutAfter 1 ["NOAH"; "ARK"]%string = Returns gp'
     /\ (gp' = (g, placed)
         \/ exists e pw i j ltr,
              gp'.2 = placed ++ [e] /\ text e = "ARK"%string /\ pw ∈ placed
              /\ vertical e = negb (vertical pw)
              /\ letters "ARK" !! i = Some ltr
              /\ letters (text pw) !! j = Some ltr
              /\ cellOfEntry e (Z.of_nat i) = cellOfEntry pw (Z.of_nat j)
              /\ (ltr <> "_"%char ->
                  cellValue g (cellOfEntry e (Z.of_nat i)) = Some ltr)
              /\ canPlaceWord g "ARK" (row e) (col e) (vertical e)
                 = Returns true
              /\ (forall k ch, letters "ARK" !! k = Some ch ->
                    holdsLetter g (cellOfEntry e (Z.of_nat k)) = true ->
                    cellValue g (cellOfEntry e (Z.of_nat k)) = Some ch)
              /\ (forall k ch, letters "ARK" !! k = Some ch ->
                    cellValue gp'.1 (cellOfEntry e (Z.of_nat k)) = Some ch)))
  /\ (forall (g0 : Grid) w0 r c vert k ch,
        letters w0 !! k = Some ch ->
        holdsLetter g0 (cellAt r c vert (Z.of_nat k)) = true ->
        cellValue g0 (cellAt r c vert (Z.of_nat k)) <> Some ch ->
        canPlaceWord g0 w0 r c vert <> Returns true).
Proof.
  cbn zeta.
  apply (placement_shares_equal_letters ["NOAH"; "ARK"]%string 0);
    [vm_compute; reflexivity|reflexivity].
Defined.

Import WordSearch WordSearchFacts.

(** C2 does not hold of the code. On a 20 x 20 grid, for the word NOAH, the
    draws direction = 3 (diagonal down-left), x = 0, y = 0 are possible: the
    column of the anchor is drawn from the whole width, whatever the
    direction is, and the word runs to the left of it. The attempt is
    accepted, its second cell is (-1, 1), outside the grid, and the letter
    O is stored there. ([list_ascii_of_string] stands for the
    normalisation, which leaves NOAH as it is; the first 400 draws fill the
    grid.) *)
Theorem anchor_leaves_grid :
  let rng := fun k : nat => if (k =? 400)%nat then 3%nat else 0%nat in
  anchor rng 20 400 4 = (3, 0, 0)
  /\ cellsOf 3 0 0 4 = [(0, 0); (-1, 1); (-2, 2); (-3, 3)]
  /\ ~ inGrid 20 (-1, 1)
  /\ returned (generateWordSearch list_ascii_of_string rng 20 ["NOAH"%string])
       (fun st =>
          placedWords st
          = [ {| word := list_ascii_of_string "NOAH";
                 path := [(0, 0); (-1, 1); (-2, 2); (-3, 3)] |} ]
          /\ look (grid st) (-1, 1) = Some "O"%char).
Proof.
  cbn zeta. split; [by vm_compute|]. split; [by vm_compute|]. split.
  - unfold inGrid. cbn. lia.
  - vm_compute. by split.
Qed.

(** C6. [generateWordSearch] returns, and in its result, for every pair of
    placed words whose recorded paths share a cell, the letter stored at
    that cell equals both words' letters at their positions on it. *)
Theorem overlaps_agree (normalize : string -> list ascii) (rng : nat -> nat)
        (gridSize : Z) (words : list string) :
  exists st,
    generateWordSearch normalize rng gridSize words = Returns st
    /\ forall pw1 pw2 i j p,
         pw1 ∈ placedWords st -> pw2 ∈ placedWords st ->
         path pw1 !! i = Some p -> path pw2 !! j = Some p ->
         exists c, look (grid st) p = Some c
                   /\ word pw1 !! i = Some c /\ word pw2 !! j = Some c.
Proof.
  destruct (generateWordSearch_spec normalize rng gridSize words)
    as (st & Hrun & _ & Hcons).
  exists st. split; [done|]. intros pw1 pw2 i j p H1 H2 Hi Hj.
  destruct (Hcons pw1 i p H1 Hi) as (c1 & Hw1 & Hl1).
  destruct (Hcons pw2 j p H2 Hj) as (c2 & Hw2 & Hl2).
  exists c1. split; [done|]. split; [done|]. congruence.
Qed.

(** C10. In the retry loop of [generateWordSearch], an attempt whose
    conflict check fails performs no write: the letter grid and the list of
    placed words are what they were before it. Hence, when the loop ends,
    either both are unchanged, or one attempt was accepted: its check
    succeeded on the grid and list the loop started with, and the result is
    that grid with the word written along the path, and that list with the
    word appended. *)
Theorem rejected_attempts_write_nothing (rng : nat -> nat) (gridSize : Z)
        (w : list ascii) :
  (forall st d x y,
     anchor rng gridSize (draws st) (Z.of_nat (length w)) = (d, x, y) ->
     canPlaceFrom (grid st) (placedWords st) d x y 0 w = Returns false ->
     exists st', attempt rng gridSize st w = Returns (st', false)
       /\ grid st' = grid st /\ placedWords st' = placedWords st)
  /\ (forall budget st st',
        retry rng gridSize budget st w = Returns st' ->
        (grid st' = grid st /\ placedWords st' = placedWords st)
        \/ exists k d x y pth,
             anchor rng gridSize k (Z.of_nat (length w)) = (d, x, y)
             /\ canPlaceFrom (grid st) (placedWords st) d x y 0 w
                = Returns true
             /\ writeFrom (grid st) d x y 0 w [] = Returns (grid st', pth)
             /\ placedWords st'
                = placedWords st ++ [ {| word := w; path := pth |} ]).
Proof.
  split.
  - intros st d x y Ha Hcheck. rewrite (attempt_unfold _ _ _ _ _ _ _ Ha), Hcheck.
    cbn. eauto.
  - intros n. induction n as [|n IH]; intros st st' Hrun; cbn [retry] in Hrun.
    + injection Hrun as <-. by left.
    + destruct (anchor rng gridSize (draws st) (Z.of_nat (length w)))
        as [[d x] y] eqn:Ha.
      rewrite (attempt_unfold _ _ _ _ _ _ _ Ha) in Hrun.
      destruct (canPlaceFrom (grid st) (placedWords st) d x y 0 w)
        as [[]| |] eqn:Hcheck; cbn [mbind outcome_bind JS.bind] in Hrun;
        try done.
      * destruct (writeFrom (grid st) d x y 0 w []) as [[g' pth]| |] eqn:Hw;
          cbn [mbind outcome_bind JS.bind fst snd] in Hrun; try done.
        injection Hrun as <-. right. exists (draws st), d, x, y, pth. done.
      * cbn [fst snd] in Hrun. apply IH in Hrun. exact Hrun.
Qed.

Lemma rejected_attempts_write_nothing_witness :
  let st := {| grid := {[ 0 := {[ 0 := "A"%char ]} ]};
               placedWords := [ {| word := ["A"%char]; path := [(0, 0)] |} ];
               draws := 0 |} in
  exists st', attempt (fun _ => 0%nat) 1 st ["B"%char] = Returns (st', false)
    /\ grid st' = grid st /\ placedWords st' = placedWords st.
Proof.
  cbn zeta.
  apply (proj1 (rejected_attempts_write_nothing (fun _ => 0%nat) 1 ["B"%char])
           _ 0 0 0); by vm_compute.
Defined.

(** * Further properties of the components *)

(** ** The walls of the maze *)

Module MazeWalls.
Import JSFacts Maze MazeFacts.

(** The two branches of the loop body, read back from its result. *)
Lemma step_cases rng cols rows st st' :
  invariant cols rows st -> stack st <> [] ->
  step rng cols rows st = Returns st' ->
  (exists prev rest, stack st = prev :: rest
     /\ st' = {| grid := grid st; stack := rest; current := prev;
                 draws := draws st; carved := carved st |})
  \/ (exists next w g1 g2 g3,
        next = move w (current st) /\ inb cols rows next
        /\ isVisited (grid st) next = false
        /\ update (grid st) (current st) (clearWall w) = Returns g1
        /\ update g1 next (clearWall (opposite w)) = Returns g2
        /\ update g2 next markVisited = Returns g3
        /\ st' = {| grid := g3; stack := current st :: stack st;
                    current := next; draws := S (draws st);
                    carved := S (carved st) |}).
Proof.
  intros Hinv Hne Hstep. pose proof Hinv as [].
  destruct (neighbors_spec cols rows (grid st) (current st))
    as (ns & Hns & Hmem); [done..|].
  unfold step in Hstep. rewrite Hns in Hstep.
  cbn [mbind outcome_bind JS.bind] in Hstep.
  destruct (decide (ns = [])) as [->|Hnil].
  - destruct (stack st) as [|prev rest] eqn:Hst; [done|].
    left. exists prev, rest. split; [done|]. by injection Hstep as <-.
  - right.
    destruct (ns !! Z.to_nat (floorRandom (rng (draws st))
                                (Z.of_nat (length ns))))
      as [[next w]|] eqn:Hnw; [|done].
    apply list_elem_of_lookup_2, Hmem in Hnw as (Hmv & Hin & Hu).
    apply bind_Returns in Hstep as (g1 & Hup1 & Hstep).
    apply bind_Returns in Hstep as (g2 & Hup2 & Hstep).
    apply bind_Returns in Hstep as (g3 & Hup3 & Hstep).
    exists next, w, g1, g2, g3. injection Hstep as <-. done.
Qed.

Lemma elem_of_allFlags cols rows p w :
  (p, w) ∈ allFlags cols rows <-> inb cols rows p.
Proof.
  unfold allFlags. rewrite list_elem_of_bind. split.
  - intros (q & Hin & Hq). apply elem_of_allCells in Hq.
    apply list_elem_of_fmap in Hin as (w' & [= -> ->] & _). done.
  - intros Hp. exists p. split; [|by apply elem_of_allCells].
    apply list_elem_of_fmap. exists w. split; [done|].
    destruct w; repeat constructor.
Qed.

Lemma NoDup_allFlags cols rows : NoDup (allFlags cols rows).
Proof.
  unfold allFlags. apply NoDup_bind.
  - intros p1 p2 [q w] _ _ H1 H2.
    apply list_elem_of_fmap in H1 as (w1 & [= -> _] & _).
    by apply list_elem_of_fmap in H2 as (w2 & [= -> _] & _).
  - intros p _. apply NoDup_fmap_2; [by intros w1 w2 [=]|].
    repeat constructor; set_solver.
  - apply NoDup_allCells.
Qed.

Lemma length_allFlags cols rows :
  0 <= cols -> 0 <= rows ->
  length (allFlags cols rows) = (4 * Z.to_nat (cols * rows))%nat.
Proof.
  intros Hc Hr. rewrite <- length_allCells by done. unfold allFlags.
  induction (allCells cols rows) as [|p l IH]; [done|].
  cbn in *. lia.
Qed.

Lemma filter_length_drop2 {A} (P Q : A -> bool) (l : list A) (a b : A) :
  NoDup l -> a <> b -> a ∈ l -> b ∈ l ->
  P a = true -> P b = true -> Q a = false -> Q b = false ->
  (forall c, c ∈ l -> c <> a -> c <> b -> P c = Q c) ->
  length (List.filter P l) = S (S (length (List.filter Q l))).
Proof.
  intros Hnd Hab Ha Hb HPa HPb HQa HQb Hext.
  induction l as [|c l IH]; [by apply elem_of_nil in Ha|].
  apply NoDup_cons in Hnd as [Hc Hnd]. cbn.
  apply elem_of_cons in Ha as [->|Ha]; apply elem_of_cons in Hb as [->|Hb].
  - done.
  - rewrite HPa, HQa. cbn. f_equal.
    apply (filter_length_drop _ _ _ b); try done.
    intros d Hd Hne. apply Hext; [by right| |done]. by intros ->.
  - rewrite HPb, HQb. cbn. f_equal.
    apply (filter_length_drop _ _ _ a); try done.
    intros d Hd Hne. apply Hext; [by right|done|]. by intros ->.
  - assert (c <> a) by (by intros ->). assert (c <> b) by (by intros ->).
    rewrite (Hext c) by (done || by left).
    destruct (Q c); cbn; rewrite IH; auto.
    all: intros d Hd; apply Hext; by right.
Qed.

Lemma closedFlags_carve cols rows g g' cur w :
  inb cols rows cur -> inb cols rows (move w cur) ->
  isOpen g cur w = false -> isOpen g (move w cur) (opposite w) = false ->
  (forall q w',
    isOpen g' q w' =
      if decide (q = move w cur /\ w' = opposite w) then true
      else if decide (q = cur /\ w' = w) then true else isOpen g q w') ->
  closedFlags cols rows g = S (S (closedFlags cols rows g')).
Proof.
  intros Hcur Hnext Hc1 Hc2 Hopen.
  apply (filter_length_drop2 _ _ _ (cur, w) (move w cur, opposite w)).
  - apply NoDup_allFlags.
  - intros [= Hm _]. symmetry in Hm. by apply move_neq in Hm.
  - by apply elem_of_allFlags.
  - by apply elem_of_allFlags.
  - cbn. by rewrite Hc1.
  - cbn. by rewrite Hc2.
  - cbn. rewrite Hopen. case_decide; [done|]. by rewrite decide_True.
  - cbn. by rewrite Hopen, decide_True.
  - intros [q w'] _ Hn1 Hn2. cbn. rewrite Hopen.
    rewrite !decide_False; [done|..]; by intros [-> ->].
Qed.

(** Carving a wall keeps the walls in order. *)
Lemma carve_walled cols rows st next w g1 g2 g3 :
  invariant cols rows st -> walled cols rows st ->
  next = move w (current st) ->
  inb cols rows next ->
  isVisited (grid st) next = false ->
  update (grid st) (current st) (clearWall w) = Returns g1 ->
  update g1 next (clearWall (opposite w)) = Returns g2 ->
  update g2 next markVisited = Returns g3 ->
  walled cols rows
    {| grid := g3; stack := current st :: stack st; current := next;
       draws := S (draws st); carved := S (carved st) |}.
Proof.
  intros Hinv [] Hmove Hnext Hun Hup1 Hup2 Hup3. pose proof Hinv as [].
  destruct (proj1 (isVisited_true _ _) inv_visited0) as (ccur & Hcur & Hvcur).
  pose proof (inv_fresh0 next Hnext Hun) as Hcn.
  pose proof (carve_look _ _ _ _ _ _ _ _ _ Hcur Hcn Hmove Hup1 Hup2 Hup3)
    as Hlook.
  pose proof (carve_isOpen _ _ _ _ _ _ _ _ _ Hcur Hcn Hmove Hup1 Hup2 Hup3)
    as Hopen.
  assert (forall q w',
    (q = next /\ w' = opposite w) \/ (q = current st /\ w' = w) ->
    (move w' q = next /\ opposite w' = opposite w)
    \/ (move w' q = current st /\ opposite w' = w)) as Hflip.
  { intros q w' [[-> ->]|[-> ->]].
    - right. by rewrite Hmove, move_opposite, opposite_opposite.
    - left. by rewrite Hmove. }
  assert (forall q w', isOpen g3 q w' =
    if decide ((q = next /\ w' = opposite w) \/ (q = current st /\ w' = w))
    then true else isOpen (grid st) q w') as Hopen'.
  { intros q w'. rewrite Hopen. repeat case_decide; tauto. }
  split; cbn.
  - intros p Hp. rewrite Hlook in Hp. repeat case_decide; subst; auto.
  - intros p w' Hp Hm. rewrite !Hopen'.
    destruct (decide ((p = next /\ w' = opposite w)
                      \/ (p = current st /\ w' = w))) as [Ha|Ha].
    + by rewrite decide_True by auto.
    + rewrite decide_False; [auto|]. intros Hb. apply Ha.
      apply Hflip in Hb. by rewrite move_opposite, opposite_opposite in Hb.
  - intros p w' Hp Hm. rewrite Hopen'. rewrite decide_False; [auto|].
    intros Ha. apply Hm. destruct Ha as [[-> ->]|[-> ->]].
    + by rewrite Hmove, move_opposite.
    + by rewrite <- Hmove.
  - rewrite (closedFlags_carve cols rows (grid st) g3 (current st) w)
      in wl_flags0; [lia|done|by rewrite <- Hmove| | |by rewrite <- Hmove].
    + apply inv_facing0; rewrite <- ?Hmove; done.
    + rewrite <- Hmove. unfold isOpen. rewrite Hcn. by destruct w.
  - by f_equal.
Qed.

Lemma step_walled rng cols rows st st' :
  invariant cols rows st -> walled cols rows st -> stack st <> [] ->
  step rng cols rows st = Returns st' -> walled cols rows st'.
Proof.
  intros Hinv Hw Hne Hstep.
  destruct (step_cases _ _ _ _ _ Hinv Hne Hstep)
    as [(prev & rest & Hst & ->)
       |(next & w & g1 & g2 & g3 & Hmv & Hin & Hu & Hup1 & Hup2 & Hup3 & ->)].
  - by destruct Hw.
  - by eapply carve_walled.
Qed.

(** Whatever the budget, a run that ends ends on an empty stack, with the
    invariant and the walls in order. *)
Lemma loop_walled rng cols rows fuel st st' :
  invariant cols rows st -> walled cols rows st ->
  loop fuel rng cols rows st = Returns st' ->
  invariant cols rows st' /\ walled cols rows st' /\ stack st' = [].
Proof.
  revert st. induction fuel as [|fuel IH]; intros st Hinv Hw Hrun; cbn in Hrun.
  - destruct (stack st) eqn:Hst; [|done]. by injection Hrun as <-.
  - destruct (stack st) as [|top rest] eqn:Hst; [by injection Hrun as <-|].
    destruct (step_spec rng cols rows st Hinv) as (st1 & Hstep & Hinv1 & _);
      [by rewrite Hst|].
    rewrite Hstep in Hrun. cbn [mbind outcome_bind JS.bind] in Hrun.
    apply (IH st1); [done| |done].
    apply (step_walled rng cols rows st); [done|done| |done]. by rewrite Hst.
Qed.

(** A budget below the iterations left is used up. *)
Lemma loop_timeout rng cols rows fuel st :
  invariant cols rows st -> (fuel < budget cols rows st)%nat ->
  loop fuel rng cols rows st = Timeout.
Proof.
  revert st. induction fuel as [|fuel IH]; intros st Hinv Hfuel.
  all: destruct (stack st) as [|top rest] eqn:Hst.
  all: try (exfalso; unfold budget in Hfuel;
            rewrite (unvisited_none _ _ _ (all_visited _ _ _ Hinv Hst)), Hst
              in Hfuel; cbn in Hfuel; lia).
  - cbn. by rewrite Hst.
  - cbn. rewrite Hst.
    destruct (step_spec rng cols rows st Hinv) as (st1 & -> & Hinv1 & Hb);
      [by rewrite Hst|].
    cbn [mbind outcome_bind JS.bind]. apply IH; [done|lia].
Qed.

Lemma init_walled cols rows g0 :
  1 <= cols -> 1 <= rows ->
  update (initGrid cols rows) (0, 0) markVisited = Returns g0 ->
  walled cols rows
    {| grid := g0; stack := [(0, 0)]; current := (0, 0);
       draws := O; carved := O |}.
Proof.
  intros Hc Hr Hup.
  assert (inb cols rows (0, 0)) as H00 by (unfold inb; cbn; lia).
  assert (forall p, look g0 p =
            if decide (p = (0, 0)) then Some (markVisited allWalls)
            else if decide (inb cols rows p) then Some allWalls else None)
    as Hlook.
  { intros p. rewrite (look_update _ _ _ _ p Hup), !look_initGrid.
    case_decide; [|done]. by rewrite decide_True. }
  assert (forall p w, isOpen g0 p w = false) as Hopen.
  { intros p w. unfold isOpen. rewrite Hlook. repeat case_decide; by destruct w. }
  assert (closedFlags cols rows g0 = (4 * Z.to_nat (cols * rows))%nat)
    as Hflags.
  { unfold closedFlags. rewrite (filter_length_ext _ (fun _ => true)).
    - rewrite <- length_allFlags by lia.
      induction (allFlags cols rows); cbn; lia.
    - intros [p w] _. cbn. by rewrite Hopen. }
  split; cbn [grid stack current draws carved].
  - intros p [c Hp]. rewrite Hlook in Hp. repeat case_decide; by subst.
  - intros. by rewrite !Hopen.
  - intros. apply Hopen.
  - lia.
  - done.
Qed.

(** The state at the end of the loop, for any budget that suffices. *)
Lemma carveMaze_walled rng cols rows fuel st :
  1 <= cols -> 1 <= rows ->
  carveMaze fuel rng cols rows = Returns st ->
  invariant cols rows st /\ walled cols rows st /\ stack st = [].
Proof.
  intros Hc Hr Hrun.
  destruct (init_invariant cols rows Hc Hr) as (g0 & Hup & Hinv & _).
  unfold carveMaze in Hrun. rewrite Hup in Hrun.
  cbn [mbind outcome_bind JS.bind] in Hrun.
  eapply loop_walled; [done| |done]. by apply init_walled.
Qed.

(** The two breaches change the two flags they name and nothing else. *)
Lemma openEnds_look cols rows g g' :
  openEnds cols rows g = Returns g' ->
  (forall q w, isOpen g' q w =
     if decide (q = (cols - 1, rows - 1) /\ w = Bottom) then true
     else if decide (q = (0, 0) /\ w = Top) then true else isOpen g q w)
  /\ (forall q, is_Some (look g' q) <-> is_Some (look g q))
  /\ (forall q, isVisited g' q = isVisited g q).
Proof.
  unfold openEnds. intros (g1 & Hup1 & Hup2)%bind_Returns. split_and!.
  - intros q w. rewrite (isOpen_clearWall _ _ _ _ _ _ Hup2).
    by rewrite (isOpen_clearWall _ _ _ _ _ _ Hup1).
  - intros q. rewrite (look_update _ _ _ _ q Hup2).
    destruct (decide (q = (cols - 1, rows - 1))) as [->|].
    all: rewrite ?fmap_is_Some, (look_update _ _ _ _ _ Hup1).
    all: case_decide as Heq; [by rewrite fmap_is_Some, Heq|done].
  - intros q. unfold isVisited. rewrite (look_update _ _ _ _ q Hup2).
    destruct (decide (q = (cols - 1, rows - 1))) as [->|].
    all: rewrite (look_update _ _ _ _ _ Hup1).
    all: case_decide as Heq; rewrite ?Heq.
    all: destruct (look g _) as [c|]; cbn; by rewrite ?visited_clearWall.
Qed.

Lemma unvisited_pos cols rows g q :
  inb cols rows q -> isVisited g q = false ->
  (0 < unvisited cols rows g)%nat.
Proof.
  intros Hq Hu. unfold unvisited.
  assert (q ∈ List.filter (fun p => negb (isVisited g p)) (allCells cols rows))
    as Hin.
  { apply list_elem_of_In, filter_In. split.
    - by apply list_elem_of_In, elem_of_allCells.
    - by rewrite Hu. }
  destruct (List.filter _ _); [by apply elem_of_nil in Hin|cbn; lia].
Qed.

(** The loop body reads the random stream at position [draws st] only, and
    only while fewer than [cols * rows - 1] draws were made. *)
Lemma step_draws rng rng' cols rows st :
  invariant cols rows st -> walled cols rows st ->
  (forall k, (S k < Z.to_nat (cols * rows))%nat -> rng k = rng' k) ->
  step rng cols rows st = step rng' cols rows st.
Proof.
  intros Hinv Hw Hrng. pose proof Hinv as [].
  destruct (neighbors_spec cols rows (grid st) (current st))
    as (ns & Hns & Hmem); [done..|].
  unfold step. rewrite Hns. cbn [mbind outcome_bind JS.bind].
  destruct (decide (ns = [])) as [->|Hnil]; [done|].
  rewrite Hrng; [done|]. destruct ns as [|[q w] ns]; [done|].
  destruct (proj1 (Hmem q w)) as (_ & Hq & Hu); [by left|].
  pose proof (unvisited_pos _ _ _ _ Hq Hu). destruct Hw. lia.
Qed.

Lemma loop_draws rng rng' cols rows fuel st :
  invariant cols rows st -> walled cols rows st ->
  (forall k, (S k < Z.to_nat (cols * rows))%nat -> rng k = rng' k) ->
  loop fuel rng cols rows st = loop fuel rng' cols rows st.
Proof.
  intros Hinv Hw Hrng. revert st Hinv Hw.
  induction fuel as [|fuel IH]; intros st Hinv Hw; [done|]. cbn.
  destruct (stack st) as [|top rest] eqn:Hst; [done|].
  rewrite <- (step_draws rng rng') by done.
  destruct (step_spec rng cols rows st Hinv) as (st1 & Hstep & Hinv1 & _);
    [by rewrite Hst|].
  rewrite Hstep. cbn [mbind outcome_bind JS.bind]. apply IH; [done|].
  apply (step_walled rng cols rows st); [done|done| |done]. by rewrite Hst.
Qed.

(** *** The strokes of [drawMaze] *)

Lemma cellStrokes_cellWalls cellSize g p c :
  look g p = Some c ->
  cellStrokes cellSize p.1 p.2 c = cellWalls cellSize g p.
Proof.
  intros Hl. unfold cellStrokes, cellWalls, isOpen. rewrite Hl.
  by destruct c as [[] [] [] [] ?].
Qed.

Lemma rowStrokes_spec cellSize g y xs acc :
  (forall x, x ∈ xs -> is_Some (look g (x, y))) ->
  rowStrokes cellSize g y xs acc
  = Returns (acc ++ (xs ≫= fun x => cellWalls cellSize g (x, y))).
Proof.
  revert acc. induction xs as [|x xs IH]; intros acc Hxs; cbn.
  - by rewrite app_nil_r.
  - destruct (Hxs x) as [c Hc]; [by left|]. unfold deref. rewrite Hc.
    cbn [mbind outcome_bind JS.bind].
    rewrite IH by (intros; apply Hxs; by right).
    by rewrite (cellStrokes_cellWalls _ g (x, y)), <- app_assoc.
Qed.

Lemma gridStrokes_spec cellSize cols g ys acc :
  (forall x y, x ∈ seqZ 0 cols -> y ∈ ys -> is_Some (look g (x, y))) ->
  gridStrokes cellSize cols g ys acc
  = Returns (acc ++ ((ys ≫= fun y => (fun x => (x, y)) <$> seqZ 0 cols)
                     ≫= cellWalls cellSize g)).
Proof.
  revert acc. induction ys as [|y ys IH]; intros acc Hys; cbn.
  - by rewrite app_nil_r.
  - rewrite rowStrokes_spec by (intros; apply Hys; [done|by left]).
    cbn [mbind outcome_bind JS.bind].
    rewrite IH by (intros; apply Hys; [done|by right]).
    rewrite bind_app, <- app_assoc. do 3 f_equal.
    clear. generalize (cellWalls cellSize g). intros f.
    induction (seqZ 0 cols) as [|x xs IHx]; [done|]. cbn. by rewrite IHx.
Qed.

Lemma wallStrokes_spec cellSize cols rows g :
  (forall p, inb cols rows p -> is_Some (look g p)) ->
  wallStrokes cellSize cols rows g
  = Returns (allCells cols rows ≫= cellWalls cellSize g).
Proof.
  intros Hcells. unfold wallStrokes. rewrite gridStrokes_spec; [done|].
  intros x y Hx%elem_of_seqZ Hy%elem_of_seqZ. apply Hcells.
  unfold inb. cbn. lia.
Qed.

(** One stroke per flag that is set. *)
Lemma length_cellWalls cellSize cols rows g :
  length (allCells cols rows ≫= cellWalls cellSize g)
  = closedFlags cols rows g.
Proof.
  unfold closedFlags, allFlags.
  induction (allCells cols rows) as [|p l IH]; [done|]. cbn in *.
  rewrite length_app, IH. unfold cellWalls. rewrite length_fmap. cbn.
  by destruct (isOpen g p Top), (isOpen g p Right), (isOpen g p Bottom),
    (isOpen g p Left).
Qed.

Lemma elem_of_cellWalls cellSize cols rows g s :
  s ∈ allCells cols rows ≫= cellWalls cellSize g
  <-> exists p w, inb cols rows p /\ isOpen g p w = false
                  /\ s = wallSegment cellSize p w.
Proof.
  rewrite list_elem_of_bind. unfold cellWalls. split.
  - intros (p & Hs & Hp%elem_of_allCells).
    apply list_elem_of_fmap in Hs as (w & -> & Hw).
    apply list_elem_of_In, filter_In in Hw as [_ Hw].
    exists p, w. by rewrite <- negb_true_iff.
  - intros (p & w & Hp & Hw & ->). exists p.
    split; [|by apply elem_of_allCells]. apply list_elem_of_fmap.
    exists w. split; [done|]. apply list_elem_of_In, filter_In.
    rewrite Hw. split; [|done]. destruct w; cbn; tauto.
Qed.

(** Distinct flags are stroked as distinct directed segments. *)
Lemma wallSegment_inj cellSize p q w w' :
  0 < cellSize ->
  wallSegment cellSize p w = wallSegment cellSize q w' -> p = q /\ w = w'.
Proof.
  intros Hs. destruct p as [x y], q as [x' y'].
  destruct w, w'; cbn; intros [= H1 H2 H3 H4]; try lia.
  all: split; [f_equal; nia|done].
Qed.

(** A missing cell of the grid stops the drawing. *)
Lemma rowStrokes_missing cellSize g y xs acc x :
  x ∈ xs -> look g (x, y) = None ->
  rowStrokes cellSize g y xs acc = Throws TypeError.
Proof.
  revert acc. induction xs as [|x' xs IH]; intros acc Hx Hl.
  - by apply elem_of_nil in Hx.
  - cbn. unfold deref. destruct (look g (x', y)) as [c|] eqn:Hc; [|done].
    cbn [mbind outcome_bind JS.bind]. apply IH; [|done].
    apply elem_of_cons in Hx as [->|Hx]; [congruence|done].
Qed.

Lemma rowStrokes_total cellSize g y xs acc :
  (exists ss, rowStrokes cellSize g y xs acc = Returns ss)
  \/ rowStrokes cellSize g y xs acc = Throws TypeError.
Proof.
  revert acc. induction xs as [|x xs IH]; intros acc; cbn; [eauto|].
  unfold deref. destruct (look g (x, y)); [|by right]. apply IH.
Qed.

Lemma gridStrokes_missing cellSize cols g ys acc x y :
  x ∈ seqZ 0 cols -> y ∈ ys -> look g (x, y) = None ->
  gridStrokes cellSize cols g ys acc = Throws TypeError.
Proof.
  intros Hx. revert acc. induction ys as [|y' ys IH]; intros acc Hy Hl.
  - by apply elem_of_nil in Hy.
  - cbn. apply elem_of_cons in Hy as [->|Hy].
    + by rewrite (rowStrokes_missing _ _ _ _ _ x).
    + destruct (rowStrokes_total cellSize g y' (seqZ 0 cols) acc)
        as [[ss ->]| ->]; [|done].
      cbn [mbind outcome_bind JS.bind]. by apply IH.
Qed.

(** *** The returned maze *)

Lemma generateMaze_final rng cols rows fuel :
  1 <= cols -> 1 <= rows ->
  (2 * Z.to_nat (cols * rows) - 1 <= fuel)%nat ->
  exists st g,
    carveMaze fuel rng cols rows = Returns st
    /\ generateMaze fuel rng cols rows = Returns g
    /\ invariant cols rows st /\ walled cols rows st /\ stack st = []
    /\ (forall q w, isOpen g q w =
          if decide (q = (cols - 1, rows - 1) /\ w = Bottom) then true
          else if decide (q = (0, 0) /\ w = Top) then true
          else isOpen (grid st) q w)
    /\ (forall q, is_Some (look g q) <-> is_Some (look (grid st) q))
    /\ (forall q, isVisited g q = isVisited (grid st) q).
Proof.
  intros Hc Hr Hfuel.
  destruct (generateMaze_spec rng cols rows fuel Hc Hr Hfuel)
    as (st & g & Hrun & Hgen & _).
  destruct (carveMaze_walled _ _ _ _ _ Hc Hr Hrun) as (Hinv & Hw & Hst).
  exists st, g. split_and!; try done.
  all: unfold generateMaze in Hgen; rewrite Hrun in Hgen.
  all: cbn [mbind outcome_bind JS.bind] in Hgen.
  all: by apply openEnds_look in Hgen as (? & ? & ?).
Qed.

Lemma carved_final cols rows st :
  invariant cols rows st -> stack st = [] ->
  S (carved st) = Z.to_nat (cols * rows).
Proof.
  intros Hinv Hst. pose proof (inv_count _ _ _ Hinv) as Hcnt.
  rewrite (unvisited_none _ _ _ (all_visited _ _ _ Hinv Hst)) in Hcnt. lia.
Qed.

Lemma closedFlags_final cols rows st g :
  1 <= cols -> 1 <= rows ->
  invariant cols rows st -> walled cols rows st -> stack st = [] ->
  (forall q w, isOpen g q w =
     if decide (q = (cols - 1, rows - 1) /\ w = Bottom) then true
     else if decide (q = (0, 0) /\ w = Top) then true
     else isOpen (grid st) q w) ->
  closedFlags cols rows g = (2 * Z.to_nat (cols * rows))%nat.
Proof.
  intros Hc Hr Hinv Hw Hst Hopen.
  pose proof (carved_final _ _ _ Hinv Hst) as Hcarved.
  pose proof (wl_flags _ _ _ Hw) as Hflags. unfold closedFlags in *.
  assert (inb cols rows (0, 0)) as H0 by (unfold inb; cbn; lia).
  assert (inb cols rows (cols - 1, rows - 1)) as H1 by (unfold inb; cbn; lia).
  rewrite (filter_length_drop2 _ (fun e => negb (isOpen g e.1 e.2)) _
             ((0, 0), Top) ((cols - 1, rows - 1), Bottom)) in Hflags.
  - lia.
  - apply NoDup_allFlags.
  - done.
  - by apply elem_of_allFlags.
  - by apply elem_of_allFlags.
  - cbn. rewrite (wl_border _ _ _ Hw); [done..|]. unfold inb. cbn. lia.
  - cbn. rewrite (wl_border _ _ _ Hw); [done..|]. unfold inb. cbn. lia.
  - cbn. rewrite Hopen. case_decide; [done|]. by rewrite decide_True.
  - cbn. by rewrite Hopen, decide_True.
  - intros [q w] _ Hn0 Hn1. cbn. rewrite Hopen.
    rewrite !decide_False; [done|..]; by intros [-> ->].
Qed.

End MazeWalls.

(** ** The maze *)

Import Maze MazeFacts MazeWalls.

(** In the maze that [generateMaze] returns, the wall between two adjacent
    cells is present on both sides or absent on both sides, and the outer
    walls all stand except the top wall of cell (0,0), the entrance, and the
    bottom wall of cell (cols-1, rows-1), the exit. *)
Theorem maze_walls_agree (rng : nat -> nat) (cols rows : Z) (fuel : nat) :
  1 <= cols -> 1 <= rows ->
  (2 * Z.to_nat (cols * rows) - 1 <= fuel)%nat ->
  exists g,
    generateMaze fuel rng cols rows = Returns g
    /\ (forall p w, inb cols rows p -> inb cols rows (move w p) ->
          isOpen g p w = isOpen g (move w p) (opposite w))
    /\ (forall p w, inb cols rows p -> ~ inb cols rows (move w p) ->
          (isOpen g p w = true
           <-> (p = (0, 0) /\ w = Top)
               \/ (p = (cols - 1, rows - 1) /\ w = Bottom))).
Proof.
  intros Hc Hr Hfuel.
  destruct (generateMaze_final rng cols rows fuel Hc Hr Hfuel)
    as (st & g & _ & Hgen & Hinv & Hw & _ & Hopen & _).
  exists g. split; [done|]. split.
  - intros p w Hp Hm. rewrite !Hopen.
    rewrite (decide_False (P := p = _ /\ w = Bottom)).
    2:{ intros [-> ->]. revert Hm. unfold inb. cbn. lia. }
    rewrite (decide_False (P := p = _ /\ w = Top)).
    2:{ intros [-> ->]. revert Hm. unfold inb. cbn. lia. }
    rewrite (decide_False (P := move w p = _ /\ _ = Bottom)).
    2:{ intros [Hm' Ho]. destruct w; try done. revert Hp Hm'.
        unfold inb. destruct p. cbn. intros ? [=]. lia. }
    rewrite (decide_False (P := move w p = _ /\ _ = Top)).
    2:{ intros [Hm' Ho]. destruct w; try done. revert Hp Hm'.
        unfold inb. destruct p. cbn. intros ? [=]. lia. }
    by apply (wl_both _ _ _ Hw).
  - intros p w Hp Hm. rewrite Hopen, (wl_border _ _ _ Hw) by done.
    repeat case_decide; split; (done || tauto).
Qed.

Lemma maze_walls_agree_witness :
  exists g,
    generateMaze 7 (fun k => k) 2 2 = Returns g
    /\ (forall p w, inb 2 2 p -> inb 2 2 (move w p) ->
          isOpen g p w = isOpen g (move w p) (opposite w))
    /\ (forall p w, inb 2 2 p -> ~ inb 2 2 (move w p) ->
          (isOpen g p w = true
           <-> (p = (0, 0) /\ w = Top) \/ (p = (2 - 1, 2 - 1) /\ w = Bottom))).
Proof. apply (maze_walls_agree (fun k => k) 2 2 7); [lia|lia|vm_compute; lia]. Defined.

(** The grid that [generateMaze] returns has a cell object exactly at the
    positions [(x, y)] with [0 <= x < cols] and [0 <= y < rows], and every
    one of them carries [visited = true]: the bookkeeping flag of the
    carving stays set in the result. *)
Theorem maze_grid_cells (rng : nat -> nat) (cols rows : Z) (fuel : nat) :
  1 <= cols -> 1 <= rows ->
  (2 * Z.to_nat (cols * rows) - 1 <= fuel)%nat ->
  exists g,
    generateMaze fuel rng cols rows = Returns g
    /\ (forall p, is_Some (look g p) <-> inb cols rows p)
    /\ (forall p c, look g p = Some c -> visited c = true).
Proof.
  intros Hc Hr Hfuel.
  destruct (generateMaze_final rng cols rows fuel Hc Hr Hfuel)
    as (st & g & _ & Hgen & Hinv & Hw & Hst & _ & Hlook & Hvis).
  exists g. split; [done|]. split.
  - intros p. rewrite Hlook. split.
    + apply (wl_cells _ _ _ Hw).
    + apply (inv_cells _ _ _ Hinv).
  - intros p c Hp.
    assert (inb cols rows p) as Hin.
    { apply (wl_cells _ _ _ Hw), Hlook. eauto. }
    pose proof (all_visited _ _ _ Hinv Hst p Hin) as Hv.
    rewrite <- Hvis in Hv. unfold isVisited in Hv. by rewrite Hp in Hv.
Qed.

Lemma maze_grid_cells_witness :
  exists g,
    generateMaze 11 (fun k => 3 * k)%nat 3 2 = Returns g
    /\ (forall p, is_Some (look g p) <-> inb 3 2 p)
    /\ (forall p c, look g p = Some c -> visited c = true).
Proof.
  apply (maze_grid_cells (fun k => 3 * k)%nat 3 2 11);
    [lia|lia|vm_compute; lia].
Defined.

(** The loop of [generateMaze] runs exactly [2 * cols * rows - 1] times:
    with a budget of fewer iterations the run is cut off, with that budget
    or more it ends. The count does not depend on the random draws. *)
Theorem maze_loop_iterations (rng : nat -> nat) (cols rows : Z) (fuel : nat) :
  1 <= cols -> 1 <= rows ->
  (generateMaze fuel rng cols rows = Timeout
   <-> (fuel < 2 * Z.to_nat (cols * rows) - 1)%nat)
  /\ ((exists g, generateMaze fuel rng cols rows = Returns g)
      <-> (2 * Z.to_nat (cols * rows) - 1 <= fuel)%nat).
Proof.
  intros Hc Hr.
  assert ((fuel < 2 * Z.to_nat (cols * rows) - 1)%nat ->
          generateMaze fuel rng cols rows = Timeout) as Hlow.
  { intros Hfuel.
    destruct (init_invariant cols rows Hc Hr) as (g0 & Hup & Hinv & Hcnt).
    unfold generateMaze, carveMaze. rewrite Hup.
    cbn [mbind outcome_bind JS.bind].
    rewrite (loop_timeout rng cols rows fuel); [done..|].
    unfold budget. cbn. lia. }
  assert ((2 * Z.to_nat (cols * rows) - 1 <= fuel)%nat ->
          exists g, generateMaze fuel rng cols rows = Returns g) as Hhigh.
  { intros Hfuel.
    destruct (generateMaze_spec rng cols rows fuel Hc Hr Hfuel)
      as (st & g & _ & Hgen & _). eauto. }
  split; split; try done.
  - intros Hto.
    destruct (Nat.lt_ge_cases fuel (2 * Z.to_nat (cols * rows) - 1))
      as [|Hge]; [done|].
    destruct (Hhigh Hge) as [g Hg]. congruence.
  - intros [g Hg].
    destruct (Nat.lt_ge_cases fuel (2 * Z.to_nat (cols * rows) - 1))
      as [Hlt|]; [|done].
    rewrite (Hlow Hlt) in Hg. done.
Qed.

Lemma maze_loop_iterations_witness :
  (generateMaze 48 (fun k => k) 5 5 = Timeout
   <-> (48 < 2 * Z.to_nat (5 * 5) - 1)%nat)
  /\ ((exists g, generateMaze 48 (fun k => k) 5 5 = Returns g)
      <-> (2 * Z.to_nat (5 * 5) - 1 <= 48)%nat).
Proof. apply (maze_loop_iterations (fun k => k) 5 5 48); lia. Defined.

(** [generateMaze] calls [Math.random] exactly [cols * rows - 1] times, once
    per carved wall: the run ends with that many draws consumed, and two
    random streams that agree on their first [cols * rows - 1] draws give
    the same result, whatever the step budget. *)
Theorem maze_random_draws (rng : nat -> nat) (cols rows : Z) :
  1 <= cols -> 1 <= rows ->
  (forall fuel, (2 * Z.to_nat (cols * rows) - 1 <= fuel)%nat ->
     exists st, carveMaze fuel rng cols rows = Returns st
       /\ Z.of_nat (draws st) = cols * rows - 1)
  /\ (forall rng' fuel,
        (forall k, (S k < Z.to_nat (cols * rows))%nat -> rng k = rng' k) ->
        generateMaze fuel rng cols rows = generateMaze fuel rng' cols rows).
Proof.
  intros Hc Hr. split.
  - intros fuel Hfuel.
    destruct (generateMaze_final rng cols rows fuel Hc Hr Hfuel)
      as (st & g & Hrun & _ & Hinv & Hw & Hst & _).
    exists st. split; [done|].
    pose proof (carved_final _ _ _ Hinv Hst). rewrite (wl_draws _ _ _ Hw). nia.
  - intros rng' fuel Hrng.
    destruct (init_invariant cols rows Hc Hr) as (g0 & Hup & Hinv & _).
    unfold generateMaze, carveMaze. rewrite Hup.
    cbn [mbind outcome_bind JS.bind].
    rewrite (loop_draws rng rng'); [done..| |done]. by apply init_walled.
Qed.

Lemma maze_random_draws_witness :
  (forall fuel, (2 * Z.to_nat (2 * 2) - 1 <= fuel)%nat ->
     exists st, carveMaze fuel (fun k => k) 2 2 = Returns st
       /\ Z.of_nat (draws st) = 2 * 2 - 1)
  /\ (forall rng' fuel,
        (forall k, (S k < Z.to_nat (2 * 2))%nat -> k = rng' k) ->
        generateMaze fuel (fun k => k) 2 2 = generateMaze fuel rng' 2 2).
Proof. apply (maze_random_draws (fun k => k) 2 2); lia. Defined.

(** The wall loop of [drawMaze], on a grid that has all its [cols * rows]
    cells and with a positive cell size, strokes exactly the walls whose
    flag is set: every stroke is the segment of a wall of a cell of the
    grid, the segment of wall [w] of cell [p] is stroked if and only if the
    flag is set, and no directed segment is stroked twice. *)
Theorem drawMaze_strokes_walls (cellSize cols rows : Z) (g : Maze.Grid) :
  0 < cellSize ->
  (forall p, inb cols rows p -> is_Some (look g p)) ->
  exists ss,
    wallStrokes cellSize cols rows g = Returns ss
    /\ (forall s, s ∈ ss ->
          exists p w, inb cols rows p /\ s = wallSegment cellSize p w)
    /\ (forall p w, wallSegment cellSize p w ∈ ss
                    <-> inb cols rows p /\ isOpen g p w = false)
    /\ NoDup ss.
Proof.
  intros Hs Hcells. eexists. split; [by apply wallStrokes_spec|]. split_and!.
  - intros s (p & w & Hp & _ & ->)%elem_of_cellWalls. eauto.
  - intros p w. rewrite elem_of_cellWalls. split.
    + intros (q & w' & Hq & Hw & [-> ->]%wallSegment_inj); done.
    + intros [Hp Hw]. eauto.
  - apply NoDup_bind.
    + intros p q s _ _ Hp Hq. unfold cellWalls in Hp, Hq.
      apply list_elem_of_fmap in Hp as (w & -> & _).
      apply list_elem_of_fmap in Hq as (w' & Heq & _).
      by apply wallSegment_inj in Heq as [-> _].
    + intros p _. unfold cellWalls. apply NoDup_fmap_2.
      * intros w w' Heq. by apply wallSegment_inj in Heq as [_ ->].
      * apply NoDup_ListNoDup, List.NoDup_filter, NoDup_ListNoDup.
        repeat constructor; set_solver.
    + apply NoDup_allCells.
Qed.

Lemma drawMaze_strokes_walls_witness :
  exists ss,
    wallStrokes 18 2 1 (initGrid 2 1) = Returns ss
    /\ (forall s, s ∈ ss -> exists p w, inb 2 1 p /\ s = wallSegment 18 p w)
    /\ (forall p w, wallSegment 18 p w ∈ ss
                    <-> inb 2 1 p /\ isOpen (initGrid 2 1) p w = false)
    /\ NoDup ss.
Proof.
  apply (drawMaze_strokes_walls 18 2 1 (initGrid 2 1)); [lia|].
  intros p Hp. rewrite look_initGrid. by rewrite decide_True.
Defined.

(** [drawMaze] throws a [TypeError] when the grid lacks one of the
    [cols * rows] cells it is told to draw. *)
Theorem drawMaze_missing_cell (cellSize cols rows : Z) (g : Maze.Grid)
        (p : Z * Z) :
  inb cols rows p -> look g p = None ->
  wallStrokes cellSize cols rows g = Throws TypeError.
Proof.
  intros [Hx Hy] Hl. destruct p as [x y]. cbn in Hx, Hy.
  apply (gridStrokes_missing _ _ _ _ _ x y); [| |done].
  all: apply elem_of_seqZ; lia.
Qed.

Lemma drawMaze_missing_cell_witness :
  wallStrokes 18 3 3 (initGrid 2 3) = Throws TypeError.
Proof.
  apply (drawMaze_missing_cell 18 3 3 (initGrid 2 3) (2, 0));
    [unfold inb; cbn; lia|reflexivity].
Defined.

(** Drawing a generated maze: [drawMaze] applied to the grid that
    [generateMaze] returns makes exactly [2 * cols * rows] strokes; no stroke
    joins the two ends of the entrance (the top edge of cell (0,0)) or of
    the exit (the bottom edge of cell (cols-1, rows-1)), in either
    direction; every other outer wall is stroked. *)
Theorem drawMaze_generated_maze
        (rng : nat -> nat) (cols rows : Z) (fuel : nat) (cellSize : Z) :
  1 <= cols -> 1 <= rows ->
  (2 * Z.to_nat (cols * rows) - 1 <= fuel)%nat ->
  0 < cellSize ->
  exists g ss,
    generateMaze fuel rng cols rows = Returns g
    /\ wallStrokes cellSize cols rows g = Returns ss
    /\ Z.of_nat (length ss) = 2 * cols * rows
    /\ (forall s, s ∈ ss ->
          s <> ((0, 0), (cellSize, 0)) /\ s <> ((cellSize, 0), (0, 0)))
    /\ (forall s, s ∈ ss ->
          s <> ((cols * cellSize, rows * cellSize),
                ((cols - 1) * cellSize, rows * cellSize))
          /\ s <> (((cols - 1) * cellSize, rows * cellSize),
                   (cols * cellSize, rows * cellSize)))
    /\ (forall p w, inb cols rows p -> ~ inb cols rows (move w p) ->
          (p, w) <> ((0, 0), Top) ->
          (p, w) <> ((cols - 1, rows - 1), Bottom) ->
          wallSegment cellSize p w ∈ ss).
Proof.
  intros Hc Hr Hfuel Hs.
  destruct (generateMaze_final rng cols rows fuel Hc Hr Hfuel)
    as (st & g & _ & Hgen & Hinv & Hw & Hst & Hopen & Hlook & _).
  assert (forall p, inb cols rows p -> is_Some (look g p)) as Hcells.
  { intros p Hp. apply Hlook, (inv_cells _ _ _ Hinv), Hp. }
  exists g. eexists. split; [done|].
  split; [by apply wallStrokes_spec|]. split_and!.
  - rewrite length_cellWalls.
    rewrite (closedFlags_final cols rows st g) by done. nia.
  - intros s (p & w & [Hx Hy] & Hcl & ->)%elem_of_cellWalls.
    rewrite Hopen in Hcl. destruct p as [x y]. cbn in Hx, Hy.
    split; intros Heq; destruct w; cbn in Heq; injection Heq as H1 H2 H3 H4;
      try nia.
    assert (x = 0 /\ y = 0) as [-> ->] by nia.
    case_decide; [done|]. by rewrite decide_True in Hcl.
  - intros s (p & w & [Hx Hy] & Hcl & ->)%elem_of_cellWalls.
    rewrite Hopen in Hcl. destruct p as [x y]. cbn in Hx, Hy.
    split; intros Heq; destruct w; cbn in Heq; injection Heq as H1 H2 H3 H4;
      try nia.
    assert (x = cols - 1 /\ y = rows - 1) as [-> ->] by nia.
    by rewrite decide_True in Hcl.
  - intros p w Hp Hm Hn0 Hn1. apply elem_of_cellWalls. exists p, w.
    split; [done|]. split; [|done]. rewrite Hopen.
    rewrite !decide_False; [by apply (wl_border _ _ _ Hw)|..].
    all: intros [-> ->]; done.
Qed.

Lemma drawMaze_generated_maze_witness :
  exists g ss,
    generateMaze 7 (fun k => k) 2 2 = Returns g
    /\ wallStrokes 18 2 2 g = Returns ss
    /\ Z.of_nat (length ss) = 2 * 2 * 2
    /\ (forall s, s ∈ ss -> s <> ((0, 0), (18, 0)) /\ s <> ((18, 0), (0, 0)))
    /\ (forall s, s ∈ ss ->
          s <> ((2 * 18, 2 * 18), ((2 - 1) * 18, 2 * 18))
          /\ s <> (((2 - 1) * 18, 2 * 18), (2 * 18, 2 * 18)))
    /\ (forall p w, inb 2 2 p -> ~ inb 2 2 (move w p) ->
          (p, w) <> ((0, 0), Top) ->
          (p, w) <> ((2 - 1, 2 - 1), Bottom) ->
          wallSegment 18 p w ∈ ss).
Proof.
  apply (drawMaze_generated_maze (fun k => k) 2 2 7 18);
    [lia|lia|vm_compute; lia|lia].
Defined.

(** ** The word search: what a run records *)

Module WordSearchRuns.
Import JSFacts WordSearch WordSearchFacts.

Lemma floorRandom_nonneg r n : 0 <= floorRandom r n.
Proof.
  unfold floorRandom. destruct (Z.leb_spec n 0); [lia|].
  apply Z.mod_pos_bound. lia.
Qed.

Lemma elem_of_cellsOf d x y len p :
  p ∈ cellsOf d x y len <-> exists i, 0 <= i < len /\ p = cellOf d x y i.
Proof.
  unfold cellsOf. rewrite list_elem_of_fmap. split.
  - intros (i & -> & Hi%elem_of_seqZ). exists i. split; [lia|done].
  - intros (i & Hi & ->). exists i. split; [done|]. apply elem_of_seqZ. lia.
Qed.

(** With nothing placed, no cell is in conflict. *)
Lemma canPlaceFrom_nil g d x y i letters :
  canPlaceFrom g [] d x y i letters = Returns true.
Proof. revert i. induction letters as [|c rest IH]; intros i; cbn; auto. Qed.

Section Runs.
Context (normalize : string -> list ascii) (rng : nat -> nat) (gridSize : Z).

(** The cells of an attempt: rows in the grid, columns left of the right
    edge and right of [-gridSize]. *)
Lemma anchor_bounds k len d x y :
  0 <= len <= gridSize ->
  anchor rng gridSize k len = (d, x, y) ->
  0 <= d < 4
  /\ forall p, p ∈ cellsOf d x y len ->
       0 <= p.2 < gridSize /\ - gridSize < p.1 < gridSize.
Proof.
  intros Hlen Ha.
  destruct (anchor_spec rng gridSize k len Hlen)
    as (d' & x' & y' & Ha' & Hd & Hrows & Hright & _).
  rewrite Ha in Ha'. injection Ha' as <- <- <-. split; [done|].
  intros p (i & Hi & ->)%elem_of_cellsOf.
  split; [by apply Hrows|]. split; [|by apply Hright].
  assert (0 <= x) as Hx.
  { unfold anchor in Ha. injection Ha as _ <- _. apply floorRandom_nonneg. }
  rewrite cellOf_cases by done. cbn.
  repeat match goal with
         | |- context [?a =? ?b] => destruct (Z.eqb_spec a b)
         end; lia.
Qed.

(** What one attempt does to the state. *)
Lemma attempt_effect st w :
  Z.of_nat (length w) <= gridSize -> sound gridSize st ->
  exists st' b,
    attempt rng gridSize st w = Returns (st', b)
    /\ sound gridSize st'
    /\ draws st' = S (S (S (draws st)))
    /\ (b = false -> grid st' = grid st /\ placedWords st' = placedWords st)
    /\ (b = true -> exists d x y,
          anchor rng gridSize (draws st) (Z.of_nat (length w)) = (d, x, y)
          /\ placedWords st'
             = placedWords st
               ++ [{| word := w;
                      path := cellsOf d x y (Z.of_nat (length w)) |}]
          /\ forall p, p ∉ cellsOf d x y (Z.of_nat (length w)) ->
               look (grid st') p = look (grid st) p)
    /\ (placedWords st = [] -> b = true).
Proof.
  intros Hlen Hsound.
  destruct (attempt_spec rng gridSize st w Hlen Hsound)
    as (st' & b & Hrun & Hsound' & Hrej & _).
  exists st', b. split; [done|]. split; [done|].
  destruct (anchor rng gridSize (draws st) (Z.of_nat (length w)))
    as [[d x] y] eqn:Ha.
  destruct (anchor_bounds (draws st) (Z.of_nat (length w)) d x y)
    as [Hd Hcells]; [lia|done|].
  rewrite (attempt_unfold _ _ _ _ _ _ _ Ha) in Hrun.
  apply bind_Returns in Hrun as (ok & Hcheck & Hrun). destruct ok.
  - apply bind_Returns in Hrun as ([g' pth] & Hwrite & Hrun).
    injection Hrun as <- <-. cbn [fst snd draws grid placedWords] in *.
    destruct (writeFrom_spec gridSize (grid st) d x y w 0 [] Hd (proj1 Hsound))
      as (g'' & Hwrite' & _ & _ & Hout).
    { intros j Hj. apply Hcells, elem_of_cellsOf. exists (0 + Z.of_nat j).
      split; [lia|done]. }
    rewrite Hwrite in Hwrite'. injection Hwrite' as <- ->.
    split_and!; try done. intros _. exists d, x, y. split_and!; try done.
    intros p Hp. apply Hout. intros j Hj ->. apply Hp, elem_of_cellsOf.
    exists (0 + Z.of_nat j). split; [lia|done].
  - injection Hrun as <- <-. cbn [draws placedWords]. split_and!; try done.
    intros Hnil. rewrite Hnil, canPlaceFrom_nil in Hcheck. by injection Hcheck.
Qed.

Lemma grows_refl st : grows gridSize st st [] 0.
Proof. unfold grows. rewrite app_nil_r. split_and!; auto. Qed.

Lemma grows_trans st st1 st2 a1 a2 k1 k2 :
  grows gridSize st st1 a1 k1 -> grows gridSize st1 st2 a2 k2 ->
  grows gridSize st st2 (a1 ++ a2) (k1 + k2).
Proof.
  intros (Hp1 & Hs1 & Hf1 & Hd1 & Hl1) (Hp2 & Hs2 & Hf2 & Hd2 & Hl2).
  unfold grows. split_and!.
  - by rewrite Hp2, Hp1, app_assoc.
  - by apply Forall_app.
  - intros p Hp. rewrite Hf2, Hf1; [done|..].
    all: intros pw Hpw; apply Hp, elem_of_app; auto.
  - lia.
  - rewrite length_app. lia.
Qed.

(** A rejected attempt, then the rest of the run. *)
Lemma grows_rejected st st1 st2 added k :
  grid st1 = grid st -> placedWords st1 = placedWords st ->
  draws st1 = S (S (S (draws st))) ->
  grows gridSize st1 st2 added k -> grows gridSize st st2 added (S k).
Proof.
  intros Hg Hp Hd (Hp2 & Hs2 & Hf2 & Hd2 & Hl2). unfold grows.
  rewrite <- Hg, <- Hp. split_and!; try done; lia.
Qed.

(** The retry loop: at most [budget] attempts, at most one record, which is
    the word itself; with nothing placed yet the first attempt is
    accepted. *)
Lemma retry_effect budget st w :
  Z.of_nat (length w) <= gridSize -> sound gridSize st ->
  exists st' added k,
    retry rng gridSize budget st w = Returns st'
    /\ sound gridSize st'
    /\ grows gridSize st st' added k
    /\ (k <= budget)%nat
    /\ sublist (word <$> added) [w]
    /\ (placedWords st = [] -> (0 < budget)%nat ->
        exists d x y,
          anchor rng gridSize (draws st) (Z.of_nat (length w)) = (d, x, y)
          /\ added = [{| word := w;
                         path := cellsOf d x y (Z.of_nat (length w)) |}]).
Proof.
  intros Hlen. revert st. induction budget as [|budget IH]; intros st Hst.
  - exists st, [], O. split_and!; try done.
    + apply grows_refl.
    + apply sublist_nil_l.
    + lia.
  - cbn [retry].
    destruct (attempt_effect st w Hlen Hst)
      as (st1 & b & -> & Hst1 & Hd & Hrej & Hacc & Hfirst).
    cbn [mbind outcome_bind JS.bind snd fst]. destruct b.
    + destruct (Hacc eq_refl) as (d & x & y & Ha & Hp & Hf).
      destruct (anchor_bounds (draws st) (Z.of_nat (length w)) d x y)
        as [Hdir Hcells]; [lia|done|].
      eexists st1, _, 1%nat. split_and!; try done.
      * unfold grows. split_and!; [exact Hp| | |lia|cbn; lia].
        -- constructor; [|done]. by exists d, x, y.
        -- intros p Hpw. apply Hf.
           apply (Hpw {| word := w; path := cellsOf d x y _ |}). by left.
      * lia.
      * done.
      * intros _ _. by exists d, x, y.
    + destruct (Hrej eq_refl) as [Hg Hp].
      destruct (IH st1 Hst1) as (st2 & added & k & Hrun & Hst2 & Hgr & Hk & Hsub & _).
      exists st2, added, (S k). split_and!; try done.
      * by eapply grows_rejected.
      * lia.
      * intros Hnil. by specialize (Hfirst Hnil).
Qed.

(** The loop over the words. *)
Lemma placeWords_effect words st :
  sound gridSize st ->
  exists st' added k,
    placeWords normalize rng gridSize st words = Returns st'
    /\ sound gridSize st'
    /\ grows gridSize st st' added k
    /\ (k <= 50 * length (List.filter (fitsGrid gridSize)
                            (normalize <$> words)))%nat
    /\ sublist (word <$> added)
         (List.filter (fitsGrid gridSize) (normalize <$> words)).
Proof.
  revert st. induction words as [|w words IH]; intros st Hst.
  - exists st, [], O.
    split_and!; [done|done|apply grows_refl|lia|apply sublist_nil_l].
  - rewrite fmap_cons. cbn [placeWords List.filter]. unfold placeWord.
    destruct (Z.ltb_spec gridSize (Z.of_nat (length (normalize w))))
      as [Hlong|Hfit].
    + assert (fitsGrid gridSize (normalize w) = false) as ->
        by (by apply Z.leb_gt).
      cbn [mbind outcome_bind JS.bind]. by apply IH.
    + assert (fitsGrid gridSize (normalize w) = true) as ->
        by (by apply Z.leb_le).
      destruct (retry_effect 50 st (normalize w) Hfit Hst)
        as (st1 & a1 & k1 & -> & Hst1 & Hg1 & Hk1 & Hs1 & _).
      cbn [mbind outcome_bind JS.bind].
      destruct (IH st1 Hst1) as (st2 & a2 & k2 & -> & Hst2 & Hg2 & Hk2 & Hs2).
      exists st2, (a1 ++ a2), (k1 + k2)%nat. split_and!; try done.
      * by eapply grows_trans.
      * cbn [length]. lia.
      * rewrite fmap_app.
        by apply (sublist_app _ [normalize w]).
Qed.

(** The first word that is not too long is recorded by the first attempt
    made. *)
Lemma placeWords_first skipped w rest st :
  sound gridSize st -> placedWords st = [] ->
  Forall (fun v => fitsGrid gridSize (normalize v) = false) skipped ->
  fitsGrid gridSize (normalize w) = true ->
  exists st' d x y tail,
    placeWords normalize rng gridSize st (skipped ++ w :: rest) = Returns st'
    /\ anchor rng gridSize (draws st) (Z.of_nat (length (normalize w)))
       = (d, x, y)
    /\ placedWords st'
       = {| word := normalize w;
            path := cellsOf d x y (Z.of_nat (length (normalize w))) |}
         :: tail.
Proof.
  intros Hst Hnil Hskip Hfit. apply Z.leb_le in Hfit.
  induction Hskip as [|v skipped Hv _ IH]; cbn [app placeWords].
  - unfold placeWord.
    rewrite (proj2 (Z.ltb_ge _ _)) by done.
    destruct (retry_effect 50 st (normalize w) Hfit Hst)
      as (st1 & a1 & k1 & -> & Hst1 & Hg1 & _ & _ & Hfirst).
    destruct Hfirst as (d & x & y & Ha & ->); [done|lia|].
    cbn [mbind outcome_bind JS.bind].
    destruct (placeWords_effect rest st1 Hst1)
      as (st2 & a2 & k2 & -> & _ & Hg2 & _).
    exists st2, d, x, y, a2. split; [done|]. split; [done|].
    destruct Hg1 as [Hp1 _], Hg2 as [Hp2 _]. by rewrite Hp2, Hp1, Hnil.
  - unfold placeWord at 1. apply Z.leb_gt in Hv.
    rewrite (proj2 (Z.ltb_lt _ _)) by done.
    cbn [mbind outcome_bind JS.bind]. apply IH.
Qed.

Lemma lookup_tabulate {A} (f : Z -> A) (l : list Z) (m : gmap Z A) k :
  foldl (fun row x => <[x := f x]> row) m l !! k
  = if decide (k ∈ l) then Some (f k) else m !! k.
Proof.
  revert m. induction l as [|x l IH]; intros m; cbn.
  - rewrite decide_False; [done|]. apply not_elem_of_nil.
  - rewrite IH. destruct (decide (k ∈ l)) as [Hin|Hin].
    + rewrite decide_True; [done|]. by right.
    + destruct (decide (k = x)) as [->|Hne].
      * rewrite lookup_insert_eq, decide_True; [done|]. by left.
      * rewrite lookup_insert_ne by done. rewrite decide_False; [done|].
        by intros [?|?]%elem_of_cons.
Qed.

(** The filler: cell [(x, y)] of the grid takes the draw number
    [y * gridSize + x]. *)
Lemma look_fillerGrid p :
  look (fillerGrid rng gridSize) p
  = if decide (inGrid gridSize p)
    then Some (fromCharCode
                 (65 + floorRandom (rng (Z.to_nat (p.2 * gridSize + p.1))) 26))
    else None.
Proof.
  unfold look, fillerGrid, inGrid.
  rewrite (lookup_tabulate (fun y => fillerRow rng gridSize _)).
  destruct (decide (p.2 ∈ seqZ 0 gridSize)) as [Hy|Hy].
  - unfold fillerRow.
    rewrite (lookup_tabulate (fun x => fromCharCode _)).
    apply elem_of_seqZ in Hy.
    destruct (decide (p.1 ∈ seqZ 0 gridSize)) as [Hx|Hx].
    + apply elem_of_seqZ in Hx. rewrite decide_True by lia.
      rewrite Z2Nat.inj_add by nia. done.
    + rewrite decide_False; [done|]. rewrite elem_of_seqZ in Hx. lia.
  - rewrite decide_False; [done|]. rewrite elem_of_seqZ in Hy. lia.
Qed.

Lemma isCapital_filler r : isCapital (fromCharCode (65 + floorRandom r 26)).
Proof.
  pose proof (floorRandom_range r 26 ltac:(lia)).
  unfold isCapital, fromCharCode. rewrite nat_ascii_embedding; lia.
Qed.

End Runs.

(** *** The letters drawn *)

Lemma textRow_spec g y xs acc :
  is_Some (g !! y) ->
  textRow g y xs acc = Returns (acc ++ ((fun x => drawOf g (x, y)) <$> xs)).
Proof.
  intros [row Hrow]. revert acc.
  induction xs as [|x xs IH]; intros acc; cbn [textRow].
  - by rewrite app_nil_r.
  - rewrite Hrow, IH, <- app_assoc. do 2 f_equal. cbn.
    unfold drawOf, look. cbn [fst snd]. by rewrite Hrow.
Qed.

Lemma textRows_spec gridSize g ys acc :
  (forall y, y ∈ ys -> is_Some (g !! y)) ->
  textRows gridSize g ys acc
  = Returns (acc ++ (drawOf g
                       <$> (ys ≫= fun y => (fun x => (x, y))
                                             <$> seqZ 0 gridSize))).
Proof.
  revert acc. induction ys as [|y ys IH]; intros acc Hys; cbn [textRows].
  - cbn. by rewrite app_nil_r.
  - rewrite textRow_spec by (apply Hys; by left).
    cbn [mbind outcome_bind JS.bind].
    rewrite IH by (intros; apply Hys; by right).
    rewrite <- app_assoc. do 2 f_equal. cbn.
    by rewrite fmap_app, <- list_fmap_compose.
Qed.

Lemma letterDraws_spec gridSize g :
  hasRows gridSize g ->
  letterDraws gridSize g
  = Returns (drawOf g <$> Maze.allCells gridSize gridSize).
Proof.
  intros Hrows. unfold letterDraws. rewrite textRows_spec; [done|].
  intros y Hy%elem_of_seqZ. apply Hrows. lia.
Qed.

End WordSearchRuns.

(** ** The word search *)

Import WordSearch WordSearchFacts WordSearchRuns.

Lemma generateWordSearch_effect normalize rng gridSize words :
  exists st k,
    generateWordSearch normalize rng gridSize words = Returns st
    /\ sound gridSize st
    /\ grows gridSize
         {| grid := fillerGrid rng gridSize; placedWords := [];
            draws := Z.to_nat (gridSize * gridSize) |}
         st (placedWords st) k
    /\ (k <= 50 * length (List.filter (fitsGrid gridSize)
                            (normalize <$> words)))%nat
    /\ sublist (word <$> placedWords st)
         (List.filter (fitsGrid gridSize) (normalize <$> words)).
Proof.
  destruct (placeWords_effect normalize rng gridSize words
              {| grid := fillerGrid rng gridSize; placedWords := [];
                 draws := Z.to_nat (gridSize * gridSize) |})
    as (st & added & k & Hrun & Hst & Hg & Hk & Hsub).
  { split; [apply fillerGrid_rows|].
    intros pw i p Hpw. by apply elem_of_nil in Hpw. }
  assert (placedWords st = added) as <- by (by destruct Hg as [-> _]).
  by exists st, k.
Qed.

(** Every record of [placedWords] is a straight run: its path has as many
    cells as the word has letters, goes in one of the four directions from
    its first cell, stays within the rows of the grid and never passes the
    right edge; a column may be negative, but stays above [-gridSize]. The
    word is not longer than the grid is wide. *)
Theorem wordsearch_paths_straight
        (normalize : string -> list ascii) (rng : nat -> nat) (gridSize : Z)
        (words : list string) :
  exists st,
    generateWordSearch normalize rng gridSize words = Returns st
    /\ forall pw, pw ∈ placedWords st ->
         exists d x y,
           0 <= d < 4
           /\ path pw = cellsOf d x y (Z.of_nat (length (word pw)))
           /\ Z.of_nat (length (word pw)) <= gridSize
           /\ forall p, p ∈ path pw ->
                0 <= p.2 < gridSize /\ - gridSize < p.1 < gridSize.
Proof.
  destruct (generateWordSearch_effect normalize rng gridSize words)
    as (st & k & Hrun & _ & (_ & Hs & _) & _).
  exists st. split; [done|]. intros pw Hpw.
  by apply (proj1 (Forall_forall _ _) Hs pw).
Qed.

(** The placed words are, in the order of the input, some of the input
    words, normalised, that are not longer than the grid is wide: no word is
    placed twice for one occurrence in the input, none is invented, none
    that is too long is placed. *)
Theorem wordsearch_words_in_order
        (normalize : string -> list ascii) (rng : nat -> nat) (gridSize : Z)
        (words : list string) :
  exists st,
    generateWordSearch normalize rng gridSize words = Returns st
    /\ sublist (word <$> placedWords st)
         (List.filter (fitsGrid gridSize) (normalize <$> words)).
Proof.
  destruct (generateWordSearch_effect normalize rng gridSize words)
    as (st & k & Hrun & _ & _ & _ & Hsub).
  by exists st.
Qed.

(** The random filler of the letter grid: the cell in column [x] of row [y]
    is set from the draw number [y * gridSize + x], to the capital letter
    at that offset from A; no cell outside the [gridSize] x [gridSize]
    square is set. *)
Theorem wordsearch_filler_letters (rng : nat -> nat) (gridSize : Z) :
  (forall p, look (fillerGrid rng gridSize) p
     = if decide (inGrid gridSize p)
       then Some (fromCharCode
                    (65 + floorRandom
                            (rng (Z.to_nat (p.2 * gridSize + p.1))) 26))
       else None)
  /\ (forall p c, look (fillerGrid rng gridSize) p = Some c -> isCapital c).
Proof.
  split; [apply look_fillerGrid|]. intros p c. rewrite look_fillerGrid.
  case_decide; [|done]. intros [= <-]. apply isCapital_filler.
Qed.

(** In the result of [generateWordSearch] every cell that lies on the path
    of no placed word still holds its random filler letter, and every cell
    of the grid holds a letter. *)
Theorem wordsearch_filler_kept
        (normalize : string -> list ascii) (rng : nat -> nat) (gridSize : Z)
        (words : list string) :
  exists st,
    generateWordSearch normalize rng gridSize words = Returns st
    /\ (forall p, (forall pw, pw ∈ placedWords st -> p ∉ path pw) ->
          look (grid st) p = look (fillerGrid rng gridSize) p)
    /\ (forall p, inGrid gridSize p -> is_Some (look (grid st) p)).
Proof.
  destruct (generateWordSearch_effect normalize rng gridSize words)
    as (st & k & Hrun & [_ Hcons] & (_ & _ & Hframe & _) & _).
  cbn [grid] in Hframe.
  exists st. split; [done|]. split; [done|]. intros p Hp.
  destruct (decide (onPath (placedWords st) p = true)) as [Hon|Hoff].
  - apply onPath_true in Hon as (pw & Hpw & Hin).
    apply list_elem_of_lookup in Hin as [i Hi].
    destruct (Hcons pw i p Hpw Hi) as (c & _ & ->). eauto.
  - rewrite Hframe.
    + rewrite look_fillerGrid, decide_True by done. eauto.
    + intros pw Hpw Hin. apply Hoff, onPath_true. eauto.
Qed.

(** The first word of the list that is not longer than the grid is wide is
    always placed, by the first attempt made: it heads [placedWords], on the
    cells given by the three draws that follow the filling of the grid. *)
Theorem wordsearch_first_word_placed
        (normalize : string -> list ascii) (rng : nat -> nat) (gridSize : Z)
        (skipped : list string) (w : string) (rest : list string) :
  Forall (fun v => gridSize < Z.of_nat (length (normalize v))) skipped ->
  Z.of_nat (length (normalize w)) <= gridSize ->
  exists st d x y tail,
    generateWordSearch normalize rng gridSize (skipped ++ w :: rest)
    = Returns st
    /\ anchor rng gridSize (Z.to_nat (gridSize * gridSize))
         (Z.of_nat (length (normalize w))) = (d, x, y)
    /\ placedWords st
       = {| word := normalize w;
            path := cellsOf d x y (Z.of_nat (length (normalize w))) |}
         :: tail.
Proof.
  intros Hskip Hfit. unfold generateWordSearch.
  apply (placeWords_first normalize rng gridSize skipped w rest
           {| grid := fillerGrid rng gridSize; placedWords := [];
              draws := Z.to_nat (gridSize * gridSize) |}).
  - split; [apply fillerGrid_rows|].
    intros pw i p Hpw. by apply elem_of_nil in Hpw.
  - done.
  - eapply Forall_impl; [exact Hskip|]. intros v Hv. by apply Z.leb_gt.
  - by apply Z.leb_le.
Qed.

Lemma wordsearch_first_word_placed_witness :
  exists st d x y tail,
    generateWordSearch list_ascii_of_string (fun k => k) 5
      (["RAINBOW"%string] ++ "ARK"%string :: ["DOVE"%string])
    = Returns st
    /\ anchor (fun k => k) 5 (Z.to_nat (5 * 5))
         (Z.of_nat (length (list_ascii_of_string "ARK"))) = (d, x, y)
    /\ placedWords st
       = {| word := list_ascii_of_string "ARK";
            path := cellsOf d x y
                      (Z.of_nat (length (list_ascii_of_string "ARK"))) |}
         :: tail.
Proof.
  apply (wordsearch_first_word_placed list_ascii_of_string (fun k => k) 5
           ["RAINBOW"%string] "ARK" ["DOVE"%string]).
  - repeat constructor.
  - vm_compute. discriminate.
Defined.


(** The drawing part of [generateWordSearch] writes one letter per cell of
    the [gridSize] x [gridSize] square, row by row, at the centre of the
    cell's 18-pixel box, and the text is always a letter, never
    [undefined]. A letter that the placement loop stored left of column 0
    is not drawn. *)
Theorem wordsearch_letters_drawn
        (normalize : string -> list ascii) (rng : nat -> nat) (gridSize : Z)
        (words : list string) :
  0 <= gridSize ->
  exists st ds,
    generateWordSearch normalize rng gridSize words = Returns st
    /\ letterDraws gridSize (grid st) = Returns ds
    /\ Z.of_nat (length ds) = gridSize * gridSize
    /\ NoDup ds
    /\ (forall d, d ∈ ds <->
          exists p c, inGrid gridSize p /\ look (grid st) p = Some c
            /\ d = (Some c, p.1 * 18 + 9, p.2 * 18 + 9)).
Proof.
  intros Hsize.
  destruct (generateWordSearch_effect normalize rng gridSize words)
    as (st & k & Hrun & [Hrows Hcons] & (_ & _ & Hframe & _) & _).
  cbn [grid] in Hframe.
  assert (forall p, inGrid gridSize p -> is_Some (look (grid st) p)) as Hfull.
  { intros p Hp.
    destruct (decide (onPath (placedWords st) p = true)) as [Hon|Hoff].
    - apply onPath_true in Hon as (pw & Hpw & Hin).
      apply list_elem_of_lookup in Hin as [i Hi].
      destruct (Hcons pw i p Hpw Hi) as (c & _ & ->). eauto.
    - rewrite Hframe.
      + rewrite look_fillerGrid, decide_True by done. eauto.
      + intros pw Hpw Hin. apply Hoff, onPath_true. eauto. }
  exists st. eexists. split; [done|].
  split; [by apply letterDraws_spec|]. split_and!.
  - rewrite length_fmap, MazeFacts.length_allCells by done. nia.
  - apply NoDup_fmap_2; [|apply MazeFacts.NoDup_allCells].
    intros [x y] [x' y']. unfold drawOf, cellSize. cbn.
    intros [= _ Hx Hy]. f_equal; lia.
  - intros d. rewrite list_elem_of_fmap. split.
    + intros (p & -> & Hp%MazeFacts.elem_of_allCells).
      destruct (Hfull p Hp) as [c Hc]. exists p, c.
      split; [done|]. split; [done|]. unfold drawOf. by rewrite Hc.
    + intros (p & c & Hp & Hc & ->). exists p.
      split; [|by apply MazeFacts.elem_of_allCells].
      unfold drawOf. by rewrite Hc.
Qed.

Lemma wordsearch_letters_drawn_witness :
  exists st ds,
    generateWordSearch list_ascii_of_string (fun k => k) 4 ["ARK"%string]
    = Returns st
    /\ letterDraws 4 (grid st) = Returns ds
    /\ Z.of_nat (length ds) = 4 * 4
    /\ NoDup ds
    /\ (forall d, d ∈ ds <->
          exists p c, inGrid 4 p /\ look (grid st) p = Some c
            /\ d = (Some c, p.1 * 18 + 9, p.2 * 18 + 9)).
Proof.
  apply (wordsearch_letters_drawn list_ascii_of_string (fun k => k) 4
           ["ARK"%string]).
  lia.
Defined.

(** ** The crossword: layout and numbering for any letters *)

Module CrosswordRuns.
Import JSFacts Crossword CrosswordFacts.

Lemma tryPlace_roomy gp w gp' :
  wellFormed gp -> roomy gp -> tryPlace gp w = Returns gp' -> roomy gp'.
Proof.
  intros Hwf Hroomy Hrun.
  destruct (tryPlace_spec gp w Hwf) as (gp'' & Hrun' & _ & Hcase).
  rewrite Hrun in Hrun'. injection Hrun' as <-.
  destruct Hcase as [->|(e & Hplaced & Hfits & Hin & Hout)]; [done|].
  destruct Hroomy as [Hcells Hinside Hanchor].
  destruct Hfits as (Ht & Hok & pw & i & j & ltr & Hpw & Hi & Hj & Hv & Hx).
  destruct (canPlaceWord_true _ _ _ _ _ Hok) as [Hrange _].
  rewrite (arrayLength_rows _ (wf_rows _ Hwf)) in Hrange.
  apply lookup_lt_Some in Hi as Hilt. apply lookup_lt_Some in Hj as Hjlt.
  destruct (Hinside pw (Z.of_nat j) Hpw ltac:(lia)) as [Hpr Hpc].
  rewrite <- Hx in Hpr, Hpc.
  assert (forall k, 0 <= k < Z.of_nat (length (letters w)) ->
            0 <= (cellOfEntry e k).1 < gridSize
            /\ 0 <= (cellOfEntry e k).2 < gridSize) as Hein.
  { intros k Hk. unfold cellOfEntry, cellAt, gridSize in *.
    destruct (vertical e); cbn in *; lia. }
  assert (forall rc,
    (exists k ch, letters w !! k = Some ch /\ rc = cellOfEntry e (Z.of_nat k)
                  /\ cellValue gp'.1 rc = Some ch)
    \/ (cellValue gp'.1 rc = cellValue gp.1 rc)) as Hwk.
  { intros rc.
    destruct (written_or_kept gp.1 gp'.1 (row e) (col e) (vertical e)
                (letters w)) with (rc := rc) as [?|[? _]]; auto. }
  split.
  - intros r c Hr. destruct (Hwk (r, c)) as [(k & ch & Hk & Heq & ->)| ->];
      [|by apply Hcells].
    apply lookup_lt_Some in Hk. destruct (Hein (Z.of_nat k)) as [_ Hc]; [lia|].
    rewrite <- Heq in Hc. cbn in Hc. split; [done|eauto].
  - intros e' k. rewrite Hplaced.
    intros [He'| ->%list_elem_of_singleton]%elem_of_app Hk; [auto|].
    apply Hein. by rewrite <- Ht.
  - intros e'. rewrite Hplaced.
    intros [He'| ->%list_elem_of_singleton]%elem_of_app; [auto|].
    destruct (Hein 0) as [Hr0 Hc0]; [lia|].
    unfold cellOfEntry, cellAt in Hr0, Hc0.
    destruct (vertical e); cbn in *; rewrite ?Z.add_0_r in *; done.
Qed.

Lemma seed_roomy firstWord g :
  Z.of_nat (length (letters firstWord)) <= 15 ->
  seed firstWord = Returns (g, [seedEntry firstWord]) ->
  roomy (g, [seedEntry firstWord]).
Proof.
  intros Hlen. set (entry := seedEntry firstWord). unfold seed.
  change (gridSize / 2) with 7.
  change ((gridSize - Z.of_nat (length (letters firstWord))) / 2) with (col entry).
  destruct (writeLetters_spec emptyGrid 7 (col entry) false
              (letters firstWord) 0) as (g' & -> & Hr & Hin & Hout).
  { intros j Hj. cbn. by rewrite lookup_emptyGrid, decide_True. }
  cbn [mbind outcome_bind JS.bind]. intros [= <-].
  pose proof (written_or_kept emptyGrid g' _ _ _ _ Hin Hout) as Hwk.
  assert (0 <= col entry < 15
          /\ col entry + Z.of_nat (length (letters firstWord)) <= 15)
    as Hcol.
  { cbn. split; [split; [apply Z.div_pos; lia|]|].
    - apply Z.div_lt_upper_bound; lia.
    - pose proof (Z.mul_div_le (15 - Z.of_nat (length (letters firstWord))) 2).
      lia. }
  assert (forall k, (k < length (letters firstWord))%nat ->
            0 <= (cellAt 7 (col entry) false (Z.of_nat k)).2 < 15) as Hspan.
  { intros k Hk. cbn [cellAt snd]. lia. }
  split; cbn [fst snd]; unfold gridSize.
  - intros r c Hr'. destruct (Hwk (r, c)) as [(k & ch & Hk & Heq & ->)|[-> _]].
    + apply lookup_lt_Some, Hspan in Hk. rewrite <- Heq in Hk. cbn in Hk.
      split; [done|eauto].
    + unfold cellValue. cbn. rewrite look_emptyGrid.
      case_decide; split; eauto; try tauto. by intros [? ?].
  - intros e i ->%list_elem_of_singleton Hi. unfold cellOfEntry.
    subst entry. cbn [seedEntry row col vertical text cellAt fst snd] in *.
    lia.
  - intros e ->%list_elem_of_singleton. subst entry.
    cbn [seedEntry row col] in *. lia.
Qed.

Lemma tryPlaceAll_roomy ws gp gp' :
  wellFormed gp -> roomy gp -> tryPlaceAll gp ws = Returns gp' -> roomy gp'.
Proof.
  revert gp. induction ws as [|w ws IH]; intros gp Hwf Hroomy;
    cbn [tryPlaceAll].
  - by intros [= <-].
  - destruct (tryPlace_spec gp w Hwf) as (gp1 & Hrun & Hwf1 & _).
    rewrite Hrun. cbn [mbind outcome_bind JS.bind].
    apply IH; [done|]. by apply (tryPlace_roomy gp w).
Qed.

(** The layout for a seed that fits, whatever letters the words use. *)
Lemma layoutAfter_roomy n firstWord rest :
  Z.of_nat (length (letters firstWord)) <= 15 ->
  exists gp more,
    layoutAfter n (firstWord :: rest) = Returns gp
    /\ wellFormed gp /\ roomy gp
    /\ gp.2 = seedEntry firstWord :: more.
Proof.
  intros Hlen.
  destruct (layoutAfter_spec n firstWord rest)
    as (gp & Hrun & Hwf & [more Hmore] & _).
  exists gp, more. split_and!; try done.
  unfold layoutAfter in Hrun.
  destruct (seed_spec firstWord) as (g & Hseed & Hwf0 & _).
  rewrite Hseed in Hrun. cbn [mbind outcome_bind JS.bind] in Hrun.
  eapply tryPlaceAll_roomy; [exact Hwf0| |exact Hrun].
  by apply seed_roomy.
Qed.

(** *** The numbering pass *)

Lemma numbered_cons n pw pws :
  numbered n (pw :: pws) = (n, pw) :: numbered (n + 1) pws.
Proof.
  unfold numbered. cbn [length]. rewrite seqZ_cons by lia. cbn [zip zip_with].
  do 3 f_equal. lia.
Qed.

Lemma elem_of_numbered n pws k e :
  (k, e) ∈ numbered n pws <-> exists i, pws !! i = Some e /\ k = n + Z.of_nat i.
Proof.
  revert n. induction pws as [|pw pws IH]; intros n.
  - split; [by intros ?%elem_of_nil|by intros (i & ? & _)].
  - rewrite numbered_cons, elem_of_cons, IH. split.
    + intros [[= -> ->]|(i & Hi & ->)].
      * exists O. split; [done|lia].
      * exists (S i). split; [done|lia].
    + intros ([|i] & Hi & ->).
      * left. injection Hi as ->. f_equal. lia.
      * right. exists i. split; [done|lia].
Qed.

Lemma setNumber_twice k n (o : option DisplayCell) :
  setNumber k <$> (setNumber n <$> o) = setNumber k <$> o.
Proof. by destruct o. Qed.

(** The clue lists grow in placement order with the running number, and a
    cell shows the number of the last entry anchored on it. *)
Lemma numberWords_clues pws cw n cw' :
  numberWords cw n pws = Returns cw' ->
  across cw' = across cw ++ cluesOf false n pws
  /\ down cw' = down cw ++ cluesOf true n pws
  /\ forall r c, look (grid cw') (c, r) =
       match lastNumber n pws (r, c) with
       | Some k => setNumber k <$> look (grid cw) (c, r)
       | None => look (grid cw) (c, r)
       end.
Proof.
  revert cw n. induction pws as [|pw pws IH]; intros cw n Hrun;
    cbn [numberWords] in Hrun.
  - injection Hrun as <-. unfold cluesOf. cbn. by rewrite !app_nil_r.
  - apply bind_Returns in Hrun as (dg & Hdg & Hrun).
    apply IH in Hrun as (Ha & Hd & Hg).
    unfold cluesOf, lastNumber in *. rewrite numbered_cons.
    cbn [List.filter fst snd].
    split_and!.
    + rewrite Ha. destruct (vertical pw); cbn [across]; [done|].
      rewrite bool_decide_eq_true_2 by done. by rewrite <- app_assoc.
    + rewrite Hd. destruct (vertical pw); cbn [down]; [|done].
      rewrite bool_decide_eq_true_2 by done. by rewrite <- app_assoc.
    + intros r c. rewrite Hg.
      assert (look (grid (if vertical pw
                then {| grid := dg; across := across cw;
                        down := down cw ++ [{| clueNumber := n;
                                 clue := getClue (text pw) |}] |}
                else {| grid := dg;
                        across := across cw ++ [{| clueNumber := n;
                                   clue := getClue (text pw) |}];
                        down := down cw |})) (c, r)
              = if decide ((row pw, col pw) = (r, c))
                then setNumber n <$> look (grid cw) (c, r)
                else look (grid cw) (c, r)) as ->.
      { assert (forall b (x y : Crossword), grid x = dg -> grid y = dg ->
                  grid (if b : bool then x else y) = dg) as Hif
          by (by intros []).
        rewrite Hif by done. rewrite (look_update _ _ _ _ _ Hdg).
        destruct (decide ((row pw, col pw) = (r, c))) as [[= <- <-]|Hne].
        - by rewrite decide_True.
        - rewrite decide_False; [done|]. intros [= -> ->]. done. }
      destruct (decide ((row pw, col pw) = (r, c))) as [Heq|Hne].
      * rewrite bool_decide_eq_true_2 by done. rewrite fmap_cons, last_cons.
        cbn [fst]. destruct (last _); [|done]. apply setNumber_twice.
      * by rewrite bool_decide_eq_false_2 by done.
Qed.

(** [generateCrossword] returns whenever the seed fits the grid. *)
Lemma generateCrossword_numbered firstWord rest :
  Z.of_nat (length (letters firstWord)) <= 15 ->
  exists g placed cw,
    layout (firstWord :: rest) = Returns (g, placed)
    /\ generateCrossword (firstWord :: rest) = Returns cw
    /\ wellFormed (g, placed) /\ roomy (g, placed)
    /\ (exists more, placed = seedEntry firstWord :: more)
    /\ across cw = cluesOf false 1 placed
    /\ down cw = cluesOf true 1 placed
    /\ forall r c, look (grid cw) (c, r) =
         match lastNumber 1 placed (r, c) with
         | Some k => setNumber k <$> look (toDisplay g) (c, r)
         | None => look (toDisplay g) (c, r)
         end.
Proof.
  intros Hlen. unfold generateCrossword, layout.
  destruct (layoutAfter_roomy 7 firstWord rest Hlen)
    as ([g placed] & more & Hrun & Hwf & Hroomy & Hmore).
  rewrite Hrun. cbn [mbind outcome_bind JS.bind fst snd] in *.
  destruct (numberWords_spec placed
              {| grid := toDisplay g; across := []; down := [] |} 1)
    as (cw & Hnum & _).
  { intros e He. cbn [grid].
    destruct (roomy_anchor _ Hroomy e He) as [Hr Hc]. unfold gridSize in *.
    rewrite look_toDisplay, decide_True by lia.
    apply fmap_is_Some, (roomy_cells _ Hroomy (row e) (col e)); done. }
  exists g, placed, cw. split_and!; try done; [by exists more|..].
  all: by apply numberWords_clues in Hnum as (? & ? & ?).
Qed.

Lemma cluesOf_lengths n pws :
  (length (cluesOf false n pws) + length (cluesOf true n pws))%nat
  = length pws.
Proof.
  revert n. induction pws as [|pw pws IH]; intros n; [done|].
  unfold cluesOf in *. rewrite numbered_cons. cbn [List.filter snd].
  specialize (IH (n + 1)). rewrite !length_fmap in *.
  destruct (vertical pw); repeat case_bool_decide; try done; cbn; lia.
Qed.

Lemma elem_of_cluesOf vert n pws ce :
  ce ∈ cluesOf vert n pws
  <-> exists i e, pws !! i = Some e /\ vertical e = vert
                  /\ ce = {| clueNumber := n + Z.of_nat i;
                             clue := getClue (text e) |}.
Proof.
  unfold cluesOf. rewrite list_elem_of_fmap. split.
  - intros ([k e] & -> & Hin). apply list_elem_of_In, filter_In in Hin.
    destruct Hin as [Hin Hv]. apply bool_decide_eq_true in Hv.
    apply list_elem_of_In, elem_of_numbered in Hin as (i & Hi & ->).
    by exists i, e.
  - intros (i & e & Hi & Hv & ->). exists (n + Z.of_nat i, e).
    split; [done|]. apply list_elem_of_In, filter_In. split.
    + apply list_elem_of_In, elem_of_numbered. by exists i.
    + by apply bool_decide_eq_true.
Qed.

Lemma lookup_numbered n pws i :
  numbered n pws !! i = (fun e => (n + Z.of_nat i, e)) <$> pws !! i.
Proof.
  revert n i. induction pws as [|pw pws IH]; intros n i; [done|].
  rewrite numbered_cons. destruct i as [|i]; cbn.
  - do 2 f_equal. lia.
  - rewrite IH. destruct (pws !! i); cbn; [|done]. do 2 f_equal. lia.
Qed.

Lemma last_filter_Some {A} (P : A -> bool) (l : list A) (a : A) :
  last (List.filter P l) = Some a ->
  exists l1 l2, l = l1 ++ a :: l2 /\ P a = true
                /\ Forall (fun b => P b = false) l2.
Proof.
  induction l as [|b l IH]; [done|]. cbn.
  destruct (P b) eqn:Hb.
  - rewrite last_cons. destruct (last (List.filter P l)) as [y|] eqn:Hl.
    + intros [= ->]. destruct IH as (l1 & l2 & -> & Ha & Hl2); [done|].
      by exists (b :: l1), l2.
    + intros [= ->]. exists [], l. split_and!; try done.
      apply last_None in Hl. apply Forall_forall. intros c Hc.
      destruct (P c) eqn:Hc'; [|done].
      assert (c ∈ List.filter P l) as Hin
        by (by apply list_elem_of_In, filter_In; rewrite <- list_elem_of_In).
      rewrite Hl in Hin. by apply elem_of_nil in Hin.
  - intros Hl. destruct (IH Hl) as (l1 & l2 & -> & Ha & Hl2).
    by exists (b :: l1), l2.
Qed.

Lemma last_filter_None {A} (P : A -> bool) (l : list A) :
  last (List.filter P l) = None <-> Forall (fun b => P b = false) l.
Proof.
  rewrite last_None. induction l as [|b l IH]; cbn.
  - split; [constructor|done].
  - rewrite Forall_cons. destruct (P b); [|tauto]. split; [done|].
    by intros [? _].
Qed.

(** The number a cell shows: that of the last entry anchored on it. *)
Lemma lastNumber_Some n pws rc k :
  lastNumber n pws rc = Some k ->
  exists i e, pws !! i = Some e /\ k = n + Z.of_nat i
    /\ (row e, col e) = rc
    /\ forall j e', (i < j)%nat -> pws !! j = Some e' ->
         (row e', col e') <> rc.
Proof.
  unfold lastNumber. rewrite fmap_last. intros Hl.
  apply fmap_Some in Hl as ([k' e] & Hl & ->).
  apply last_filter_Some in Hl as (l1 & l2 & Hsplit & Hp & Hl2).
  apply bool_decide_eq_true in Hp. cbn [snd] in Hp.
  assert (numbered n pws !! length l1 = Some (k', e)) as Hat.
  { rewrite Hsplit. by rewrite list_lookup_middle. }
  rewrite lookup_numbered in Hat. apply fmap_Some in Hat as (e0 & He0 & [= -> ->]).
  exists (length l1), e0. split_and!; try done.
  intros j e' Hj He'.
  assert (numbered n pws !! j = Some (n + Z.of_nat j, e')) as Hj'
    by (by rewrite lookup_numbered, He').
  rewrite Hsplit in Hj'. rewrite lookup_app_r in Hj' by lia.
  destruct (j - length l1)%nat as [|m] eqn:Hm; [lia|]. cbn in Hj'.
  apply list_elem_of_lookup_2 in Hj'.
  apply (proj1 (Forall_forall _ _) Hl2) in Hj'.
  by apply bool_decide_eq_false in Hj'.
Qed.

Lemma lastNumber_None n pws rc :
  lastNumber n pws rc = None
  <-> forall e, e ∈ pws -> (row e, col e) <> rc.
Proof.
  unfold lastNumber. rewrite fmap_last, fmap_None, last_filter_None.
  rewrite Forall_forall. split.
  - intros H e He. apply list_elem_of_lookup in He as [i Hi].
    specialize (H (n + Z.of_nat i, e)). cbn in H.
    eapply bool_decide_eq_false_1, H, elem_of_numbered. by exists i.
  - intros H [k e] (i & Hi & _)%elem_of_numbered. cbn.
    apply bool_decide_eq_false_2, H. by eapply list_elem_of_lookup_2.
Qed.

(** *** Which words are placed *)

Lemma tryPlaceAll_texts ws gp :
  wellFormed gp ->
  exists gp' more,
    tryPlaceAll gp ws = Returns gp'
    /\ gp'.2 = gp.2 ++ more
    /\ sublist (text <$> more) ws.
Proof.
  revert gp. induction ws as [|w ws IH]; intros gp Hwf; cbn [tryPlaceAll].
  - exists gp, []. by rewrite app_nil_r.
  - destruct (tryPlace_spec gp w Hwf) as (gp1 & -> & Hwf1 & Hcase).
    cbn [mbind outcome_bind JS.bind].
    destruct (IH gp1 Hwf1) as (gp' & more & -> & Hmore & Hsub).
    destruct Hcase as [->|(e & He & (Ht & _) & _)].
    + exists gp', more. split_and!; try done. by apply sublist_cons.
    + exists gp', (e :: more). split_and!; try done.
      * by rewrite Hmore, He, <- app_assoc.
      * rewrite fmap_cons, Ht. by apply sublist_skip.
Qed.

(** A candidate that has no letter in common with the words placed so far
    is passed over. *)
Lemma tryPlace_disjoint gp w :
  wellFormed gp ->
  (forall pw ch, pw ∈ gp.2 -> ch ∈ letters w -> ch ∉ letters (text pw)) ->
  tryPlace gp w = Returns gp.
Proof.
  intros Hwf Hdis.
  destruct (tryPlace_spec gp w Hwf) as (gp' & -> & _ & Hcase).
  destruct Hcase as [->|(e & _ & (_ & _ & Hx) & _)]; [done|].
  destruct Hx as (pw & i & j & ltr & Hpw & Hi & Hj & _).
  exfalso. apply (Hdis pw ltr Hpw); by eapply list_elem_of_lookup_2.
Qed.

(** *** [canPlaceWord] and [placeWord] on their own *)

Lemma hasRows_emptyGrid : hasRows emptyGrid.
Proof.
  intros r. rewrite lookup_emptyGrid. unfold gridSize.
  case_decide; split; eauto; try done.
Qed.

Lemma hasRows_None g r : hasRows g -> ~ 0 <= r < 15 -> g !! r = None.
Proof.
  intros Hrows Hr. destruct (g !! r) eqn:Hg; [|done].
  exfalso. apply Hr, Hrows. eauto.
Qed.

(** Writing stops with a [TypeError] at the first letter whose row is
    missing. *)
Lemma writeLetters_throws g r c vert i rest j :
  hasRows g -> (j < length rest)%nat ->
  ~ 0 <= (cellAt r c vert (i + Z.of_nat j)).1 < 15 ->
  writeLetters g r c vert i rest = Throws TypeError.
Proof.
  revert g i j. induction rest as [|ch rest IH]; intros g i j Hrows Hj Hout;
    [cbn in Hj; lia|].
  cbn [writeLetters]. unfold store at 1. cbn [fst snd].
  destruct (g !! (cellAt r c vert i).1) as [rw|] eqn:Hrw; [|done].
  cbn [mbind outcome_bind JS.bind]. destruct j as [|j].
  - rewrite Z.add_0_r in Hout. exfalso. apply Hout, Hrows. eauto.
  - apply (IH _ _ j); [|cbn in Hj; lia|].
    + intros k. rewrite <- (Hrows k).
      destruct (decide (k = (cellAt r c vert i).1)) as [->|Hne].
      * rewrite lookup_insert_eq, Hrw. split; eauto.
      * by rewrite lookup_insert_ne.
    + by replace (i + 1 + Z.of_nat j) with (i + Z.of_nat (S j)) by lia.
Qed.

(** On cells that hold the letters of the word, none of them the blank
    marker, the check loops run through. *)
Lemma canPlaceDown_written g size len r c rest i :
  (forall j ch, rest !! j = Some ch ->
     ch <> "_"%char /\ look g (c, r + (i + Z.of_nat j)) = Some ch) ->
  canPlaceDown g size len r c i rest = Returns true.
Proof.
  revert i. induction rest as [|ch rest IH]; intros i Hcells; [done|].
  cbn [canPlaceDown]. destruct (Hcells O ch eq_refl) as [Hch Hl].
  rewrite Z.add_0_r in Hl. unfold peek, look in *. cbn [fst snd] in Hl.
  destruct (g !! (r + i)) as [rw|]; [|done].
  cbn [mbind outcome_bind JS.bind]. rewrite Hl.
  rewrite (bool_decide_eq_true_2 (Some ch <> Some "_"%char)) by congruence.
  rewrite (bool_decide_eq_false_2 (Some ch <> Some ch)) by auto.
  cbn [andb]. apply IH. intros j ch' Hj.
  replace (i + 1 + Z.of_nat j) with (i + Z.of_nat (S j)) by lia.
  by apply Hcells.
Qed.

Lemma canPlaceAcross_written g size len r c rest i :
  (forall j ch, rest !! j = Some ch ->
     ch <> "_"%char /\ look g (c + (i + Z.of_nat j), r) = Some ch) ->
  canPlaceAcross g size len r c i rest = Returns true.
Proof.
  revert i. induction rest as [|ch rest IH]; intros i Hcells; [done|].
  cbn [canPlaceAcross]. destruct (Hcells O ch eq_refl) as [Hch Hl].
  rewrite Z.add_0_r in Hl. unfold peek, look in *. cbn [fst snd] in Hl.
  destruct (g !! r) as [rw|]; [|done].
  cbn [mbind outcome_bind JS.bind]. rewrite Hl.
  rewrite (bool_decide_eq_true_2 (Some ch <> Some "_"%char)) by congruence.
  rewrite (bool_decide_eq_false_2 (Some ch <> Some ch)) by auto.
  cbn [andb]. apply IH. intros j ch' Hj.
  replace (i + 1 + Z.of_nat j) with (i + Z.of_nat (S j)) by lia.
  by apply Hcells.
Qed.

(** *** The clue of a word *)

(** No inherited key begins with a capital letter. *)
Lemma inheritedKeys_lower w :
  w ∈ inheritedKeys ->
  exists ch rest, w = String ch rest /\ ~ WordSearch.isCapital ch.
Proof.
  unfold inheritedKeys. intros H.
  repeat (apply elem_of_cons in H as [->|H];
          [eexists _, _; split; [reflexivity|];
           unfold WordSearch.isCapital; intros [Hlo Hhi];
           vm_compute in Hlo, Hhi; lia|]).
  by apply elem_of_nil in H.
Qed.

(** *** The neighbours [canPlaceWord] inspects *)





End CrosswordRuns.

(** ** The crossword *)

Import Crossword CrosswordFacts CrosswordRuns.

(** [generateCrossword] on a non-empty list returns if its first word has at
    most fifteen letters and throws a [TypeError] otherwise, whatever the
    other words are and whatever characters the words contain. *)
Theorem generateCrossword_returns_or_throws
        (firstWord : string) (rest : list string) :
  (Z.of_nat (length (letters firstWord)) <= 15
   /\ exists cw, generateCrossword (firstWord :: rest) = Returns cw)
  \/ (15 < Z.of_nat (length (letters firstWord))
      /\ generateCrossword (firstWord :: rest) = Throws TypeError).
Proof.
  destruct (Z.le_gt_cases (Z.of_nat (length (letters firstWord))) 15)
    as [Hlen|Hlen].
  - left. split; [done|].
    destruct (generateCrossword_numbered firstWord rest Hlen)
      as (g & placed & cw & _ & Hrun & _). eauto.
  - right. split; [done|]. by apply generateCrossword_too_long.
Qed.

(** When the first word has at most fifteen letters, every letter of every
    placed word lies inside the 15 x 15 grid, and the returned grid has a
    cell exactly at the rows and columns 0 to 14, whatever characters the
    words contain. *)
Theorem crossword_entries_inside (firstWord : string) (rest : list string) :
  Z.of_nat (length (letters firstWord)) <= 15 ->
  exists g placed cw,
    layout (firstWord :: rest) = Returns (g, placed)
    /\ generateCrossword (firstWord :: rest) = Returns cw
    /\ (forall e i, e ∈ placed ->
          0 <= i < Z.of_nat (length (letters (text e))) ->
          0 <= (cellOfEntry e i).1 < 15 /\ 0 <= (cellOfEntry e i).2 < 15)
    /\ (forall r c, is_Some (look (grid cw) (c, r))
                    <-> 0 <= r < 15 /\ 0 <= c < 15).
Proof.
  intros Hlen.
  destruct (generateCrossword_numbered firstWord rest Hlen)
    as (g & placed & cw & Hlay & Hrun & Hwf & Hroomy & _ & _ & _ & Hgrid).
  exists g, placed, cw. split_and!; try done.
  - apply (roomy_inside _ Hroomy).
  - intros r c.
    assert (is_Some (look (grid cw) (c, r))
            <-> is_Some (look (toDisplay g) (c, r))) as ->.
    { rewrite Hgrid. destruct (lastNumber 1 placed (r, c)); [|done].
      by rewrite fmap_is_Some. }
    rewrite look_toDisplay.
    pose proof (wf_rows _ Hwf r) as Hrow.
    pose proof (roomy_cells _ Hroomy r c) as Hcell.
    unfold cellValue, gridSize in *. cbn [fst snd] in *.
    case_decide as Hrc.
    + rewrite fmap_is_Some. split.
      * intros Hs. assert (0 <= r < 15) as Hr.
        { apply Hrow. unfold look in Hs. cbn in Hs.
          destruct (g !! r); [eauto|by destruct Hs]. }
        split; [done|]. by apply Hcell.
      * intros [Hr Hc]. by apply Hcell.
    + split; [by intros [? ?]|]. lia.
Qed.

Lemma crossword_entries_inside_witness :
  exists g placed cw,
    layout ["NOAH_"; "A_B"; "DOVE"]%string = Returns (g, placed)
    /\ generateCrossword ["NOAH_"; "A_B"; "DOVE"]%string = Returns cw
    /\ (forall e i, e ∈ placed ->
          0 <= i < Z.of_nat (length (letters (text e))) ->
          0 <= (cellOfEntry e i).1 < 15 /\ 0 <= (cellOfEntry e i).2 < 15)
    /\ (forall r c, is_Some (look (grid cw) (c, r))
                    <-> 0 <= r < 15 /\ 0 <= c < 15).
Proof.
  apply (crossword_entries_inside "NOAH_" ["A_B"; "DOVE"]%string).
  vm_compute. discriminate.
Defined.

(** The clues are numbered by one counter that starts at 1 and runs
    through the placed words in placement order: the word placed [k]-th
    has number [k], its clue is listed under Down if it is vertical and
    under Across otherwise, each list is in placement order, and together
    the two lists have one clue per placed word. *)
Theorem crossword_clue_numbers (firstWord : string) (rest : list string) :
  Z.of_nat (length (letters firstWord)) <= 15 ->
  exists g placed cw,
    layout (firstWord :: rest) = Returns (g, placed)
    /\ generateCrossword (firstWord :: rest) = Returns cw
    /\ across cw = cluesOf false 1 placed
    /\ down cw = cluesOf true 1 placed
    /\ (length (across cw) + length (down cw))%nat = length placed
    /\ (forall i e, placed !! i = Some e ->
          {| clueNumber := 1 + Z.of_nat i; clue := getClue (text e) |}
          ∈ (if vertical e then down cw else across cw))
    /\ (forall ce, ce ∈ across cw ++ down cw ->
          exists i e, placed !! i = Some e
            /\ clueNumber ce = 1 + Z.of_nat i
            /\ clue ce = getClue (text e)).
Proof.
  intros Hlen.
  destruct (generateCrossword_numbered firstWord rest Hlen)
    as (g & placed & cw & Hlay & Hrun & _ & _ & _ & Ha & Hd & _).
  exists g, placed, cw. rewrite Ha, Hd. split_and!; try done.
  - apply cluesOf_lengths.
  - intros i e Hi.
    destruct (vertical e) eqn:Hv; apply elem_of_cluesOf; by exists i, e.
  - intros ce [Hce|Hce]%elem_of_app.
    all: apply elem_of_cluesOf in Hce as (i & e & Hi & _ & ->).
    all: by exists i, e.
Qed.

Lemma crossword_clue_numbers_witness :
  exists g placed cw,
    layout ["NOAH"; "NET"; "XYZ"; "TEAM"]%string = Returns (g, placed)
    /\ generateCrossword ["NOAH"; "NET"; "XYZ"; "TEAM"]%string = Returns cw
    /\ across cw = cluesOf false 1 placed
    /\ down cw = cluesOf true 1 placed
    /\ (length (across cw) + length (down cw))%nat = length placed
    /\ (forall i e, placed !! i = Some e ->
          {| clueNumber := 1 + Z.of_nat i; clue := getClue (text e) |}
          ∈ (if vertical e then down cw else across cw))
    /\ (forall ce, ce ∈ across cw ++ down cw ->
          exists i e, placed !! i = Some e
            /\ clueNumber ce = 1 + Z.of_nat i
            /\ clue ce = getClue (text e)).
Proof.
  apply (crossword_clue_numbers "NOAH" ["NET"; "XYZ"; "TEAM"]%string).
  vm_compute. discriminate.
Defined.

(** A cell of the returned grid carries a number exactly when a placed word
    starts on it, and the number it carries is that of the last word placed
    that starts there: when an across and a down word start on the same
    cell, the number of the earlier one is overwritten and shows in no
    cell. *)
Theorem crossword_cell_numbers (firstWord : string) (rest : list string) :
  Z.of_nat (length (letters firstWord)) <= 15 ->
  exists g placed cw,
    layout (firstWord :: rest) = Returns (g, placed)
    /\ generateCrossword (firstWord :: rest) = Returns cw
    /\ forall r c d, look (grid cw) (c, r) = Some d ->
         number d = lastNumber 1 placed (r, c)
         /\ (hasNumber d = true
             <-> exists e, e ∈ placed /\ row e = r /\ col e = c)
         /\ (forall k, number d = Some k ->
               exists i e, placed !! i = Some e /\ k = 1 + Z.of_nat i
                 /\ row e = r /\ col e = c
                 /\ forall j e', (i < j)%nat -> placed !! j = Some e' ->
                      (row e', col e') <> (r, c)).
Proof.
  intros Hlen.
  destruct (generateCrossword_numbered firstWord rest Hlen)
    as (g & placed & cw & Hlay & Hrun & _ & _ & _ & _ & _ & Hgrid).
  exists g, placed, cw. split; [done|]. split; [done|].
  intros r c d Hd. rewrite Hgrid, look_toDisplay in Hd.
  assert (number d = lastNumber 1 placed (r, c)
          /\ hasNumber d = bool_decide (is_Some (lastNumber 1 placed (r, c))))
    as [Hnum Hhas].
  { destruct (lastNumber 1 placed (r, c)) as [k|] eqn:Hlast.
    - case_decide; [|done]. destruct (look g (c, r)); [|done].
      injection Hd as <-. done.
    - case_decide; [|done]. destruct (look g (c, r)); [|done].
      injection Hd as <-. done. }
  split; [done|]. split.
  - rewrite Hhas, bool_decide_eq_true. split.
    + intros [k Hk].
      apply lastNumber_Some in Hk as (i & e & Hi & _ & [= <- <-] & _).
      exists e. split; [by eapply list_elem_of_lookup_2|done].
    + intros (e & He & <- & <-).
      destruct (lastNumber 1 placed (row e, col e)) eqn:Hl; [eauto|].
      exfalso. by eapply (proj1 (lastNumber_None _ _ _) Hl e).
  - intros k Hk. rewrite Hnum in Hk.
    apply lastNumber_Some in Hk as (i & e & Hi & -> & [= <- <-] & Hlater).
    by exists i, e.
Qed.

Lemma crossword_cell_numbers_witness :
  exists g placed cw,
    layout ["NOAH"; "NET"]%string = Returns (g, placed)
    /\ generateCrossword ["NOAH"; "NET"]%string = Returns cw
    /\ forall r c d, look (grid cw) (c, r) = Some d ->
         number d = lastNumber 1 placed (r, c)
         /\ (hasNumber d = true
             <-> exists e, e ∈ placed /\ row e = r /\ col e = c)
         /\ (forall k, number d = Some k ->
               exists i e, placed !! i = Some e /\ k = 1 + Z.of_nat i
                 /\ row e = r /\ col e = c
                 /\ forall j e', (i < j)%nat -> placed !! j = Some e' ->
                      (row e', col e') <> (r, c)).
Proof.
  apply (crossword_cell_numbers "NOAH" ["NET"]%string).
  vm_compute. discriminate.
Defined.

(** The placement loop always ends, whatever the words are: the seed is
    the first word, across, in row 7 and centred, and the words placed after
    it are, in input order, some of the second to eighth words of the list;
    at most eight words are placed. *)
Theorem crossword_placed_words (firstWord : string) (rest : list string) :
  exists g more,
    layout (firstWord :: rest) = Returns (g, seedEntry firstWord :: more)
    /\ sublist (text <$> more) (take 7 rest)
    /\ (length (seedEntry firstWord :: more) <= 8)%nat.
Proof.
  unfold layout, layoutAfter.
  destruct (seed_spec firstWord) as (g0 & -> & Hwf & _).
  cbn [mbind outcome_bind JS.bind].
  destruct (tryPlaceAll_texts (take 7 (candidates (firstWord :: rest)))
              (g0, [seedEntry firstWord]) Hwf)
    as ([g placed] & more & -> & Hmore & Hsub).
  cbn [fst snd] in Hmore. subst placed. exists g, more.
  unfold candidates in Hsub. cbn [drop] in Hsub. rewrite take_take in Hsub.
  split_and!; [done|done|].
  apply sublist_length in Hsub. rewrite !length_fmap in Hsub.
  rewrite length_take in Hsub. cbn [length app]. lia.
Qed.

(** A candidate word that has no letter in common with any word placed so
    far is passed over: grid and placed words stay as they are. *)
Theorem crossword_disjoint_word_dropped
        (n : nat) (firstWord : string) (rest : list string) (w : string) :
  candidates (firstWord :: rest) !! n = Some w ->
  exists gp,
    layoutAfter n (firstWord :: rest) = Returns gp
    /\ ((forall pw ch, pw ∈ gp.2 -> ch ∈ letters w ->
           ch ∉ letters (text pw)) ->
        layoutAfter (S n) (firstWord :: rest) = Returns gp).
Proof.
  intros Hw.
  destruct (layoutAfter_spec n firstWord rest) as (gp & Hrun & Hwf & _).
  exists gp. split; [done|]. intros Hdis.
  rewrite (layoutAfter_S _ _ _ Hw), Hrun. cbn [mbind outcome_bind JS.bind].
  by apply tryPlace_disjoint.
Qed.

Lemma crossword_disjoint_word_dropped_witness :
  exists gp,
    layoutAfter 1 ["NOAH"; "ARK"; "BIBLE"]%string = Returns gp
    /\ ((forall pw ch, pw ∈ gp.2 -> ch ∈ letters "BIBLE" ->
           ch ∉ letters (text pw)) ->
        layoutAfter 2 ["NOAH"; "ARK"; "BIBLE"]%string = Returns gp).
Proof.
  apply (crossword_disjoint_word_dropped 1 "NOAH" ["ARK"; "BIBLE"]%string
           "BIBLE").
  reflexivity.
Defined.

(** [canPlaceWord] on a grid of fifteen rows: for a vertical placement it
    always returns a boolean; for a horizontal one it throws a [TypeError]
    exactly when the row is outside the grid while the word is not empty
    and its columns are within the grid, and returns a boolean otherwise:
    the row of a horizontal placement is never checked against the grid. *)
Theorem canPlaceWord_errors (g : Crossword.Grid) (w : string) (r c : Z) :
  hasRows g ->
  (exists b, canPlaceWord g w r c true = Returns b)
  /\ (canPlaceWord g w r c false = Throws TypeError
      <-> ~ 0 <= r < 15 /\ letters w <> []
          /\ 0 <= c /\ c + Z.of_nat (length (letters w)) <= 15)
  /\ (canPlaceWord g w r c false <> Throws TypeError ->
      exists b, canPlaceWord g w r c false = Returns b).
Proof.
  intros Hrows. split; [by apply canPlaceWord_total|].
  assert (~ 0 <= r < 15 -> letters w <> [] ->
          0 <= c -> c + Z.of_nat (length (letters w)) <= 15 ->
          canPlaceWord g w r c false = Throws TypeError) as Hthrow.
  { intros Hr Hw Hc0 Hc1. unfold canPlaceWord.
    rewrite (arrayLength_rows g Hrows).
    rewrite (proj2 (Z.ltb_ge c 0)), (proj2 (Z.ltb_ge 15 _)) by lia.
    cbn [orb]. destruct (letters w) as [|ch rest]; [done|].
    cbn [canPlaceAcross]. unfold peek.
    by rewrite Z.add_0_r, (hasRows_None g r Hrows Hr). }
  assert ((0 <= r < 15 \/ letters w = [] \/ c < 0
           \/ 15 < c + Z.of_nat (length (letters w))) ->
          exists b, canPlaceWord g w r c false = Returns b) as Hret.
  { intros [Hr|[Hw|Hc]]; [by apply canPlaceWord_total| |].
    - unfold canPlaceWord. rewrite Hw. destruct (_ || _); cbn; eauto.
    - unfold canPlaceWord. rewrite (arrayLength_rows g Hrows).
      destruct Hc as [Hc|Hc].
      + rewrite (proj2 (Z.ltb_lt c 0)) by done. cbn. eauto.
      + rewrite (proj2 (Z.ltb_lt 15 _)) by done. rewrite orb_true_r. eauto. }
  assert ((~ 0 <= r < 15 /\ letters w <> []
           /\ 0 <= c /\ c + Z.of_nat (length (letters w)) <= 15)
          \/ (0 <= r < 15 \/ letters w = [] \/ c < 0
              \/ 15 < c + Z.of_nat (length (letters w)))) as Hcases.
  { destruct (decide (0 <= r < 15)); [auto|].
    destruct (letters w) as [|ch rest] eqn:Hw; [auto|].
    destruct (decide (c < 0)); [auto 6|].
    destruct (decide (15 < c + Z.of_nat (length (ch :: rest)))); [auto 6|].
    left. split_and!; [done|done|lia|lia]. }
  split.
  - split; [|intros (? & ? & ? & ?); auto].
    intros Hth. destruct Hcases as [|Hc]; [done|].
    destruct (Hret Hc) as [b Hb]. congruence.
  - intros Hne. destruct Hcases as [(? & ? & ? & ?)|Hc]; [|auto].
    exfalso. auto.
Qed.

Lemma canPlaceWord_errors_witness :
  (exists b, canPlaceWord emptyGrid "ARK" 15 3 true = Returns b)
  /\ (canPlaceWord emptyGrid "ARK" 15 3 false = Throws TypeError
      <-> ~ 0 <= 15 < 15 /\ letters "ARK" <> []
          /\ 0 <= 3 /\ 3 + Z.of_nat (length (letters "ARK")) <= 15)
  /\ (canPlaceWord emptyGrid "ARK" 15 3 false <> Throws TypeError ->
      exists b, canPlaceWord emptyGrid "ARK" 15 3 false = Returns b).
Proof.
  apply (canPlaceWord_errors emptyGrid "ARK" 15 3). apply hasRows_emptyGrid.
Defined.

(** [placeWord] on a grid of fifteen rows, when the rows of all letters
    are in the grid: it returns, afterwards each cell of the span holds the
    letter of the word, every other cell is as before, and the grid still
    has its fifteen rows. The columns are not checked: a letter whose
    column is outside the grid is stored all the same. *)
Theorem placeWord_writes
        (g : Crossword.Grid) (w : string) (r c : Z) (vert : bool) :
  hasRows g ->
  (forall i, 0 <= i < Z.of_nat (length (letters w)) ->
     0 <= (cellAt r c vert i).1 < 15) ->
  exists g',
    placeWord g w r c vert = Returns g'
    /\ hasRows g'
    /\ (forall i ch, letters w !! i = Some ch ->
          cellValue g' (cellAt r c vert (Z.of_nat i)) = Some ch)
    /\ (forall rc,
          (forall i, 0 <= i < Z.of_nat (length (letters w)) ->
                     rc <> cellAt r c vert i) ->
          cellValue g' rc = cellValue g rc).
Proof.
  intros Hrows Hspan. unfold placeWord.
  destruct (writeLetters_spec g r c vert (letters w) 0)
    as (g' & -> & Hr' & Hin & Hout).
  { intros j Hj. apply Hrows. unfold gridSize. apply Hspan. lia. }
  exists g'. split_and!; try done.
  - intros k. rewrite Hr'. apply Hrows.
  - intros rc Hrc. apply Hout. intros j Hj. apply Hrc. lia.
Qed.

Lemma placeWord_writes_witness :
  exists g',
    placeWord emptyGrid "DOVE" 7 13 false = Returns g'
    /\ hasRows g'
    /\ (forall i ch, letters "DOVE" !! i = Some ch ->
          cellValue g' (cellAt 7 13 false (Z.of_nat i)) = Some ch)
    /\ (forall rc,
          (forall i, 0 <= i < Z.of_nat (length (letters "DOVE")) ->
                     rc <> cellAt 7 13 false i) ->
          cellValue g' rc = cellValue emptyGrid rc).
Proof.
  apply (placeWord_writes emptyGrid "DOVE" 7 13 false).
  - apply hasRows_emptyGrid.
  - intros i Hi. cbn. lia.
Defined.

(** [placeWord] throws a [TypeError] when the row of one of the letters is
    outside the grid of fifteen rows. *)
Theorem placeWord_throws
        (g : Crossword.Grid) (w : string) (r c : Z) (vert : bool) (i : Z) :
  hasRows g ->
  0 <= i < Z.of_nat (length (letters w)) ->
  ~ 0 <= (cellAt r c vert i).1 < 15 ->
  placeWord g w r c vert = Throws TypeError.
Proof.
  intros Hrows Hi Hout. unfold placeWord.
  apply (writeLetters_throws g r c vert 0 (letters w) (Z.to_nat i));
    [done|lia|]. by rewrite Z.add_0_l, Z2Nat.id by lia.
Qed.

Lemma placeWord_throws_witness :
  placeWord emptyGrid "DOVE" 12 3 true = Throws TypeError.
Proof.
  apply (placeWord_throws emptyGrid "DOVE" 12 3 true 3).
  - apply hasRows_emptyGrid.
  - vm_compute. split; [discriminate|reflexivity].
  - cbn. lia.
Defined.

(** A word that [placeWord] has just written is accepted again by
    [canPlaceWord] at the same place, provided it lies within the grid
    along its direction and does not contain the blank marker ['_']: its
    own letters never count as a conflict, and no neighbour is inspected
    for a cell that already holds a letter. *)
Theorem canPlaceWord_after_placeWord
        (g g' : Crossword.Grid) (w : string) (r c : Z) (vert : bool) :
  hasRows g ->
  "_"%char ∉ letters w ->
  (if vert then 0 <= r /\ r + Z.of_nat (length (letters w)) <= 15
   else 0 <= c /\ c + Z.of_nat (length (letters w)) <= 15) ->
  placeWord g w r c vert = Returns g' ->
  canPlaceWord g' w r c vert = Returns true.
Proof.
  intros Hrows Hblank Hrange Hplace. unfold placeWord in Hplace.
  assert (forall i, 0 <= i < Z.of_nat (length (letters w)) ->
            0 <= (cellAt r c vert i).1 < 15) as Hspan.
  { intros i Hi. destruct (decide (0 <= (cellAt r c vert i).1 < 15)); [done|].
    rewrite (writeLetters_throws g r c vert 0 (letters w) (Z.to_nat i))
      in Hplace; [done|done|lia|]. by rewrite Z.add_0_l, Z2Nat.id by lia. }
  destruct (writeLetters_spec g r c vert (letters w) 0)
    as (g1 & Hrun & Hr' & Hin & _).
  { intros j Hj. apply Hrows. unfold gridSize. apply Hspan. lia. }
  rewrite Hrun in Hplace. injection Hplace as ->.
  assert (hasRows g') as Hrows' by (intros k; rewrite Hr'; apply Hrows).
  assert (forall j ch, letters w !! j = Some ch -> ch <> "_"%char) as Hne.
  { intros j ch Hj ->. apply Hblank. by eapply list_elem_of_lookup_2. }
  unfold canPlaceWord. rewrite (arrayLength_rows g' Hrows'). destruct vert.
  - rewrite (proj2 (Z.ltb_ge r 0)), (proj2 (Z.ltb_ge 15 _)) by lia.
    cbn [orb]. apply canPlaceDown_written. intros j ch Hj.
    split; [by eapply Hne|]. by apply (Hin j ch).
  - rewrite (proj2 (Z.ltb_ge c 0)), (proj2 (Z.ltb_ge 15 _)) by lia.
    cbn [orb]. apply canPlaceAcross_written. intros j ch Hj.
    split; [by eapply Hne|]. by apply (Hin j ch).
Qed.

Lemma canPlaceWord_after_placeWord_witness :
  canPlaceWord
    (<[7 := <[5 := "A"%char]> (<[6 := "R"%char]> (<[7 := "K"%char]>
               (filled 15 "_"%char)))]> emptyGrid)
    "ARK" 7 5 false
  = Returns true.
Proof.
  apply (canPlaceWord_after_placeWord emptyGrid _ "ARK" 7 5 false).
  - apply hasRows_emptyGrid.
  - vm_compute. intros H.
    repeat (apply elem_of_cons in H as [H|H]; [discriminate H|]).
    by apply elem_of_nil in H.
  - vm_compute. split; discriminate.
  - vm_compute. reflexivity.
Defined.



(** For a word made of capital letters [getClue] returns a string, never a
    value inherited from [Object.prototype]: the clue of the table if the
    word is listed there, and otherwise the word followed by
    [(starts with <first letter>)]. *)
Theorem getClue_capital_word (w : string) :
  Forall WordSearch.isCapital (letters w) ->
  getClue w
  = Str (default (w ++ " (starts with " ++ charAt0 w ++ ")")%string
                 (clues !! w)).
Proof.
  intros Hcap. unfold getClue. destruct (clues !! w) as [c|]; [done|].
  rewrite bool_decide_eq_false_2; [done|].
  intros (ch & rest & -> & Hch)%inheritedKeys_lower.
  apply Hch. by apply Forall_cons in Hcap as [? _].
Qed.

Lemma getClue_capital_word_witness :
  getClue "MANNA"
  = Str (default ("MANNA" ++ " (starts with " ++ charAt0 "MANNA" ++ ")")%string
                 (clues !! "MANNA"%string)).
Proof.
  apply (getClue_capital_word "MANNA").
  repeat constructor; unfold WordSearch.isCapital; cbn; lia.
Defined.

(** ** The word completion *)

Module WordCompletionFacts.
Import WordCompletion.

Lemma length_underscores n : String.length (underscores n) = n.
Proof. induction n; cbn; auto. Qed.

(** For an index of the list the test of the callback holds at the indices
    3 and 6 and nowhere else: [blanksCount] never excludes an index that
    exists. *)
Lemma displayWord_closed (n i : nat) (w : string) :
  (i < n)%nat ->
  displayWord (Nat.min 2 (n / 3)) i w
  = if decide (i = 3 \/ i = 6)%nat then underscores (String.length w) else w.
Proof.
  intros Hi. unfold displayWord.
  pose proof (Nat.div_mod_eq i 3) as Hdm.
  pose proof (Nat.mod_upper_bound i 3 ltac:(lia)) as Hm.
  pose proof (Nat.div_mod_eq n 3) as Hdn.
  pose proof (Nat.mod_upper_bound n 3 ltac:(lia)) as Hn.
  destruct (decide (i = 3 \/ i = 6)%nat) as [Hyes|Hno].
  - assert (i mod 3 = 0 /\ 1 <= i / 3 <= 2 /\ i / 3 <= n / 3)%nat
      as (Hmod & Hdiv & Hle).
    { destruct Hyes as [-> | ->]; cbn in *; lia. }
    rewrite (proj2 (Nat.ltb_lt 0 i)) by lia.
    rewrite (proj2 (Nat.eqb_eq _ _) Hmod).
    rewrite (proj2 (Nat.leb_le _ _)) by lia. done.
  - destruct (Nat.ltb_spec 0 i); [|done].
    destruct (Nat.eqb_spec (i mod 3) 0); [|done].
    destruct (Nat.leb_spec (i / 3) (Nat.min 2 (n / 3))); [|done].
    exfalso. apply Hno. lia.
Qed.

Lemma lookup_displayWords (words : list string) (i : nat) :
  displayWords words !! i
  = (fun w => if decide (i = 3 \/ i = 6)%nat
              then underscores (String.length w) else w) <$> words !! i.
Proof.
  unfold displayWords. rewrite list_lookup_imap.
  destruct (words !! i) as [w|] eqn:Hw; [|done]. unfold blanksCount.
  cbn [fmap option_fmap option_map]. f_equal.
  apply displayWord_closed. by eapply lookup_lt_Some.
Qed.

End WordCompletionFacts.

Import WordCompletion WordCompletionFacts.

(** The words of the phrase that are replaced by blanks are the fourth and
    the seventh, when the phrase has that many words, and no other: every
    other word is shown as it is. The bound [blanksCount] computed from the
    number of words never excludes a word that exists. *)
Theorem wordCompletion_blanks (words : list string) (i : nat) :
  displayWords words !! i
  = (fun w => if decide (i = 3 \/ i = 6)%nat
              then underscores (String.length w) else w) <$> words !! i.
Proof. apply lookup_displayWords. Qed.

(** The display has as many words as the phrase, each as long as the word
    it stands for; a word is either shown unchanged or replaced by
    underscores only, and a phrase of fewer than four words is shown
    unchanged. *)
Theorem wordCompletion_shape (words : list string) :
  length (displayWords words) = length words
  /\ (forall i w, words !! i = Some w ->
        exists d, displayWords words !! i = Some d
          /\ String.length d = String.length w
          /\ (d = w \/ d = underscores (String.length w)))
  /\ ((length words < 4)%nat -> displayWords words = words).
Proof.
  split_and!.
  - unfold displayWords. apply length_imap.
  - intros i w Hw. rewrite lookup_displayWords, Hw. cbn.
    eexists. split; [done|]. case_decide; [|auto].
    rewrite length_underscores. auto.
  - intros Hlen. apply list_eq. intros i.
    rewrite lookup_displayWords.
    destruct (words !! i) as [w|] eqn:Hw; [|done]. cbn.
    apply lookup_lt_Some in Hw. rewrite decide_False; [done|]. lia.
Qed.

(** The class [blank-word] is given to a word that was replaced by blanks,
    unless the word is empty, and also to a word that is shown unchanged
    but itself begins with an underscore. *)
Theorem wordCompletion_blank_class
        (split : string -> list string) (phrase : string) (i : nat)
        (w : string) :
  split phrase !! i = Some w ->
  wordCompletion split phrase !! i
  = Some (if decide (i = 3 \/ i = 6)%nat
          then (underscores (String.length w), negb (String.eqb w ""))
          else (w, startsWithBlank w)).
Proof.
  intros Hw. unfold wordCompletion.
  rewrite list_lookup_fmap, lookup_displayWords, Hw.
  cbn [fmap option_fmap option_map]. case_decide; [|done].
  by destruct w.
Qed.

Lemma wordCompletion_blank_class_witness :
  wordCompletion (fun _ => ["God"; "so"; "loved"; "the"; "world"]%string)
    "God so loved the world" !! 3%nat
  = Some (if decide (3 = 3 \/ 3 = 6)%nat
          then (underscores (String.length "the"), negb (String.eqb "the" ""))
          else ("the"%string, startsWithBlank "the")).
Proof.
  apply (wordCompletion_blank_class
           (fun _ => ["God"; "so"; "loved"; "the"; "world"]%string)
           "God so loved the world" 3 "the").
  reflexivity.
Defined.
